(** * Device session of midea_auto_cloud: status merge, control and refresh

    A shallow embedding of [core/device.py] (class [MiedaDevice]).

    - Attribute values are Python scalars; the attribute store
      [self._attributes] is a finite map from attribute names to values.
    - What is configured once (device type, queries, centralized attributes,
      calculate rules, default values, callbacks, codec, relay) is a record
      the methods read; the store is the state they change.
    - The session's collaborators (the cloud relay, the per-model codec and the
      Python evaluator behind [exec]) are not part of the file: they are the
      fields of an environment record the model is parameterised by.  Each
      call may answer, answer nothing or raise, and may change the world.
    - The asynchronous methods run in a monad that threads the store, the
      state of the outside world and the trace of the calls made, and that
      keeps the state reached when an exception is raised, as Python does.
      One method runs from start to end: other tasks are not interleaved at
      its awaits.
    - Registered callbacks observe the delta they are called with.
    - A calculate rule that assigns an expression to one attribute is
      modelled as that assignment; what Python makes of any other rule text
      is left to the interpreter the model is parameterised by. *)

From stdpp Require Import gmap strings list fin_maps.
From Stdlib Require Import ZArith Ascii String Lia.

Set Warnings "-register-all".

Local Open Scope Z_scope.

(** ** Python values *)

Module Py.

(** The scalars an attribute can hold.  Floating point values are left out. *)
Inductive Value : Type :=
  | VNone
  | VBool (b : bool)
  | VInt (z : Z)
  | VStr (s : string).

#[global] Instance Value_eq_dec : EqDecision Value.
Proof. solve_decision. Defined.

(** Python's [bool] is a subclass of [int]: [True == 1] and [False == 0]. *)
Definition as_int (v : Value) : option Z :=
  match v with
  | VBool b => Some (Z.b2z b)
  | VInt z => Some z
  | _ => None
  end.

(** [a == b] *)
Definition value_eq (a b : Value) : bool :=
  match a, b with
  | VNone, VNone => true
  | VStr s, VStr t => bool_decide (s = t)
  | _, _ =>
      match as_int a, as_int b with
      | Some x, Some y => x =? y
      | _, _ => false
      end
  end.

(** [a != b] *)
Definition value_ne (a b : Value) : bool := negb (value_eq a b).

(** [v is None] *)
Definition is_none (v : Value) : bool :=
  match v with VNone => true | _ => false end.

(** Truth value of a string: the empty string is false. *)
Definition truthy_str (s : string) : bool :=
  match s with EmptyString => false | _ => true end.

(** [pat] is a prefix of [s]. *)
Fixpoint starts_with (pat s : string) : bool :=
  match pat, s with
  | EmptyString, _ => true
  | String a pat', String b s' => Ascii.eqb a b && starts_with pat' s'
  | String _ _, EmptyString => false
  end.

Fixpoint find_from (i : Z) (s sub : string) : Z :=
  if starts_with sub s then i
  else match s with
       | EmptyString => -1
       | String _ s' => find_from (i + 1) s' sub
       end.

(** [s.find(sub)]: the lowest index at which [sub] occurs in [s], or [-1]. *)
Definition find (s sub : string) : Z := find_from 0 s sub.

(** [d.get(k)] and [d.get(k, default)] *)
Definition get (d : gmap string Value) (k : string) : Value :=
  default VNone (d !! k).

Definition get_default (d : gmap string Value) (k : string) (dflt : Value) : Value :=
  default dflt (d !! k).

(** [s.split('.')] *)
Fixpoint split_dot_aux (cur : string) (s : string) : list string :=
  match s with
  | EmptyString => [String.rev cur]
  | String c s' =>
      if Ascii.eqb c "."%char then String.rev cur :: split_dot_aux EmptyString s'
      else split_dot_aux (String c cur) s'
  end.

Definition split_dot (s : string) : list string := split_dot_aux EmptyString s.

(** ['.' in s] *)
Fixpoint has_dot (s : string) : bool :=
  match s with
  | EmptyString => false
  | String c s' => Ascii.eqb c "."%char || has_dot s'
  end.

End Py.

Import Py.

Abbreviation Attrs := (gmap string Value).

(** ** Exceptions and results *)

Inductive Exn : Type :=
  | TypeError
  | AttributeError
  | ValueError
  | KeyError
  | OtherError (msg : string).

(** [class ParseMessageResult(IntEnum)] *)
Inductive ParseMessageResult : Type :=
  | SUCCESS
  | PADDING
  | ERROR.

#[global] Instance ParseMessageResult_eq_dec : EqDecision ParseMessageResult.
Proof. solve_decision. Defined.

Definition ParseMessageResult_value (r : ParseMessageResult) : Z :=
  match r with SUCCESS => 0 | PADDING => 1 | ERROR => 99 end.

(** ** Data model of the session *)

(** One entry of [self._calculate_get], a mapping with an lvalue and an rvalue.
    A missing field reads as [None], which is as false as the empty string. *)
Record Rule : Type := mkRule {
  lvalue : string;
  rvalue : string;
}.

(** An element of [self._queries]: a [dict], or anything else. *)
Inductive Query : Type :=
  | QDict (d : Attrs)
  | QOther (tag : string).

(** The tree [_convert_to_nested_structure] builds; a Python [dict] keeps its
    keys in insertion order. *)
Inductive Nested : Type :=
  | NVal (v : Value)
  | NDict (d : list (string * Nested)).

(** What [self._cloud] is. *)
Inductive CloudKind : Type :=
  | NoCloud
  | MSmartHomeCloud
  | MeijuCloud
  | OtherCloud.

(** What is configured once and read by every method: the device type, the
    query templates, the centralized attributes, the calculate rules, the
    default values, the registered callbacks, whether a codec was loaded and
    which cloud relay is attached. *)
Record Config : Type := mkConfig {
  device_type : Z;
  queries : list Query;
  centralized : list string;
  calculate_get : list Rule;
  default_values : Attrs;
  updates : list nat;
  has_lua_runtime : bool;
  cloud : CloudKind;
}.

(** The label [T0x%02X] of a device type below 256. *)
Definition hex_digit (n : Z) : string :=
  match n with
  | 0 => "0" | 1 => "1" | 2 => "2" | 3 => "3" | 4 => "4" | 5 => "5" | 6 => "6"
  | 7 => "7" | 8 => "8" | 9 => "9" | 10 => "A" | 11 => "B" | 12 => "C"
  | 13 => "D" | 14 => "E" | _ => "F"
  end.

Definition type_label (t : Z) : string :=
  "T0x" +:+ hex_digit (Z.land (Z.shiftr t 4) 15) +:+ hex_digit (Z.land t 15).

(** [MiedaDevice.__init__]: the store starts with the identity fields. *)
Definition init_attributes (t : Z) (sn sn8 subtype : Value) : Attrs :=
  <["device_type" := VStr (type_label t)]>
    (<["sn" := sn]> (<["sn8" := sn8]> (<["subtype" := subtype]> ∅))).

(** The other fields as [__init__] leaves them. *)
Definition new_config (t : Z) (lua : bool) (c : CloudKind) : Config :=
  {| device_type := t;
     queries := [QDict ∅];
     centralized := [];
     calculate_get := [];
     default_values := ∅;
     updates := [];
     has_lua_runtime := lua;
     cloud := c |}.

(** ** What Python makes of a rule

    The merge hands the text of a rule to [exec].  The interpreter is a
    parameter of the model. *)
Record Python : Type := mkPython {
  (** [expression r]: whether the rvalue [r], once every bracketed path [[p]]
      in it reads the key [p] of a mapping and put behind the equals sign of
      the statement, is a Python expression that only reads that mapping; if
      so, its value over each mapping, [None] where evaluating it raises (a
      missing key, a type error). *)
  expression : string -> option (Attrs -> option Value);
  (** [statement l r d]: the mapping [d] after [exec] of the statement built
      from the lvalue [l] and the rvalue [r] for [d], inside its [try].  It is
      asked for every rule that is not the assignment of an expression to one
      bracketed path: an lvalue with a blank behind it, several targets, an
      rvalue that holds a statement.  The rewriting puts the name of one
      mapping in front of every bracket, and the rule is taken to reach that
      mapping through its brackets only: a text that spells out the name of
      the other mapping or of the session is outside the model. *)
  statement : string -> string -> Attrs -> Attrs;
  (** [statements l r (attrs, new_status)]: the two mappings after the [try]
      of [_parse_message], which runs [calculate_str1] and [calculate_str2]
      one after the other; asked for the same rules. *)
  statements : string -> string -> Attrs * Attrs -> Attrs * Attrs;
}.

(** The value of the rvalue [r] over [d], when [r] is an expression and
    evaluating it does not raise. *)
Definition value_of (py : Python) (r : string) (d : Attrs) : option Value :=
  match expression py r with
  | Some value => value d
  | None => None
  end.

Coercion value_of : Python >-> Funclass.

(** ** The status merge, [_parse_cloud_message] *)

Section Merge.

(** The interpreter behind [exec]; [py_eval r d] is [value_of py_eval r d]. *)
Variable py_eval : Python.

(** [attr not in self._attributes or self._attributes[attr] is None] *)
Definition unset (attrs : Attrs) (attr : string) : bool :=
  match attrs !! attr with
  | None => true
  | Some v => is_none v
  end.

(** [single not in self._attributes or self._attributes[single] != value] *)
Definition differs (attrs : Attrs) (single : string) (value : Value) : bool :=
  match attrs !! single with
  | None => true
  | Some old => value_ne old value
  end.

(** [for k, v in d.items(): if cond(k, v): new_status[k] = v] *)
Definition stage (cond : string -> Value -> bool) (d new_status : Attrs) : Attrs :=
  map_fold (fun k v acc => if cond k v then <[k := v]> acc else acc) new_status d.

(** The first loop: defaults of the attributes that are unset. *)
Definition seed_defaults (attrs defaults : Attrs) : Attrs :=
  stage (fun attr _ => unset attrs attr) defaults ∅.

(** The second loop: the reported values that differ from the stored ones. *)
Definition overlay (attrs status new_status : Attrs) : Attrs :=
  stage (differs attrs) status new_status.

(** What both loops leave in [new_status]. *)
Definition staged (attrs defaults status : Attrs) : Attrs :=
  overlay attrs status (seed_defaults attrs defaults).

(** The f-string that puts [s] between brackets. *)
Definition bracketed (s : string) : string := "[" +:+ s +:+ "]".

(** The inner loop over [new_status.items()] that sets [calculate]. *)
Definition references (rv : string) (new_status : Attrs) : bool :=
  existsb (fun kv => 0 <=? find rv (bracketed (fst kv))) (map_to_list new_status).

(** The rule is considered at all: [if lvalue and rvalue], then [calculate]. *)
Definition fires (c : Rule) (new_status : Attrs) : bool :=
  truthy_str (lvalue c) && truthy_str (rvalue c) && references (rvalue c) new_status.

(** [s.replace(c, by)] for a pattern of one character. *)
Fixpoint replace_char (c : ascii) (by_ : string) (s : string) : string :=
  match s with
  | EmptyString => EmptyString
  | String a s' =>
      if Ascii.eqb a c then by_ +:+ replace_char c by_ s'
      else String a (replace_char c by_ s')
  end.

(** The double quote, as a string. *)
Definition quote : string := String (ascii_of_nat 34) EmptyString.

(** The statement handed to [exec]: in both sides every opening bracket gets
    the name of the mapping in front and every closing bracket a quote in
    front; then, in the whole statement, every opening bracket gets a quote
    behind.  [mapping] is [self._attributes] for [calculate_str1] and
    [new_status] for [calculate_str2]. *)
Definition calculate_str (mapping lv rv : string) : string :=
  replace_char "[" ("[" +:+ quote)
    (replace_char "]" (quote +:+ "]") (replace_char "[" (mapping +:+ "[") lv)
     +:+ " = " +:+
     replace_char "]" (quote +:+ "]") (replace_char "[" (mapping +:+ "[") rv)).

(** Characters that end or change a key once it is quoted by the rewriting. *)
Definition plain_char (a : ascii) : bool :=
  negb (Ascii.eqb a "["%char || Ascii.eqb a "]"%char
        || Ascii.eqb a (ascii_of_nat 34) || Ascii.eqb a (ascii_of_nat 92)
        || Ascii.eqb a (ascii_of_nat 10) || Ascii.eqb a (ascii_of_nat 13)).

Fixpoint plain_until_close (s : string) : option string :=
  match s with
  | EmptyString => None
  | String a EmptyString => if Ascii.eqb a "]"%char then Some EmptyString else None
  | String a s' =>
      if plain_char a then option_map (String a) (plain_until_close s') else None
  end.

(** The attribute an lvalue names when it is one bracketed path and nothing
    else: [p] for the lvalue [[p]], where [p] holds no bracket, quote,
    backslash or line end.  Any other lvalue, such as [[p]] with a blank
    behind it or two paths with a comma between them, gives [None]: it may
    well assign, and what it assigns is [statement]'s to say. *)
Definition lvalue_target (l : string) : option string :=
  match l with
  | String a rest => if Ascii.eqb a "["%char then plain_until_close rest else None
  | EmptyString => None
  end.

(** [exec(calculate_str mapping lvalue rvalue)] inside its own [try], on the
    mapping [d] the statement names.  For an lvalue [[p]] and an rvalue that
    is an expression, the statement is the assignment of the rewritten rvalue
    to the key [p] of [d] (lemma [calculate_str_assignment]), and nothing
    changes when the evaluation raises.  Every other statement is executed
    all the same: the mapping is then what [statement] makes of it. *)
Definition exec_assign (c : Rule) (d : Attrs) : Attrs :=
  match lvalue_target (lvalue c), expression py_eval (rvalue c) with
  | Some p, Some value =>
      match value d with
      | Some v => <[p := v]> d
      | None => d
      end
  | _, _ => statement py_eval (lvalue c) (rvalue c) d
  end.

(** Some rule of [rules] may assign the attribute [k]: a rule that can be
    executed (its lvalue and rvalue are not empty) and that assigns an
    expression to [[k]], or that is not the assignment of an expression to one
    bracketed path, in which case nothing is known of what it assigns. *)
Definition assigned (rules : list Rule) (k : string) : bool :=
  existsb (fun c =>
             truthy_str (lvalue c) && truthy_str (rvalue c) &&
             match lvalue_target (lvalue c), expression py_eval (rvalue c) with
             | Some p, Some _ => bool_decide (p = k)
             | _, _ => true
             end) rules.

(** One iteration of [for c in self._calculate_get], on the pair
    ([self._attributes], [new_status]). *)
Definition apply_rule (st : Attrs * Attrs) (c : Rule) : Attrs * Attrs :=
  if fires c (snd st) then (exec_assign c (fst st), exec_assign c (snd st))
  else st.

Definition derive (rules : list Rule) (attrs new_status : Attrs) : Attrs * Attrs :=
  fold_left apply_rule rules (attrs, new_status).

(** The store and the delta [_parse_cloud_message] ends with. *)
Definition merge (cfg : Config) (attrs status : Attrs) : Attrs * Attrs :=
  let new_status := staged attrs (default_values cfg) status in
  if bool_decide (new_status = ∅) then (attrs, new_status)
  else derive (calculate_get cfg) attrs new_status.

End Merge.

(** ** Flat to nested attributes, [_convert_to_nested_structure] *)

(** A [dict] whose order of insertion matters, as a list of bindings with
    distinct keys. *)
Fixpoint dict_get {A} (k : string) (d : list (string * A)) : option A :=
  match d with
  | [] => None
  | (k', v) :: d' => if bool_decide (k' = k) then Some v else dict_get k d'
  end.

(** [d[k] = v]: an existing key keeps its place, a new one goes last. *)
Fixpoint dict_set {A} (k : string) (v : A) (d : list (string * A)) : list (string * A) :=
  match d with
  | [] => [(k, v)]
  | (k', v') :: d' =>
      if bool_decide (k' = k) then (k, v) :: d' else (k', v') :: dict_set k v d'
  end.

(** The walk along [keys[:-1]] followed by the store at [keys[-1]].  Walking
    into a value that is not a [dict] raises [TypeError]. *)
Fixpoint nested_set (parents : list string) (last : string) (v : Value)
    (d : list (string * Nested)) : option (list (string * Nested)) :=
  match parents with
  | [] => Some (dict_set last (NVal v) d)
  | k :: ks =>
      match dict_get k d with
      | None =>
          sub ← nested_set ks last v [];
          Some (dict_set k (NDict sub) d)
      | Some (NDict sub0) =>
          sub ← nested_set ks last v sub0;
          Some (dict_set k (NDict sub) d)
      | Some (NVal _) => None
      end
  end.

Definition nested_insert (d : list (string * Nested)) (kv : string * Value)
    : option (list (string * Nested)) :=
  let '(key, value) := kv in
  if has_dot key then
    let keys := split_dot key in
    nested_set (removelast keys) (List.last keys EmptyString) value d
  else Some (dict_set key (NVal value) d).

Fixpoint nested_fold (items : list (string * Value)) (d : list (string * Nested))
    : option (list (string * Nested)) :=
  match items with
  | [] => Some d
  | kv :: rest => d' ← nested_insert d kv; nested_fold rest d'
  end.

Definition _convert_to_nested_structure (attrs : list (string * Value))
    : option Nested :=
  NDict <$> nested_fold attrs [].

(** [bytes.fromhex]: pairs of hexadecimal digits, white space allowed between
    the pairs. *)
Definition hex_value (a : ascii) : option Z :=
  let n := Z.of_nat (nat_of_ascii a) in
  if (48 <=? n) && (n <=? 57) then Some (n - 48)
  else if (97 <=? n) && (n <=? 102) then Some (n - 87)
  else if (65 <=? n) && (n <=? 70) then Some (n - 55)
  else None.

Definition is_space (a : ascii) : bool :=
  let n := Z.of_nat (nat_of_ascii a) in
  (n =? 32) || ((9 <=? n) && (n <=? 13)).

Fixpoint fromhex (s : string) : option (list Z) :=
  match s with
  | EmptyString => Some []
  | String a s' =>
      if is_space a then fromhex s'
      else match hex_value a, s' with
           | Some hi, String b s'' =>
               match hex_value b with
               | Some lo => cons (hi * 16 + lo) <$> fromhex s''
               | None => None
               end
           | _, _ => None
           end
  end.

(** ** The session's collaborators and the calls made to them *)

(** The calls a run makes, in order: to the cloud relay, to the codec and to
    the subscribers; [Merge] marks each run of [_parse_cloud_message] and
    [LogErrorReceived] the debug line of the [ERROR] branch of
    [_send_message]. *)
Inductive Event : Type :=
  | CloudGetStatus (kind : CloudKind) (query : Query)
  | CloudSendControl (kind : CloudKind) (control : Nested) (status : Attrs)
  | CloudSend (data : list Z)
  | CodecBuildQuery (query : Query)
  | CodecBuildControl (control : Nested) (status : Attrs)
  | CodecDecode (reply : string)
  | Merge (status : Attrs) (update : bool)
  | Notify (subscriber : nat) (delta : Attrs)
  | LogErrorReceived.

(** The outside world has a state of its own; every call may change it, may
    answer nothing ([None]) and may raise. *)
Record Env (W : Type) : Type := mkEnv {
  (** The interpreter behind [exec], see [merge]. *)
  py_eval : Python;
  (** [cloud.get_device_status(..., query=...)] *)
  get_device_status : CloudKind -> Query -> W -> (Exn + option Attrs) * W;
  (** [cloud.send_device_control(..., control=..., status=...)] *)
  send_device_control : CloudKind -> Nested -> Attrs -> W -> (Exn + unit) * W;
  (** [cloud.send_cloud(device_id, data)] *)
  send_cloud : list Z -> W -> (Exn + option string) * W;
  (** [lua_runtime.build_query(query)] *)
  build_query : Query -> W -> (Exn + option string) * W;
  (** [lua_runtime.build_control(control, status=...)] *)
  build_control : Nested -> Attrs -> W -> (Exn + option string) * W;
  (** [lua_runtime.decode_status(dec_string_to_bytes(reply).hex())] *)
  decode_reply : string -> W -> (Exn + option Attrs) * W;
}.

Arguments py_eval {W}.
Arguments get_device_status {W}.
Arguments send_device_control {W}.
Arguments send_cloud {W}.
Arguments build_query {W}.
Arguments build_control {W}.
Arguments decode_reply {W}.

(** ** The monad of the session's methods *)

(** What a method leaves behind: how it ended, the attribute store and the
    world it reached, and the calls it made, oldest first. *)
Record Run (W A : Type) : Type := mkRun {
  outcome : Exn + A;
  final : Attrs;
  world : W;
  emitted : list Event;
}.

Arguments mkRun {W A}.
Arguments outcome {W A}.
Arguments final {W A}.
Arguments world {W A}.
Arguments emitted {W A}.

Definition M (W A : Type) : Type := Attrs -> W -> Run W A.

Definition ret {W A} (a : A) : M W A :=
  fun s w => mkRun (inr a) s w [].

Definition bind {W A B} (m : M W A) (k : A -> M W B) : M W B :=
  fun s w =>
    let r := m s w in
    match outcome r with
    | inl e => mkRun (inl e) (final r) (world r) (emitted r)
    | inr a =>
        let r' := k a (final r) (world r) in
        mkRun (outcome r') (final r') (world r') (emitted r ++ emitted r')
    end.

Definition raise {W A} (e : Exn) : M W A :=
  fun s w => mkRun (inl e) s w [].

(** [try: m / except Exception: h]: the handler starts from the state the
    body had reached. *)
Definition try_except {W A} (m : M W A) (h : Exn -> M W A) : M W A :=
  fun s w =>
    let r := m s w in
    match outcome r with
    | inl e =>
        let r' := h e (final r) (world r) in
        mkRun (outcome r') (final r') (world r') (emitted r ++ emitted r')
    | inr a => r
    end.

(** Reading [self._attributes]. *)
Definition get_attributes {W} : M W Attrs :=
  fun s w => mkRun (inr s) s w [].

(** [self._attributes[k] = v] *)
Definition store_attr {W} (k : string) (v : Value) : M W unit :=
  fun s w => mkRun (inr tt) (<[k := v]> s) w [].

Definition put_attributes {W} (a : Attrs) : M W unit :=
  fun _ w => mkRun (inr tt) a w [].

Definition emit {W} (e : Event) : M W unit :=
  fun s w => mkRun (inr tt) s w [e].

(** A call to a collaborator, recorded before it answers. *)
Definition call {W A} (e : Event) (f : W -> (Exn + A) * W) : M W A :=
  fun s w => let '(r, w') := f w in mkRun r s w' [e].

Notation "x <- c1 ;; c2" := (bind c1 (fun x => c2))
  (at level 100, c1 at next level, right associativity).
Notation "c1 ;; c2" := (bind c1 (fun _ => c2))
  (at level 100, right associativity).

Fixpoint for_each {W A} (l : list A) (body : A -> M W unit) : M W unit :=
  match l with
  | [] => ret tt
  | x :: rest => body x ;; for_each rest body
  end.

(** Truth value of what a collaborator answered. *)
Definition truthy_status (o : option Attrs) : option Attrs :=
  match o with
  | Some d => if bool_decide (d = ∅) then None else Some d
  | None => None
  end.

Definition truthy_text (o : option string) : option string :=
  match o with
  | Some t => if truthy_str t then Some t else None
  | None => None
  end.

(** ** The methods of [MiedaDevice] *)

Section Device.

Context {W : Type} (E : Env W) (cfg : Config).

(** [_update_all]: every registered callback is called with [status]. *)
Definition _update_all (status : Attrs) : M W unit :=
  for_each (updates cfg) (fun update => emit (Notify update status)).

(** [_parse_cloud_message].  Both loops only stage into [new_status]; the
    store is written by [calculate_str1] alone. *)
Definition _parse_cloud_message (status : Attrs) (update : bool)
    : M W ParseMessageResult :=
  emit (Merge status update) ;;
  attrs <- get_attributes ;;
  let new_status := staged attrs (default_values cfg) status in
  (if bool_decide (new_status = ∅) then ret tt
   else
     let st := derive (py_eval E) (calculate_get cfg) attrs new_status in
     put_attributes (fst st) ;;
     if update then _update_all (snd st) else ret tt) ;;
  ret SUCCESS.

(** What [_send_message] does once [self._cloud] is there: the command goes
    to the cloud relay; what comes back is decoded and merged without
    notifying. *)
Definition relay_command (data : list Z) : M W unit :=
  reply <- call (CloudSend data) (send_cloud E data) ;;
  match truthy_text reply with
  | Some reply =>
      if has_lua_runtime cfg then
        reply_dec <- call (CodecDecode reply) (decode_reply E reply) ;;
        match truthy_status reply_dec with
        | Some reply_dec =>
            result <- _parse_cloud_message reply_dec false ;;
            if bool_decide (result = ERROR) then emit LogErrorReceived
            else ret tt
        | None => ret tt
        end
      else raise AttributeError
  | None => ret tt
  end.

(** [_send_message]; without a cloud the attribute access raises. *)
Definition _send_message (data : list Z) : M W unit :=
  match cloud cfg with
  | NoCloud => raise AttributeError
  | _ => relay_command data
  end.

(** [_build_send] *)
Definition _build_send (cmd : string) : M W unit :=
  match fromhex cmd with
  | Some bytes_cmd => _send_message bytes_cmd
  | None => raise ValueError
  end.

(** [2 if current_location == 1 else 1] *)
Definition other_location (current_location : Value) : Z :=
  if value_eq current_location (VInt 1) then 2 else 1.

(** The label stored for a location that is literally 1 or 2. *)
Definition selection_label (location : Z) : string :=
  if location =? 1 then "left" else "right".

(** The head of the loop body of [refresh_status]: the query sent for one
    configured query. *)
Definition derive_query (query : Query) : M W Query :=
  match query with
  | QDict actual_query =>
      if device_type cfg =? 217 then
        attrs <- get_attributes ;;
        let db_position := get_default attrs "db_position" (VInt 1) in
        if value_eq db_position (VInt 1) then
          let current_location := get_default attrs "db_location" (VInt 1) in
          ret (QDict (<["db_location" := current_location]> actual_query))
        else if value_eq db_position (VInt 0) then
          let current_location := get_default attrs "db_location" (VInt 1) in
          let calculated_location := other_location current_location in
          store_attr "db_location_selection"
            (VStr (selection_label calculated_location)) ;;
          ret (QDict (<["db_location" := VInt calculated_location]> actual_query))
        else ret (QDict actual_query)
      else ret (QDict actual_query)
  | QOther _ => ret query
  end.

(** The rest of the loop body, for either relay: the relay's status first,
    the codec's query when the relay has none. *)
Definition relay_status (actual_query : Query) : M W unit :=
  status <- call (CloudGetStatus (cloud cfg) actual_query)
                 (get_device_status E (cloud cfg) actual_query) ;;
  match truthy_status status with
  | Some status => _parse_cloud_message status true ;; ret tt
  | None =>
      if has_lua_runtime cfg then
        query_cmd <- call (CodecBuildQuery actual_query)
                          (build_query E actual_query) ;;
        match truthy_text query_cmd with
        | Some query_cmd => _build_send query_cmd
        | None => ret tt
        end
      else ret tt
  end.

Definition query_status (actual_query : Query) : M W unit :=
  match cloud cfg with
  | MSmartHomeCloud | MeijuCloud => relay_status actual_query
  | _ => ret tt
  end.

Definition refresh_query (query : Query) : M W unit :=
  actual_query <- derive_query query ;;
  query_status actual_query.

(** [refresh_status] *)
Definition refresh_status : M W unit :=
  for_each (queries cfg) refresh_query.

(** [_determine_control_status_based_on_running] *)
Definition _determine_control_status_based_on_running (running_status : Value)
    : Value :=
  if value_eq running_status (VStr "start") then VStr "start" else VStr "pause".

(** The first lines of [set_attribute] and of [set_attributes]: the
    centralized attributes, read from the store. *)
Definition centralized_status (attrs : Attrs) : list (string * Value) :=
  fold_left (fun new_status attr => dict_set attr (get attrs attr) new_status)
            (centralized cfg) [].

(** The branch both setters share when neither [db_position] nor
    [db_location_selection] is being set. *)
Definition location_from_position (new_status : list (string * Value))
    : M W (list (string * Value)) :=
  attrs <- get_attributes ;;
  let db_position := get_default attrs "db_position" (VInt 1) in
  if value_eq db_position (VInt 0) then
    let current_location := get_default attrs "db_location" (VInt 1) in
    ret (dict_set "db_location" (VInt (other_location current_location)) new_status)
  else if value_eq db_position (VInt 1) then
    let current_location := get_default attrs "db_location" (VInt 1) in
    ret (dict_set "db_location" current_location new_status)
  else ret new_status.

(** [db_position] set to 0: the location flips, in the store as well. *)
Definition flip_location (new_status : list (string * Value))
    : M W (list (string * Value)) :=
  attrs <- get_attributes ;;
  let current_location := get_default attrs "db_location" (VInt 1) in
  let new_location := other_location current_location in
  store_attr "db_location" (VInt new_location) ;;
  store_attr "db_location_selection" (VStr (selection_label new_location)) ;;
  ret (dict_set "db_location_selection" (VStr (selection_label new_location))
         (dict_set "db_location" (VInt new_location) new_status)).

(** [db_location_selection] chosen: the location follows, in the store as
    well. *)
Definition select_location (value : Value) (new_status : list (string * Value))
    : M W (list (string * Value)) :=
  if value_eq value (VStr "left") then
    store_attr "db_location" (VInt 1) ;;
    ret (dict_set "db_location" (VInt 1) new_status)
  else if value_eq value (VStr "right") then
    store_attr "db_location" (VInt 2) ;;
    ret (dict_set "db_location" (VInt 2) new_status)
  else ret new_status.

(** The block of [set_attribute] for device type 0xD9. *)
Definition d9_set_attribute (attribute : string) (value : Value)
    (new_status : list (string * Value)) : M W (list (string * Value)) :=
  if bool_decide (attribute = "db_location_selection") then
    new_status <- select_location value new_status ;;
    let new_status := dict_set "db_location_selection" value new_status in
    refresh_status ;;
    attrs <- get_attributes ;;
    let running_status := get attrs "db_running_status" in
    if is_none running_status then ret new_status
    else
      let control_status := _determine_control_status_based_on_running running_status in
      store_attr "db_control_status" control_status ;;
      ret (dict_set "db_control_status" control_status new_status)
  else if bool_decide (attribute = "db_position") then
    if value_eq value (VInt 1) then ret new_status
    else if value_eq value (VInt 0) then flip_location new_status
    else ret new_status
  else location_from_position new_status.

(** The codec's attempt, the body of the [try] both setters share: [true]
    when a command was built and sent. *)
Definition codec_control (nested_status : Nested) : M W bool :=
  attrs <- get_attributes ;;
  set_cmd <- call (CodecBuildControl nested_status attrs)
                  (build_control E nested_status attrs) ;;
  match truthy_text set_cmd with
  | Some set_cmd => _build_send set_cmd ;; ret true
  | None => ret false
  end.

(** The cloud relay's turn. *)
Definition cloud_control (nested_status : Nested) : M W unit :=
  match cloud cfg with
  | MSmartHomeCloud | MeijuCloud =>
      attrs <- get_attributes ;;
      call (CloudSendControl (cloud cfg) nested_status attrs)
           (send_device_control E (cloud cfg) nested_status attrs)
  | _ => ret tt
  end.

(** The tail both setters share: the codec first, the cloud relay when the
    codec built nothing or raised. *)
Definition send_control (nested_status : Nested) : M W unit :=
  sent <- (if has_lua_runtime cfg
           then try_except (codec_control nested_status) (fun _ => ret false)
           else ret false) ;;
  if (sent : bool) then ret tt else cloud_control nested_status.

Definition convert_to_nested (new_status : list (string * Value)) : M W Nested :=
  match _convert_to_nested_structure new_status with
  | Some nested => ret nested
  | None => raise TypeError
  end.

(** The payload of [set_attribute] before it is nested: the centralized
    attributes, the attribute being set, and what device type 0xD9 adds. *)
Definition new_control_status (attribute : string) (value : Value)
    : M W (list (string * Value)) :=
  attrs <- get_attributes ;;
  let new_status := dict_set attribute value (centralized_status attrs) in
  if device_type cfg =? 217 then d9_set_attribute attribute value new_status
  else ret new_status.

(** [set_attribute] *)
Definition set_attribute (attribute : string) (value : Value) : M W unit :=
  attrs <- get_attributes ;;
  if bool_decide (is_Some (attrs !! attribute)) then
    new_status <- new_control_status attribute value ;;
    nested_status <- convert_to_nested new_status ;;
    send_control nested_status
  else ret tt.

(** The loop of [set_attributes] over the requested attributes. *)
Fixpoint stage_known (attrs : Attrs) (requested : list (string * Value))
    (acc : list (string * Value) * bool) : list (string * Value) * bool :=
  match requested with
  | [] => acc
  | (attribute, value) :: rest =>
      if bool_decide (is_Some (attrs !! attribute))
      then stage_known attrs rest (dict_set attribute value (fst acc), true)
      else stage_known attrs rest acc
  end.

(** The block of [set_attributes] for device type 0xD9. *)
Definition d9_set_attributes (requested : list (string * Value))
    (new_status : list (string * Value)) : M W (list (string * Value)) :=
  match dict_get "db_location_selection" requested with
  | Some location_selection =>
      new_status <- select_location location_selection new_status ;;
      let new_status := dict_set "db_location_selection" location_selection new_status in
      refresh_status ;;
      attrs <- get_attributes ;;
      let running_status := get attrs "db_running_status" in
      (if is_none running_status then ret tt
       else store_attr "db_control_status"
              (_determine_control_status_based_on_running running_status)) ;;
      ret new_status
  | None =>
      match dict_get "db_position" requested with
      | Some position_value =>
          if value_eq position_value (VInt 1) then
            attrs <- get_attributes ;;
            let current_location := get_default attrs "db_location" (VInt 1) in
            ret (dict_set "db_location" current_location new_status)
          else if value_eq position_value (VInt 0) then flip_location new_status
          else ret new_status
      | None => location_from_position new_status
      end
  end.

(** The payload of [set_attributes] before it is nested, and [has_new]. *)
Definition new_controls_status (requested : list (string * Value))
    : M W (list (string * Value) * bool) :=
  attrs <- get_attributes ;;
  let staged_known := stage_known attrs requested (centralized_status attrs, false) in
  new_status <- (if device_type cfg =? 217
                 then d9_set_attributes requested (fst staged_known)
                 else ret (fst staged_known)) ;;
  ret (new_status, snd staged_known).

(** [set_attributes] *)
Definition set_attributes (requested : list (string * Value)) : M W unit :=
  controls <- new_controls_status requested ;;
  nested_status <- convert_to_nested (fst controls) ;;
  if snd controls then send_control nested_status else ret tt.

End Device.

(** ** A small interpreter for rules

    Python's evaluation of the expressions [[p]], [[p]*n] and [[p]+[q]],
    enough to run the merge on concrete rules.  It stands for Python on the
    rules whose lvalue is one bracketed path and whose rvalue has one of these
    three forms, and on no other rule; the concrete sessions below use no
    other rule, and the theorems take the interpreter as a parameter. *)

Module MiniPy.

Fixpoint take_path (s : string) : option (string * string) :=
  match s with
  | EmptyString => None
  | String a s' =>
      if Ascii.eqb a "]"%char then Some (EmptyString, s')
      else match take_path s' with
           | Some (p, rest) => Some (String a p, rest)
           | None => None
           end
  end.

(** A leading [[p]] and what follows it. *)
Definition take_ref (s : string) : option (string * string) :=
  match s with
  | String a s' => if Ascii.eqb a "["%char then take_path s' else None
  | EmptyString => None
  end.

Fixpoint digits (acc : Z) (s : string) : option Z :=
  match s with
  | EmptyString => Some acc
  | String a s' =>
      let n := Z.of_nat (nat_of_ascii a) in
      if (48 <=? n) && (n <=? 57) then digits (acc * 10 + (n - 48)) s' else None
  end.

Definition number (s : string) : option Z :=
  match s with
  | EmptyString => None
  | _ => digits 0 s
  end.

Fixpoint repeat_string (n : nat) (s : string) : string :=
  match n with
  | O => EmptyString
  | S n' => s +:+ repeat_string n' s
  end.

(** [v * n] *)
Definition mul (v : Value) (n : Z) : option Value :=
  match v with
  | VStr s => Some (VStr (repeat_string (Z.to_nat n) s))
  | VNone => None
  | _ => (fun z => VInt (z * n)) <$> as_int v
  end.

(** [a + b] *)
Definition add (a b : Value) : option Value :=
  match a, b with
  | VStr s, VStr t => Some (VStr (s +:+ t))
  | _, _ =>
      match as_int a, as_int b with
      | Some x, Some y => Some (VInt (x + y))
      | _, _ => None
      end
  end.

Definition value (r : string) (d : Attrs) : option Value :=
  match take_ref r with
  | Some (p, rest) =>
      v ← d !! p;
      match rest with
      | EmptyString => Some v
      | String op rest' =>
          if Ascii.eqb op "*"%char then n ← number rest'; mul v n
          else if Ascii.eqb op "+"%char then
            match take_ref rest' with
            | Some (q, EmptyString) => v' ← d !! q; add v v'
            | _ => None
            end
          else None
      end
  | None => None
  end.

(** [r] has one of the three forms. *)
Definition form (r : string) : bool :=
  match take_ref r with
  | Some (p, rest) =>
      match rest with
      | EmptyString => true
      | String op rest' =>
          if Ascii.eqb op "*"%char then bool_decide (is_Some (number rest'))
          else if Ascii.eqb op "+"%char then
            match take_ref rest' with
            | Some (q, EmptyString) => true
            | _ => false
            end
          else false
      end
  | None => false
  end.

(** The three forms are expressions.  No session below has a rule of another
    shape, so that the two other fields are never asked; they leave the
    mappings as they are, which is what Python does with a statement that
    raises and not with every statement. *)
Definition eval : Python :=
  {| expression := fun r => if form r then Some (value r) else None;
     statement := fun _ _ d => d;
     statements := fun _ _ st => st |}.

(** A world in which nothing answers: the cloud relay and the codec return
    nothing and never raise. *)
Definition silent : Env unit :=
  {| py_eval := eval;
     get_device_status := fun _ _ w => (inr None, w);
     send_device_control := fun _ _ _ w => (inr tt, w);
     send_cloud := fun _ w => (inr None, w);
     build_query := fun _ w => (inr None, w);
     build_control := fun _ _ w => (inr None, w);
     decode_reply := fun _ w => (inr None, w) |}.

End MiniPy.

(** * Properties *)

(** ** Strings *)

(** [sub] occurs in [s]. *)
Definition occurs (sub s : string) : Prop :=
  exists pre post, s = pre +:+ sub +:+ post.

Lemma starts_with_spec (pat s : string) :
  starts_with pat s = true <-> exists post, s = pat +:+ post.
Proof.
  revert s. induction pat as [|a pat IH]; intros s; simpl.
  - split; [intros _; by exists s | done].
  - destruct s as [|b s].
    + split; [done | intros [post H]; discriminate].
    + rewrite andb_true_iff, Ascii.eqb_eq, IH. split.
      * intros [-> [post ->]]. by exists post.
      * intros [post H]. injection H as -> ->. split; [done | by exists post].
Qed.

Lemma find_from_lower (i : Z) (s sub : string) :
  0 <= i -> 0 <= find_from i s sub -> i <= find_from i s sub.
Proof.
  revert i. induction s as [|a s IH]; intros i Hi; simpl.
  - destruct (starts_with sub EmptyString); lia.
  - destruct (starts_with sub (String a s)); [lia |].
    intros H. specialize (IH (i + 1)). lia.
Qed.

Lemma find_from_spec (i : Z) (s sub : string) :
  0 <= i -> (0 <= find_from i s sub <-> occurs sub s).
Proof.
  revert i. induction s as [|a s IH]; intros i Hi; simpl.
  - destruct (starts_with sub EmptyString) eqn:Hp.
    + split; [intros _ | lia].
      apply starts_with_spec in Hp as [post Hp]. by exists EmptyString, post.
    + split; [lia |]. intros (pre & post & H).
      destruct pre; [| discriminate]. simpl in H.
      assert (starts_with sub EmptyString = true) as Hc
        by (apply starts_with_spec; by exists post).
      congruence.
  - destruct (starts_with sub (String a s)) eqn:Hp.
    + split; [intros _ | lia].
      apply starts_with_spec in Hp as [post Hp]. by exists EmptyString, post.
    + rewrite IH by lia. split.
      * intros (pre & post & ->). by exists (String a pre), post.
      * intros (pre & post & H). destruct pre as [|b pre]; simpl in H.
        -- assert (starts_with sub (String a s) = true) as Hc
             by (apply starts_with_spec; by exists post).
           congruence.
        -- injection H as _ ->. by exists pre, post.
Qed.

(** [s.find(sub) >= 0] says that [sub] occurs in [s]. *)
Lemma find_spec (s sub : string) : 0 <= find s sub <-> occurs sub s.
Proof. by apply find_from_spec. Qed.

(** ** The rewriting of a rule into a statement *)

Fixpoint lacks (c : ascii) (s : string) : bool :=
  match s with
  | EmptyString => true
  | String a s' => negb (Ascii.eqb a c) && lacks c s'
  end.

Lemma append_cons (a : ascii) (s1 s2 : string) :
  String a s1 +:+ s2 = String a (s1 +:+ s2).
Proof. done. Qed.

Lemma append_nil_l (s : string) : "" +:+ s = s.
Proof. done. Qed.

Lemma append_assoc (s1 s2 s3 : string) : (s1 +:+ s2) +:+ s3 = s1 +:+ s2 +:+ s3.
Proof.
  induction s1 as [|a s1 IH]; [done |]. by rewrite !append_cons, IH.
Qed.

Lemma replace_char_app (c : ascii) (by_ s1 s2 : string) :
  replace_char c by_ (s1 +:+ s2) = replace_char c by_ s1 +:+ replace_char c by_ s2.
Proof.
  induction s1 as [|a s1 IH]; [done |].
  rewrite append_cons. simpl.
  destruct (Ascii.eqb a c); rewrite IH; [by rewrite append_assoc | done].
Qed.

Lemma replace_char_lacks (c : ascii) (by_ s : string) :
  lacks c s = true -> replace_char c by_ s = s.
Proof.
  induction s as [|a s IH]; simpl; [done |].
  destruct (Ascii.eqb a c); simpl; [done |]. intros H. by rewrite IH.
Qed.

Lemma plain_until_close_spec (s p : string) :
  plain_until_close s = Some p ->
  s = p +:+ "]" /\ lacks "[" p = true /\ lacks "]" p = true /\
  lacks (ascii_of_nat 34) p = true.
Proof.
  revert p. induction s as [|a s IH]; intros p; simpl; [done |].
  destruct s as [|b s].
  - destruct (Ascii.eqb a "]") eqn:Ha; [| done].
    apply Ascii.eqb_eq in Ha as ->. by intros [= <-].
  - destruct (plain_char a) eqn:Ha; [| done].
    destruct (plain_until_close (String b s)) as [p'|]; [| done].
    intros [= <-]. destruct (IH p' eq_refl) as (-> & H1 & H2 & H3).
    unfold plain_char in Ha. apply negb_true_iff in Ha.
    rewrite !orb_false_iff in Ha.
    destruct Ha as (((((Ha1 & Ha2) & Ha3) & _) & _) & _).
    simpl. by rewrite Ha1, Ha2, Ha3, H1, H2, H3.
Qed.

Lemma lvalue_target_spec (l p : string) :
  lvalue_target l = Some p ->
  l = "[" +:+ p +:+ "]" /\ lacks "[" p = true /\ lacks "]" p = true /\
  lacks (ascii_of_nat 34) p = true.
Proof.
  destruct l as [|a rest]; simpl; [done |].
  destruct (Ascii.eqb a "[") eqn:Ha; [| done].
  apply Ascii.eqb_eq in Ha as ->. intros H.
  by destruct (plain_until_close_spec _ _ H) as (-> & ? & ? & ?).
Qed.

(** For the lvalue [[p]] the statement is an assignment to the key [p] of the
    mapping: the text left of the equals sign is the mapping, subscripted by
    [p] between quotes. *)
Lemma calculate_str_assignment (mapping l p rv : string) :
  lvalue_target l = Some p ->
  lacks "[" mapping = true -> lacks "]" mapping = true ->
  calculate_str mapping l rv =
    mapping +:+ "[" +:+ quote +:+ p +:+ quote +:+ "]" +:+ " = " +:+
    replace_char "[" ("[" +:+ quote)
      (replace_char "]" (quote +:+ "]") (replace_char "[" (mapping +:+ "[") rv)).
Proof.
  intros (-> & Hp1 & Hp2 & Hp3)%lvalue_target_spec Hm1 Hm2.
  unfold calculate_str, quote.
  repeat progress
    (rewrite ?append_assoc, ?append_cons, ?append_nil_l, ?replace_char_app; simpl;
     rewrite ?(replace_char_lacks _ _ p), ?(replace_char_lacks _ _ mapping) by done).
  done.
Qed.

(** ** The two staging loops *)

Lemma stage_lookup (cond : string -> Value -> bool) (d acc : Attrs) (k : string) :
  stage cond d acc !! k =
    match d !! k with
    | Some v => if cond k v then Some v else acc !! k
    | None => acc !! k
    end.
Proof.
  unfold stage.
  apply (map_fold_weak_ind (fun (r m : Attrs) =>
    r !! k = match m !! k with
             | Some v => if cond k v then Some v else acc !! k
             | None => acc !! k
             end)).
  - by rewrite lookup_empty.
  - intros i x m r Hi IH. destruct (decide (i = k)) as [->|Hne].
    + rewrite (lookup_insert_eq m). rewrite Hi in IH.
      destruct (cond k x); [by rewrite lookup_insert_eq | done].
    + rewrite (lookup_insert_ne m) by done.
      destruct (cond i x); [by rewrite lookup_insert_ne | done].
Qed.

(** What the two loops stage for one attribute: the reported value when it
    differs from the stored one, else the default when the attribute is
    unset, else nothing. *)
Lemma staged_lookup (attrs defaults status : Attrs) (k : string) :
  staged attrs defaults status !! k =
    match status !! k with
    | Some v =>
        if differs attrs k v then Some v
        else match defaults !! k with
             | Some dv => if unset attrs k then Some dv else None
             | None => None
             end
    | None =>
        match defaults !! k with
        | Some dv => if unset attrs k then Some dv else None
        | None => None
        end
    end.
Proof.
  unfold staged, overlay, seed_defaults. rewrite !stage_lookup, lookup_empty.
  destruct (status !! k), (defaults !! k); try done;
    repeat match goal with |- context [if ?b then _ else _] => destruct b end; done.
Qed.

(** ** Calculate rules *)

Lemma references_spec (rv : string) (new_status : Attrs) :
  references rv new_status = true <->
  exists s, is_Some (new_status !! s) /\ occurs (bracketed s) rv.
Proof.
  unfold references. rewrite existsb_exists. split.
  - intros ([s v] & Hin & Hf). exists s. split.
    + exists v. apply elem_of_map_to_list. by apply list_elem_of_In.
    + apply find_spec. simpl in Hf. lia.
  - intros (s & [v Hv] & Hocc). exists (s, v). split.
    + apply list_elem_of_In. by apply elem_of_map_to_list.
    + simpl. apply find_spec in Hocc. lia.
Qed.

Section MergeFacts.

Variable py_eval : Python.

(** A rule that can be executed and that [assigned] does not hold against
    [k] is the assignment of an expression to another attribute. *)
Lemma assigned_false (rules : list Rule) (k : string) :
  assigned py_eval rules k = false ->
  forall c, c ∈ rules ->
    truthy_str (lvalue c) && truthy_str (rvalue c) = true ->
    exists p value,
      lvalue_target (lvalue c) = Some p /\
      expression py_eval (rvalue c) = Some value /\ p <> k.
Proof.
  unfold assigned. induction rules as [|c0 rules IH]; intros H c Hin Hlive.
  - by apply elem_of_nil in Hin.
  - simpl in H. apply orb_false_iff in H as [Hc0 Hrules].
    apply elem_of_cons in Hin as [-> | Hin]; [| by apply IH].
    rewrite Hlive in Hc0. simpl in Hc0.
    destruct (lvalue_target (lvalue c0)) as [p|]; [| done].
    destruct (expression py_eval (rvalue c0)) as [value|]; [| done].
    exists p, value. split; [done |]. split; [done |].
    by apply bool_decide_eq_false in Hc0.
Qed.

Lemma exec_assign_other (c : Rule) (d : Attrs) (k : string) :
  (exists p value,
     lvalue_target (lvalue c) = Some p /\
     expression py_eval (rvalue c) = Some value /\ p <> k) ->
  exec_assign py_eval c d !! k = d !! k.
Proof.
  intros (p & value & Hp & Hvalue & Hk). unfold exec_assign.
  rewrite Hp, Hvalue. destruct (value d); [| done].
  by apply lookup_insert_ne.
Qed.

Lemma fires_live (c : Rule) (new_status : Attrs) :
  fires c new_status = true ->
  truthy_str (lvalue c) && truthy_str (rvalue c) = true.
Proof. unfold fires. by intros [H _]%andb_true_iff. Qed.

(** A key no rule may assign keeps what it had, in the store and in the
    delta. *)
Lemma derive_other (rules : list Rule) (attrs new_status : Attrs) (k : string) :
  assigned py_eval rules k = false ->
  fst (derive py_eval rules attrs new_status) !! k = attrs !! k /\
  snd (derive py_eval rules attrs new_status) !! k = new_status !! k.
Proof.
  intros Hk. pose proof (assigned_false rules k Hk) as Hrules. clear Hk.
  unfold derive. revert attrs new_status.
  induction rules as [|c rules IH]; intros attrs new_status; simpl; [done |].
  assert (forall c', c' ∈ rules ->
            truthy_str (lvalue c') && truthy_str (rvalue c') = true ->
            exists p value,
              lvalue_target (lvalue c') = Some p /\
              expression py_eval (rvalue c') = Some value /\ p <> k) as Hr
    by (intros c' Hin; apply Hrules; by right).
  unfold apply_rule at 2 4. simpl.
  destruct (fires c new_status) eqn:Hfires.
  - destruct (IH Hr (exec_assign py_eval c attrs) (exec_assign py_eval c new_status))
      as [-> ->].
    assert (exists p value,
              lvalue_target (lvalue c) = Some p /\
              expression py_eval (rvalue c) = Some value /\ p <> k) as Hc.
    { apply Hrules; [by left | by apply fires_live with new_status]. }
    by rewrite !exec_assign_other.
  - by apply IH.
Qed.

End MergeFacts.

(** ** Stepping through a run *)

Section Steps.

Context {W : Type}.

Lemma run_eta {A} (r : Run W A) :
  mkRun (outcome r) (final r) (world r) (emitted r) = r.
Proof. by destruct r. Qed.

Lemma bind_ret {A B} (x : A) (k : A -> M W B) (a : Attrs) (w : W) :
  bind (ret x) k a w = k x a w.
Proof. unfold bind, ret. simpl. apply run_eta. Qed.

Lemma bind_raise {A B} (e : Exn) (k : A -> M W B) (a : Attrs) (w : W) :
  bind (raise e) k a w = mkRun (inl e) a w [].
Proof. done. Qed.

Lemma bind_get {B} (k : Attrs -> M W B) (a : Attrs) (w : W) :
  bind get_attributes k a w = k a a w.
Proof. unfold bind, get_attributes. simpl. apply run_eta. Qed.

Lemma bind_store {B} (key : string) (v : Value) (k : unit -> M W B)
    (a : Attrs) (w : W) :
  bind (store_attr key v) k a w = k tt (<[key := v]> a) w.
Proof. unfold bind, store_attr. simpl. apply run_eta. Qed.

Lemma bind_put {B} (a' : Attrs) (k : unit -> M W B) (a : Attrs) (w : W) :
  bind (put_attributes a') k a w = k tt a' w.
Proof. unfold bind, put_attributes. simpl. apply run_eta. Qed.

Lemma bind_emit {B} (e : Event) (k : unit -> M W B) (a : Attrs) (w : W) :
  bind (emit e) k a w =
    mkRun (outcome (k tt a w)) (final (k tt a w)) (world (k tt a w))
      (e :: emitted (k tt a w)).
Proof. done. Qed.

Lemma bind_call {A B} (e : Event) (f : W -> (Exn + A) * W) (k : A -> M W B)
    (a : Attrs) (w : W) :
  bind (call e f) k a w =
    match f w with
    | (inl ex, w') => mkRun (inl ex) a w' [e]
    | (inr x, w') =>
        mkRun (outcome (k x a w')) (final (k x a w')) (world (k x a w'))
          (e :: emitted (k x a w'))
    end.
Proof. unfold bind, call. by destruct (f w) as [[ex|x] w']. Qed.

Lemma bind_bind {A B C} (m : M W A) (k : A -> M W B) (h : B -> M W C)
    (a : Attrs) (w : W) :
  bind (bind m k) h a w = bind m (fun x => bind (k x) h) a w.
Proof.
  unfold bind. destruct (m a w) as [[e|x] a1 w1 ev1]; simpl; [done |].
  destruct (k x a1 w1) as [[e|y] a2 w2 ev2]; simpl; [done |].
  by rewrite app_assoc.
Qed.

(** The run of a sequence, from the run of its first part. *)
Lemma bind_run {A B} (m : M W A) (k : A -> M W B) (a : Attrs) (w : W) :
  bind m k a w =
    match outcome (m a w) with
    | inl e => mkRun (inl e) (final (m a w)) (world (m a w)) (emitted (m a w))
    | inr x =>
        let r := k x (final (m a w)) (world (m a w)) in
        mkRun (outcome r) (final r) (world r) (emitted (m a w) ++ emitted r)
    end.
Proof. done. Qed.

Lemma for_each_emit (f : nat -> Event) (l : list nat) (a : Attrs) (w : W) :
  for_each l (fun u => emit (f u)) a w = mkRun (inr tt) a w (map f l).
Proof.
  induction l as [|u l IH]; [done |].
  simpl. rewrite bind_emit. by rewrite IH.
Qed.

End Steps.

(** ** Runs of the merge *)

Section Runs.

Context {W : Type} (E : Env W) (cfg : Config).

(** What a run of the merge tells its subscribers: nothing when the two
    staging loops left [new_status] empty, else the delta as the rules left
    it. *)
Definition notifications (new_status delta : Attrs) : list Event :=
  if bool_decide (new_status = ∅) then []
  else map (fun update => Notify update delta) (updates cfg).

(** The whole run of [_parse_cloud_message], in closed form. *)
Lemma parse_cloud_message_run (status : Attrs) (update : bool) (a : Attrs) (w : W) :
  _parse_cloud_message E cfg status update a w =
    mkRun (inr SUCCESS) (fst (merge (py_eval E) cfg a status)) w
      (Merge status update ::
         if update
         then notifications (staged a (default_values cfg) status)
                (snd (merge (py_eval E) cfg a status))
         else []).
Proof.
  unfold _parse_cloud_message, _update_all, notifications, merge.
  rewrite bind_emit, bind_get.
  case_bool_decide as He.
  - rewrite bind_ret. simpl. by destruct update.
  - rewrite bind_bind, bind_put. destruct update.
    + rewrite bind_run, (for_each_emit (fun u => Notify u _)). simpl.
      by rewrite app_nil_r.
    + by rewrite bind_ret.
Qed.

End Runs.

(** ** What one merge does *)

Lemma differs_false (attrs : Attrs) (k : string) (v : Value) :
  differs attrs k v = false <->
  exists old, attrs !! k = Some old /\ value_eq old v = true.
Proof.
  unfold differs, value_ne. destruct (attrs !! k) as [old|].
  - rewrite negb_false_iff. split; [intros H; by exists old |].
    by intros (old' & [= <-] & H).
  - split; [done | by intros (old & H & _)].
Qed.

Lemma unset_false (attrs : Attrs) (k : string) :
  unset attrs k = false <-> exists old, attrs !! k = Some old /\ old <> VNone.
Proof.
  unfold unset. destruct (attrs !! k) as [old|].
  - split.
    + intros H. exists old. split; [done |]. by intros ->.
    + intros (old' & [= <-] & H). by destruct old.
  - split; [done | by intros (old & H & _)].
Qed.

Lemma occurs_bracketed_nonempty (s rv : string) :
  occurs (bracketed s) rv -> truthy_str rv = true.
Proof. intros (pre & post & ->). by destruct pre. Qed.

Lemma staged_same_store (a1 a2 defaults status : Attrs) (k : string) :
  a1 !! k = a2 !! k ->
  staged a1 defaults status !! k = staged a2 defaults status !! k.
Proof. intros H. rewrite !staged_lookup. unfold differs, unset. by rewrite H. Qed.

(** An attribute no rule may assign: the merge stages for it what the two
    loops staged and keeps what the store held. *)
Lemma merge_unassigned (py_eval : Python) (cfg : Config) (a status : Attrs)
    (k : string) :
  assigned py_eval (calculate_get cfg) k = false ->
  snd (merge py_eval cfg a status) !! k = staged a (default_values cfg) status !! k /\
  fst (merge py_eval cfg a status) !! k = a !! k.
Proof.
  intros Hk. unfold merge. case_bool_decide as He; [done |].
  by apply and_comm, derive_other.
Qed.

Section MergeClaims.

Context {W : Type} (E : Env W) (cfg : Config).

(** C10.  [_parse_cloud_message] returns [SUCCESS] for every status, with or
    without notification, and no run of [_send_message] reaches the branch
    that logs the [ERROR] result. *)
Theorem parse_cloud_message_always_success (status a : Attrs) (update : bool)
    (data : list Z) (w : W) :
  outcome (_parse_cloud_message E cfg status update a w) = inr SUCCESS /\
  Forall (fun e => e <> LogErrorReceived) (emitted (_send_message E cfg data a w)).
Proof.
  split; [by rewrite parse_cloud_message_run |].
  assert (Forall (fun e => e <> LogErrorReceived)
            (emitted (relay_command E cfg data a w))) as Hrelay.
  { unfold relay_command. rewrite bind_call.
    destruct (send_cloud E data w) as [[ex|reply] w1]; simpl;
      [by repeat constructor |].
    constructor; [done |].
    destruct (truthy_text reply) as [text|]; [| by constructor].
    destruct (has_lua_runtime cfg); [| by constructor].
    rewrite bind_call. destruct (decode_reply E text w1) as [[ex|dec] w2]; simpl;
      [by repeat constructor |].
    constructor; [done |].
    destruct (truthy_status dec) as [st|]; [| by constructor].
    rewrite bind_run, parse_cloud_message_run. simpl. by repeat constructor. }
  unfold _send_message. destruct (cloud cfg); [by constructor | done..].
Qed.

End MergeClaims.

(** ** Which calls change the store *)

(** The store a trace accounts for: the merges it records, applied in order
    to the store the run started from. *)
Fixpoint replay (py_eval : Python) (cfg : Config)
    (evs : list Event) (a : Attrs) : Attrs :=
  match evs with
  | [] => a
  | Merge status _ :: rest => replay py_eval cfg rest (fst (merge py_eval cfg a status))
  | _ :: rest => replay py_eval cfg rest a
  end.

Definition is_merge (e : Event) : bool :=
  match e with Merge _ _ => true | _ => false end.

Lemma replay_app py_eval cfg (evs1 evs2 : list Event) (a : Attrs) :
  replay py_eval cfg (evs1 ++ evs2) a =
    replay py_eval cfg evs2 (replay py_eval cfg evs1 a).
Proof.
  revert a. induction evs1 as [|e evs1 IH]; intros a; [done |].
  destruct e; simpl; apply IH.
Qed.

Lemma replay_no_merge py_eval cfg (evs : list Event) (a : Attrs) :
  forallb (fun e => negb (is_merge e)) evs = true -> replay py_eval cfg evs a = a.
Proof.
  induction evs as [|e evs IH]; [done |].
  simpl. intros [He Hr]%andb_true_iff. destruct e; try done; by apply IH.
Qed.

Section OnlyMerges.

Context {W : Type} (E : Env W) (cfg : Config).

(** Every run of [m] ends with the store its merges account for. *)
Definition only_merges {A} (m : M W A) : Prop :=
  forall a w, final (m a w) = replay (py_eval E) cfg (emitted (m a w)) a.

Lemma only_merges_ret {A} (x : A) : only_merges (ret x).
Proof. done. Qed.

Lemma only_merges_raise {A} (e : Exn) : only_merges (@raise W A e).
Proof. done. Qed.

Lemma only_merges_get : only_merges get_attributes.
Proof. done. Qed.

Lemma only_merges_emit (e : Event) : is_merge e = false -> only_merges (emit e).
Proof. intros He a w. by destruct e. Qed.

Lemma only_merges_call {A} (e : Event) (f : W -> (Exn + A) * W) :
  is_merge e = false -> only_merges (call e f).
Proof. intros He a w. unfold call. destruct (f w). by destruct e. Qed.

Lemma only_merges_bind {A B} (m : M W A) (k : A -> M W B) :
  only_merges m -> (forall x, only_merges (k x)) -> only_merges (bind m k).
Proof.
  intros Hm Hk a w. rewrite bind_run. specialize (Hm a w).
  destruct (outcome (m a w)) as [e|x]; simpl; [done |].
  by rewrite replay_app, <- Hm, <- Hk.
Qed.

Lemma only_merges_try {A} (m : M W A) (h : Exn -> M W A) :
  only_merges m -> (forall e, only_merges (h e)) -> only_merges (try_except m h).
Proof.
  intros Hm Hh a w. unfold try_except. specialize (Hm a w).
  destruct (outcome (m a w)) as [e|x]; simpl; [| done].
  by rewrite replay_app, <- Hm, <- Hh.
Qed.

Lemma only_merges_for_each {A} (l : list A) (body : A -> M W unit) :
  (forall x, only_merges (body x)) -> only_merges (for_each l body).
Proof.
  intros Hb. induction l as [|x l IH]; [done |].
  simpl. by apply only_merges_bind.
Qed.

Lemma only_merges_parse (status : Attrs) (update : bool) :
  only_merges (_parse_cloud_message E cfg status update).
Proof.
  intros a w. rewrite parse_cloud_message_run. simpl.
  symmetry. apply replay_no_merge.
  destruct update; [| done]. unfold notifications.
  case_bool_decide; [done |]. by induction (updates cfg).
Qed.

(** One step of a proof that a method leaves the store to its merges. *)
Ltac only_merges_step :=
  first
    [ apply only_merges_ret
    | apply only_merges_raise
    | apply only_merges_get
    | apply only_merges_parse
    | apply only_merges_call; reflexivity
    | apply only_merges_emit; reflexivity
    | apply only_merges_bind; [| intros ?]
    | apply only_merges_try; [| intros ?]
    | match goal with
      | |- only_merges (match ?x with _ => _ end) => destruct x
      end ].

Lemma only_merges_relay_command (data : list Z) :
  only_merges (relay_command E cfg data).
Proof. unfold relay_command. repeat only_merges_step. Qed.

Lemma only_merges_send_message (data : list Z) :
  only_merges (_send_message E cfg data).
Proof.
  unfold _send_message.
  destruct (cloud cfg); first [apply only_merges_raise | apply only_merges_relay_command].
Qed.

Lemma only_merges_build_send (cmd : string) : only_merges (_build_send E cfg cmd).
Proof.
  unfold _build_send.
  destruct (fromhex cmd); [apply only_merges_send_message | apply only_merges_raise].
Qed.

Lemma only_merges_query_status (q : Query) : only_merges (query_status E cfg q).
Proof.
  assert (only_merges (relay_status E cfg q)) as Hrelay.
  { unfold relay_status.
    repeat first [apply only_merges_build_send | only_merges_step]. }
  unfold query_status. destruct (cloud cfg); first [done | apply only_merges_ret].
Qed.

Lemma only_merges_convert (new_status : list (string * Value)) :
  only_merges (@convert_to_nested W new_status).
Proof. unfold convert_to_nested. repeat only_merges_step. Qed.

Lemma only_merges_send_control (nested : Nested) :
  only_merges (send_control E cfg nested).
Proof.
  unfold send_control, codec_control, cloud_control.
  repeat first [apply only_merges_build_send | only_merges_step].
Qed.

Section OtherTypes.

Hypothesis Htype : device_type cfg <> 217.

Lemma other_type : (device_type cfg =? 217) = false.
Proof. by apply Z.eqb_neq. Qed.

Lemma only_merges_refresh_query (q : Query) : only_merges (refresh_query E cfg q).
Proof.
  unfold refresh_query. apply only_merges_bind.
  - unfold derive_query. rewrite other_type. destruct q; apply only_merges_ret.
  - apply only_merges_query_status.
Qed.

Lemma only_merges_refresh_status : only_merges (refresh_status E cfg).
Proof. apply only_merges_for_each, only_merges_refresh_query. Qed.

Lemma only_merges_set_attribute (attribute : string) (value : Value) :
  only_merges (set_attribute E cfg attribute value).
Proof.
  unfold set_attribute. apply only_merges_bind; [apply only_merges_get |].
  intros attrs. case_bool_decide; [| apply only_merges_ret].
  apply only_merges_bind.
  - unfold new_control_status. rewrite other_type.
    apply only_merges_bind; [apply only_merges_get | intros; apply only_merges_ret].
  - intros ns. apply only_merges_bind; [apply only_merges_convert |].
    apply only_merges_send_control.
Qed.

Lemma only_merges_set_attributes (requested : list (string * Value)) :
  only_merges (set_attributes E cfg requested).
Proof.
  unfold set_attributes. apply only_merges_bind.
  - unfold new_controls_status. rewrite other_type.
    apply only_merges_bind; [apply only_merges_get |].
    intros attrs. apply only_merges_bind; [apply only_merges_ret |].
    intros; apply only_merges_ret.
  - intros [ns has_new]. apply only_merges_bind; [apply only_merges_convert |].
    intros nested. destruct has_new;
      [apply only_merges_send_control | apply only_merges_ret].
Qed.

End OtherTypes.

(** C4, as amended.  On a device of a type other than 0xD9, [set_attribute],
    [set_attributes] and [refresh_status] change the store through merges of
    reported status only: the store each of them ends with is the one its
    merges account for.  (Type 0xD9 is left out: there the three methods also
    write the location attributes themselves.) *)
Theorem store_changes_only_by_merges (attribute : string) (value : Value)
    (requested : list (string * Value)) (a : Attrs) (w : W) :
  device_type cfg <> 217 ->
  final (set_attribute E cfg attribute value a w) =
    replay (py_eval E) cfg (emitted (set_attribute E cfg attribute value a w)) a /\
  final (set_attributes E cfg requested a w) =
    replay (py_eval E) cfg (emitted (set_attributes E cfg requested a w)) a /\
  final (refresh_status E cfg a w) =
    replay (py_eval E) cfg (emitted (refresh_status E cfg a w)) a.
Proof.
  intros Htype. split; [| split].
  - by apply only_merges_set_attribute.
  - by apply only_merges_set_attributes.
  - by apply only_merges_refresh_status.
Qed.

End OnlyMerges.

(** ** Refresh and control *)

Section Control.

Context {W : Type} (E : Env W) (cfg : Config).

(** The run [r], told after the calls [evs]. *)
Definition after {A} (evs : list Event) (r : Run W A) : Run W A :=
  mkRun (outcome r) (final r) (world r) (evs ++ emitted r).

Lemma after_nil {A} (r : Run W A) : after [] r = r.
Proof. apply run_eta. Qed.

Lemma after_after {A} (evs1 evs2 : list Event) (r : Run W A) :
  after evs1 (after evs2 r) = after (evs1 ++ evs2) r.
Proof. unfold after. simpl. by rewrite app_assoc. Qed.

Lemma bind_after {A B} (m : M W A) (k : A -> M W B) (a a1 : Attrs) (w w1 : W)
    (x : A) (evs : list Event) :
  m a w = mkRun (inr x) a1 w1 evs -> bind m k a w = after evs (k x a1 w1).
Proof. intros H. rewrite bind_run, H. done. Qed.

Lemma bind_failed {A B} (m : M W A) (k : A -> M W B) (a a1 : Attrs) (w w1 : W)
    (e : Exn) (evs : list Event) :
  m a w = mkRun (inl e) a1 w1 evs -> bind m k a w = mkRun (inl e) a1 w1 evs.
Proof. intros H. rewrite bind_run, H. done. Qed.

(** Deriving the query calls nobody and never raises. *)
Lemma derive_query_quiet (q : Query) (a : Attrs) (w : W) :
  exists q' a', derive_query cfg q a w = mkRun (inr q') a' w [].
Proof.
  unfold derive_query. destruct q as [d|t]; [| by eexists _, _].
  destruct (device_type cfg =? 217); [| by eexists _, _].
  rewrite bind_get.
  destruct (value_eq (get_default a "db_position" (VInt 1)) (VInt 1));
    [by eexists _, _ |].
  destruct (value_eq (get_default a "db_position" (VInt 1)) (VInt 0));
    [| by eexists _, _].
  rewrite bind_store. by eexists _, _.
Qed.

Definition relay_attached : Prop :=
  cloud cfg = MSmartHomeCloud \/ cloud cfg = MeijuCloud.

Lemma query_status_relay (q : Query) :
  relay_attached -> query_status E cfg q = relay_status E cfg q.
Proof. unfold query_status. by intros [-> | ->]. Qed.

Lemma cloud_control_relay (nested : Nested) (a : Attrs) (w : W) :
  relay_attached ->
  cloud_control E cfg nested a w =
    call (CloudSendControl (cloud cfg) nested a)
         (send_device_control E (cloud cfg) nested a) a w.
Proof.
  unfold cloud_control. intros [-> | ->]; by rewrite bind_get.
Qed.

Lemma send_message_relay (data : list Z) (a : Attrs) (w : W) :
  relay_attached ->
  exists rest, emitted (_send_message E cfg data a w) = CloudSend data :: rest.
Proof.
  unfold _send_message, relay_command.
  intros [-> | ->]; rewrite bind_call;
    destruct (send_cloud E data w) as [[ex|reply] w1]; simpl; by eexists.
Qed.

(** A failed send leaves the store as it found it. *)
Lemma build_send_failed (cmd : string) (a : Attrs) (w : W) (e : Exn) :
  outcome (_build_send E cfg cmd a w) = inl e ->
  final (_build_send E cfg cmd a w) = a.
Proof.
  unfold _build_send. destruct (fromhex cmd) as [data|]; [| done].
  assert (outcome (relay_command E cfg data a w) = inl e ->
          final (relay_command E cfg data a w) = a) as Hrelay.
  { unfold relay_command. rewrite bind_call.
    destruct (send_cloud E data w) as [[ex|reply] w1]; simpl; [done |].
    destruct (truthy_text reply) as [text|]; [| done].
    destruct (has_lua_runtime cfg); [| done].
    rewrite bind_call. destruct (decode_reply E text w1) as [[ex|dec] w2]; simpl;
      [done |].
    destruct (truthy_status dec) as [st|]; [| done].
    by rewrite bind_run, parse_cloud_message_run. }
  unfold _send_message. by destruct (cloud cfg).
Qed.

Lemma codec_control_failed (nested : Nested) (a : Attrs) (w : W) (e : Exn) :
  outcome (codec_control E cfg nested a w) = inl e ->
  final (codec_control E cfg nested a w) = a.
Proof.
  unfold codec_control. rewrite bind_get, bind_call.
  destruct (build_control E nested a w) as [[ex|cmd] w1]; simpl; [done |].
  destruct (truthy_text cmd) as [text|]; [| done].
  rewrite bind_run.
  destruct (outcome (_build_send E cfg text a w1)) as [ex|[]] eqn:Hout; simpl.
  - intros _. by apply build_send_failed with ex.
  - done.
Qed.

Lemma set_attribute_known (attribute : string) (value old : Value)
    (a a1 : Attrs) (w w1 : W) (new_status : list (string * Value))
    (nested : Nested) (evs : list Event) :
  a !! attribute = Some old ->
  new_control_status E cfg attribute value a w = mkRun (inr new_status) a1 w1 evs ->
  _convert_to_nested_structure new_status = Some nested ->
  set_attribute E cfg attribute value a w =
    after evs (send_control E cfg nested a1 w1).
Proof.
  intros Ha Hnew Hnested. unfold set_attribute. rewrite bind_get.
  rewrite bool_decide_eq_true_2 by eauto.
  rewrite (bind_after _ _ _ _ _ _ _ _ Hnew). f_equal.
  unfold convert_to_nested. rewrite Hnested. apply bind_ret.
Qed.

(** The loop over two lists of queries, one after the other. *)
Lemma for_each_app {A} (l1 l2 : list A) (body : A -> M W unit) (a : Attrs) (w : W) :
  for_each (l1 ++ l2) body a w =
    bind (for_each l1 body) (fun _ => for_each l2 body) a w.
Proof.
  revert a w. induction l1 as [|x l1 IH]; intros a w; simpl.
  - by rewrite bind_ret.
  - rewrite bind_bind, !(bind_run (body x)).
    destruct (outcome (body x a w)); [done |]. by rewrite IH.
Qed.

(** [refresh_status] at one of its queries: when the queries before it were
    refreshed without an exception, the loop goes on with that query from the
    store and the world they left, and with the queries after it. *)
Lemma refresh_status_at (pre post : list Query) (q : Query) (a a0 : Attrs) (w w0 : W)
    (evs : list Event) :
  queries cfg = pre ++ q :: post ->
  for_each pre (refresh_query E cfg) a w = mkRun (inr tt) a0 w0 evs ->
  refresh_status E cfg a w =
    after evs (bind (refresh_query E cfg q)
                 (fun _ => for_each post (refresh_query E cfg)) a0 w0).
Proof.
  intros Hq Hpre. unfold refresh_status.
  by rewrite Hq, for_each_app, (bind_after _ _ _ _ _ _ _ _ Hpre).
Qed.

(** C3.  The fallback chain.  In [refresh_status], at every configured query
    the loop comes to (each one, as long as no call raises): when the cloud
    relay answers the derived query with no data and a codec is loaded, the
    session asks the codec to build a query from the derived query and, when
    a command comes back, sends it, and then goes on with the queries that
    follow.  In [set_attribute], for an attribute of the store: when no codec
    is loaded, or the codec builds nothing, the session calls the cloud
    relay's [send_device_control] with the nested payload and the store as
    the status. *)
Theorem fallback_chain :
  relay_attached ->
  (forall pre q post a w a0 w0 evs q' a' st w1 qc w2,
     queries cfg = pre ++ q :: post ->
     for_each pre (refresh_query E cfg) a w = mkRun (inr tt) a0 w0 evs ->
     has_lua_runtime cfg = true ->
     derive_query cfg q a0 w0 = mkRun (inr q') a' w0 [] ->
     get_device_status E (cloud cfg) q' w0 = (inr st, w1) ->
     truthy_status st = None ->
     build_query E q' w1 = (inr qc, w2) ->
     refresh_status E cfg a w =
       after (evs ++ [CloudGetStatus (cloud cfg) q'; CodecBuildQuery q'])
         (bind (match truthy_text qc with
                | Some cmd => _build_send E cfg cmd
                | None => ret tt
                end)
               (fun _ => for_each post (refresh_query E cfg)) a' w2) /\
     forall cmd data, truthy_text qc = Some cmd -> fromhex cmd = Some data ->
       exists rest,
         emitted (refresh_status E cfg a w) =
           evs ++ [CloudGetStatus (cloud cfg) q'; CodecBuildQuery q'; CloudSend data]
               ++ rest) /\
  (forall attribute value old a a1 w w1 new_status nested evs,
     a !! attribute = Some old ->
     new_control_status E cfg attribute value a w = mkRun (inr new_status) a1 w1 evs ->
     _convert_to_nested_structure new_status = Some nested ->
     (has_lua_runtime cfg = false ->
        set_attribute E cfg attribute value a w =
          after evs
            (call (CloudSendControl (cloud cfg) nested a1)
                  (send_device_control E (cloud cfg) nested a1) a1 w1)) /\
     (forall built w2,
        has_lua_runtime cfg = true ->
        build_control E nested a1 w1 = (inr built, w2) ->
        truthy_text built = None ->
        set_attribute E cfg attribute value a w =
          after (evs ++ [CodecBuildControl nested a1])
            (call (CloudSendControl (cloud cfg) nested a1)
                  (send_device_control E (cloud cfg) nested a1) a1 w2))).
Proof.
  intros Hrelay. split.
  - intros pre q post a w a0 w0 evs q' a' st w1 qc w2 Hqs Hpre Hlua Hq Hst Hnone Hqc.
    assert (refresh_status E cfg a w =
              after (evs ++ [CloudGetStatus (cloud cfg) q'; CodecBuildQuery q'])
                (bind (match truthy_text qc with
                       | Some cmd => _build_send E cfg cmd
                       | None => ret tt
                       end)
                      (fun _ => for_each post (refresh_query E cfg)) a' w2)) as Hrun.
    { rewrite (refresh_status_at pre post q a a0 w w0 evs Hqs Hpre).
      rewrite <- after_after. f_equal.
      unfold refresh_query. rewrite bind_bind.
      rewrite (bind_after _ _ _ _ _ _ _ _ Hq), after_nil.
      rewrite query_status_relay by done. unfold relay_status.
      rewrite bind_bind, bind_call, Hst, Hnone, Hlua.
      rewrite bind_bind, bind_call, Hqc.
      unfold after. simpl. by destruct (truthy_text qc). }
    split; [done |]. intros cmd data Hcmd Hdata. rewrite Hrun, Hcmd.
    rewrite bind_run. unfold _build_send. rewrite Hdata.
    destruct (send_message_relay data a' w2 Hrelay) as [rest Hrest].
    destruct (outcome (_send_message E cfg data a' w2)); simpl;
      rewrite Hrest, <- !app_assoc; simpl; by eexists.
  - intros attribute value old a a1 w w1 new_status nested evs Ha Hnew Hnested.
    rewrite (set_attribute_known _ _ _ _ _ _ _ _ _ _ Ha Hnew Hnested).
    unfold send_control. split.
    + intros ->. rewrite bind_ret. by rewrite cloud_control_relay.
    + intros built w2 -> Hbuilt Hnone.
      assert (try_except (codec_control E cfg nested) (fun _ => ret false) a1 w1 =
                mkRun (inr false) a1 w2 [CodecBuildControl nested a1]) as Htry.
      { unfold try_except, codec_control.
        by rewrite bind_get, bind_call, Hbuilt, Hnone. }
      rewrite (bind_after _ _ _ _ _ _ _ _ Htry), after_after.
      by rewrite cloud_control_relay.
Qed.

Lemma set_attributes_known (requested new_status : list (string * Value))
    (a a1 : Attrs) (w w1 : W) (nested : Nested) (evs : list Event) :
  new_controls_status E cfg requested a w = mkRun (inr (new_status, true)) a1 w1 evs ->
  _convert_to_nested_structure new_status = Some nested ->
  set_attributes E cfg requested a w =
    after evs (send_control E cfg nested a1 w1).
Proof.
  intros Hnew Hnested. unfold set_attributes.
  rewrite (bind_after _ _ _ _ _ _ _ _ Hnew). f_equal.
  unfold convert_to_nested. simpl. rewrite Hnested. apply bind_ret.
Qed.

(** C5, as amended.  An exception raised while the codec builds a control
    command, or while the command it built is sent, is caught: the store is as
    it was before the attempt and the setter, [set_attribute] or
    [set_attributes], goes on to the cloud relay, whose outcome is the
    setter's.  An exception raised by the cloud relay's status call is not
    caught: it ends the refresh of that query and reaches the caller of
    [refresh_status]. *)
Theorem codec_failure_absorbed_relay_failure_raised :
  (forall nested a w e,
     has_lua_runtime cfg = true ->
     outcome (codec_control E cfg nested a w) = inl e ->
     final (codec_control E cfg nested a w) = a /\
     send_control E cfg nested a w =
       after (emitted (codec_control E cfg nested a w))
         (cloud_control E cfg nested a (world (codec_control E cfg nested a w))) /\
     (forall attribute value old a0 w0 new_status evs,
        a0 !! attribute = Some old ->
        new_control_status E cfg attribute value a0 w0 = mkRun (inr new_status) a w evs ->
        _convert_to_nested_structure new_status = Some nested ->
        set_attribute E cfg attribute value a0 w0 =
          after (evs ++ emitted (codec_control E cfg nested a w))
            (cloud_control E cfg nested a (world (codec_control E cfg nested a w)))) /\
     (forall requested a0 w0 new_status evs,
        new_controls_status E cfg requested a0 w0 =
          mkRun (inr (new_status, true)) a w evs ->
        _convert_to_nested_structure new_status = Some nested ->
        set_attributes E cfg requested a0 w0 =
          after (evs ++ emitted (codec_control E cfg nested a w))
            (cloud_control E cfg nested a (world (codec_control E cfg nested a w))))) /\
  (forall q q' a a' w e w1,
     relay_attached ->
     derive_query cfg q a w = mkRun (inr q') a' w [] ->
     get_device_status E (cloud cfg) q' w = (inl e, w1) ->
     refresh_query E cfg q a w = mkRun (inl e) a' w1 [CloudGetStatus (cloud cfg) q'] /\
     forall rest,
       outcome (for_each (q :: rest) (refresh_query E cfg) a w) = inl e).
Proof.
  split.
  - intros nested a w e Hlua Hout.
    pose proof (codec_control_failed nested a w e Hout) as Hfinal.
    assert (send_control E cfg nested a w =
              after (emitted (codec_control E cfg nested a w))
                (cloud_control E cfg nested a
                   (world (codec_control E cfg nested a w)))) as Hsend.
    { unfold send_control. rewrite Hlua.
      destruct (codec_control E cfg nested a w) as [o a1 w1 evs] eqn:Hc.
      simpl in *. subst o a1.
      assert (try_except (codec_control E cfg nested) (fun _ => ret false) a w =
                mkRun (inr false) a w1 evs) as Htry.
      { unfold try_except. rewrite Hc. simpl. by rewrite app_nil_r. }
      by rewrite (bind_after _ _ _ _ _ _ _ _ Htry). }
    split; [done |]. split; [done |]. split.
    + intros attribute value old a0 w0 new_status evs Ha Hnew Hnested.
      rewrite (set_attribute_known _ _ _ _ _ _ _ _ _ _ Ha Hnew Hnested).
      by rewrite Hsend, after_after.
    + intros requested a0 w0 new_status evs Hnew Hnested.
      rewrite (set_attributes_known _ _ _ _ _ _ _ _ Hnew Hnested).
      by rewrite Hsend, after_after.
  - intros q q' a a' w e w1 Hrelay Hq Hst.
    assert (refresh_query E cfg q a w =
              mkRun (inl e) a' w1 [CloudGetStatus (cloud cfg) q']) as Hrun.
    { unfold refresh_query. rewrite (bind_after _ _ _ _ _ _ _ _ Hq), after_nil.
      rewrite query_status_relay by done. unfold relay_status.
      by rewrite bind_call, Hst. }
    split; [done |]. intros rest. simpl. by rewrite bind_run, Hrun.
Qed.

(** A name that is not in the store: [set_attribute] does nothing at all. *)
Lemma set_attribute_unknown (attribute : string) (value : Value) (a : Attrs) (w : W) :
  a !! attribute = None ->
  set_attribute E cfg attribute value a w = mkRun (inr tt) a w [].
Proof.
  intros Ha. unfold set_attribute. rewrite bind_get, Ha.
  rewrite bool_decide_eq_false_2; [done |]. by intros [? ?].
Qed.

Lemma stage_known_unknown (a : Attrs) (requested : list (string * Value))
    (acc : list (string * Value) * bool) :
  Forall (fun kv => a !! fst kv = None) requested ->
  stage_known a requested acc = acc.
Proof.
  induction 1 as [|[k v] rest Hk _ IH]; [done |].
  simpl in *. rewrite Hk. rewrite bool_decide_eq_false_2; [done |]. by intros [? ?].
Qed.

(** Names that are not in the store, on a device of a type other than 0xD9:
    [set_attributes] calls nobody and leaves the store as it was; it raises
    only when the centralized attributes themselves do not nest. *)
Lemma set_attributes_unknown (requested : list (string * Value)) (a : Attrs) (w : W) :
  device_type cfg <> 217 ->
  Forall (fun kv => a !! fst kv = None) requested ->
  set_attributes E cfg requested a w =
    mkRun (match _convert_to_nested_structure (centralized_status cfg a) with
           | Some _ => inr tt
           | None => inl TypeError
           end) a w [].
Proof.
  intros Htype Hunknown. unfold set_attributes, new_controls_status.
  apply Z.eqb_neq in Htype. rewrite Htype.
  rewrite bind_bind, bind_get, stage_known_unknown by done.
  rewrite bind_bind, !bind_ret. simpl. unfold convert_to_nested.
  destruct (_convert_to_nested_structure (centralized_status cfg a));
    [by rewrite bind_ret | done].
Qed.

(** C9.  In [refresh_status] on a device of type 0xD9, at every [dict]
    query the loop comes to: with position 0 and location 1 in the store, the
    query that goes on to the relay and the codec carries location 2 and the
    store gets the selection label [right] before anybody is asked; with
    position 1 the query carries the stored location and the store is left as
    it was.  With a relay attached, the derived query is the one the relay is
    asked at that point of the run. *)
Theorem dual_chamber_query (pre post : list Query) (d a a0 : Attrs) (w w0 : W)
    (evs : list Event) :
  device_type cfg = 217 ->
  queries cfg = pre ++ QDict d :: post ->
  for_each pre (refresh_query E cfg) a w = mkRun (inr tt) a0 w0 evs ->
  (a0 !! "db_position" = Some (VInt 0) -> a0 !! "db_location" = Some (VInt 1) ->
     refresh_status E cfg a w =
       after evs
         (bind (query_status E cfg (QDict (<["db_location" := VInt 2]> d)))
               (fun _ => for_each post (refresh_query E cfg))
               (<["db_location_selection" := VStr "right"]> a0) w0) /\
     (relay_attached ->
      exists rest,
        emitted (refresh_status E cfg a w) =
          evs ++ CloudGetStatus (cloud cfg) (QDict (<["db_location" := VInt 2]> d))
              :: rest)) /\
  (forall location,
     a0 !! "db_position" = Some (VInt 1) -> a0 !! "db_location" = Some location ->
     refresh_status E cfg a w =
       after evs
         (bind (query_status E cfg (QDict (<["db_location" := location]> d)))
               (fun _ => for_each post (refresh_query E cfg)) a0 w0) /\
     (relay_attached ->
      exists rest,
        emitted (refresh_status E cfg a w) =
          evs ++ CloudGetStatus (cloud cfg) (QDict (<["db_location" := location]> d))
              :: rest)).
Proof.
  intros Htype Hqs Hpre.
  assert (forall q' a',
            derive_query cfg (QDict d) a0 w0 = mkRun (inr q') a' w0 [] ->
            refresh_status E cfg a w =
              after evs (bind (query_status E cfg q')
                           (fun _ => for_each post (refresh_query E cfg)) a' w0) /\
            (relay_attached ->
             exists rest,
               emitted (refresh_status E cfg a w) =
                 evs ++ CloudGetStatus (cloud cfg) q' :: rest)) as Hasked.
  { intros q' a' Hq.
    assert (refresh_status E cfg a w =
              after evs (bind (query_status E cfg q')
                           (fun _ => for_each post (refresh_query E cfg)) a' w0))
      as Hrun.
    { rewrite (refresh_status_at pre post (QDict d) a a0 w w0 evs Hqs Hpre).
      f_equal. unfold refresh_query.
      by rewrite bind_bind, (bind_after _ _ _ _ _ _ _ _ Hq), after_nil. }
    split; [done |]. intros Hrelay. rewrite Hrun.
    rewrite query_status_relay by done. unfold relay_status.
    rewrite bind_bind, bind_call.
    destruct (get_device_status E (cloud cfg) q' w0) as [[ex|st] w1]; simpl;
      by eexists. }
  split.
  - intros Hpos Hloc. apply Hasked.
    unfold derive_query. rewrite Htype. simpl. rewrite bind_get.
    unfold get_default. rewrite Hpos, Hloc. simpl. by rewrite bind_store.
  - intros location Hpos Hloc. apply Hasked.
    unfold derive_query. rewrite Htype. simpl. rewrite bind_get.
    unfold get_default. by rewrite Hpos, Hloc.
Qed.

End Control.

(** * Concrete sessions *)

Module Examples.

(** An air conditioner (type 0xAC) behind the Meiju relay, with a codec, one
    subscriber, one default and the rule [[a] = [b]*2]. *)
Definition ac : Config :=
  {| device_type := 172;
     queries := [QDict ∅];
     centralized := ["power"];
     calculate_get := [mkRule "[a]" "[b]*2"];
     default_values := {["mode" := VStr "auto"]};
     updates := [0%nat];
     has_lua_runtime := true;
     cloud := MeijuCloud |}.

(** The same session before any subscriber has registered. *)
Definition ac_unobserved : Config :=
  {| device_type := 172;
     queries := [QDict ∅];
     centralized := ["power"];
     calculate_get := [mkRule "[a]" "[b]*2"];
     default_values := {["mode" := VStr "auto"]};
     updates := [];
     has_lua_runtime := true;
     cloud := MeijuCloud |}.

(** The air conditioner with a second query. *)
Definition ac_two : Config :=
  {| device_type := 172;
     queries := [QDict ∅; QDict {["query_type" := VStr "power"]}];
     centralized := ["power"];
     calculate_get := [mkRule "[a]" "[b]*2"];
     default_values := {["mode" := VStr "auto"]};
     updates := [0%nat];
     has_lua_runtime := true;
     cloud := MeijuCloud |}.

(** A session with one rule that reads two attributes, and no default. *)
Definition adder : Config :=
  {| device_type := 172;
     queries := [QDict ∅];
     centralized := [];
     calculate_get := [mkRule "[a]" "[b]+[c]"];
     default_values := ∅;
     updates := [0%nat];
     has_lua_runtime := true;
     cloud := MeijuCloud |}.

Definition ac_store : Attrs :=
  <["power" := VStr "off"]> (init_attributes 172 (VStr "0000AC") (VStr "12345678") (VInt 1)).

(** A dual-chamber washer (type 0xD9) with neither codec nor relay. *)
Definition washer : Config := new_config 217 false NoCloud.

(** The same washer behind the Meiju relay. *)
Definition washer_online : Config := new_config 217 false MeijuCloud.

(** The store of the washer as [__init__] leaves it. *)
Definition washer_new : Attrs :=
  init_attributes 217 (VStr "0000D9") (VStr "87654321") (VInt 1).

Definition washer_store : Attrs :=
  <["db_position" := VInt 0]> (<["db_location" := VInt 1]> washer_new).

(** The codec builds a query and no control command; the relay has no status. *)
Definition query_only : Env unit :=
  {| py_eval := MiniPy.eval;
     get_device_status := fun _ _ w => (inr None, w);
     send_device_control := fun _ _ _ w => (inr tt, w);
     send_cloud := fun _ w => (inr None, w);
     build_query := fun _ w => (inr (Some "aa0f"), w);
     build_control := fun _ _ w => (inr None, w);
     decode_reply := fun _ w => (inr None, w) |}.

(** The codec and the relay's status call raise. *)
Definition failing : Env unit :=
  {| py_eval := MiniPy.eval;
     get_device_status := fun _ _ w => (inl (OtherError "timeout"), w);
     send_device_control := fun _ _ _ w => (inr tt, w);
     send_cloud := fun _ w => (inr None, w);
     build_query := fun _ w => (inl (OtherError "lua"), w);
     build_control := fun _ _ w => (inl (OtherError "lua"), w);
     decode_reply := fun _ w => (inl (OtherError "lua"), w) |}.

End Examples.

Import Examples.

(** The nested form of dotted names, as in the integration's payloads. *)
Example nested_dotted :
  _convert_to_nested_structure [("x.y", VInt 1); ("x.z", VInt 2)] =
    Some (NDict [("x", NDict [("y", NVal (VInt 1)); ("z", NVal (VInt 2))])]).
Proof. reflexivity. Qed.

(** The two statements built for the rule [[a] = [b]*2]. *)
Example calculate_str_doubling :
  calculate_str "self._attributes" "[a]" "[b]*2" =
    "self._attributes[" +:+ quote +:+ "a" +:+ quote +:+ "] = self._attributes["
      +:+ quote +:+ "b" +:+ quote +:+ "]*2" /\
  calculate_str "new_status" "[a]" "[b]*2" =
    "new_status[" +:+ quote +:+ "a" +:+ quote +:+ "] = new_status["
      +:+ quote +:+ "b" +:+ quote +:+ "]*2".
Proof. split; reflexivity. Qed.

(** C3, at a concrete session with two queries: the relay has no status for
    either, so for each in turn the codec's query is built and sent; the codec
    builds no control command, so the relay's [send_device_control] gets the
    nested payload and the store. *)
Lemma fallback_chain_witness :
  (exists rest,
     emitted (refresh_status query_only ac_two ac_store tt) =
       [CloudGetStatus MeijuCloud (QDict ∅); CodecBuildQuery (QDict ∅);
        CloudSend [170; 15]] ++
       [CloudGetStatus MeijuCloud (QDict {["query_type" := VStr "power"]});
        CodecBuildQuery (QDict {["query_type" := VStr "power"]});
        CloudSend [170; 15]] ++ rest) /\
  emitted (set_attribute query_only ac "power" (VStr "on") ac_store tt) =
    [CodecBuildControl (NDict [("power", NVal (VStr "on"))]) ac_store;
     CloudSendControl MeijuCloud (NDict [("power", NVal (VStr "on"))]) ac_store].
Proof.
  split.
  - destruct (fallback_chain query_only ac_two (or_intror eq_refl)) as [Hrefresh _].
    destruct (Hrefresh [QDict ∅] (QDict {["query_type" := VStr "power"]}) []
                ac_store tt ac_store tt
                [CloudGetStatus MeijuCloud (QDict ∅); CodecBuildQuery (QDict ∅);
                 CloudSend [170; 15]]
                (QDict {["query_type" := VStr "power"]}) ac_store None tt
                (Some "aa0f") tt eq_refl eq_refl eq_refl eq_refl eq_refl eq_refl eq_refl)
      as [_ Hsent].
    exact (Hsent "aa0f" [170; 15] eq_refl eq_refl).
  - destruct (fallback_chain query_only ac (or_intror eq_refl)) as [_ Hcontrol].
    destruct (Hcontrol "power" (VStr "on") (VStr "off") ac_store ac_store tt tt
                [("power", VStr "on")] (NDict [("power", NVal (VStr "on"))]) []
                eq_refl eq_refl eq_refl) as [_ Hrun].
    rewrite (Hrun None tt eq_refl eq_refl eq_refl). reflexivity.
Defined.

(** C4, the claim as stated fails: on the washer, setting [db_position] to 0
    flips the stored location although no status was merged. *)
Lemma set_attribute_writes_location :
  ~ (forall (cfg : Config) (attribute : string) (value : Value) (a : Attrs),
       final (set_attribute MiniPy.silent cfg attribute value a tt) =
         replay MiniPy.eval cfg
           (emitted (set_attribute MiniPy.silent cfg attribute value a tt)) a).
Proof.
  intros H.
  specialize (H washer "db_position" (VInt 0) washer_store).
  apply (f_equal (fun m : Attrs => m !! "db_location")) in H.
  vm_compute in H. discriminate H.
Qed.

(** C4, at a concrete session: setting [power] on the air conditioner leaves
    the store to the merges of the run. *)
Lemma store_changes_only_by_merges_witness :
  final (set_attribute query_only ac "power" (VStr "on") ac_store tt) =
    replay MiniPy.eval ac
      (emitted (set_attribute query_only ac "power" (VStr "on") ac_store tt)) ac_store.
Proof.
  destruct (store_changes_only_by_merges query_only ac "power" (VStr "on") []
              ac_store tt) as [H _].
  - by vm_compute.
  - exact H.
Defined.

(** C5, the claim as stated fails: an exception of the relay's status call
    leaves [refresh_status] as an exception. *)
Lemma refresh_status_raises :
  ~ (forall (E : Env unit) (cfg : Config) (a : Attrs),
       exists u, outcome (refresh_status E cfg a tt) = inr u).
Proof.
  intros H. destruct (H failing ac ac_store) as [u Hu].
  vm_compute in Hu. discriminate Hu.
Qed.

(** C5, at a concrete session: the codec raises while [power] is set; the
    setter returns, the store is as it was, and the relay was called.  The
    relay's status call raises; so does the refresh. *)
Lemma codec_failure_absorbed_witness :
  set_attribute failing ac "power" (VStr "on") ac_store tt =
    mkRun (inr tt) ac_store tt
      [CodecBuildControl (NDict [("power", NVal (VStr "on"))]) ac_store;
       CloudSendControl MeijuCloud (NDict [("power", NVal (VStr "on"))]) ac_store] /\
  outcome (refresh_query failing ac (QDict ∅) ac_store tt) = inl (OtherError "timeout").
Proof.
  destruct (codec_failure_absorbed_relay_failure_raised failing ac) as [Hcodec Hrelay].
  split.
  - destruct (Hcodec (NDict [("power", NVal (VStr "on"))]) ac_store tt
                (OtherError "lua") eq_refl eq_refl) as (_ & _ & Hset & _).
    rewrite (Hset "power" (VStr "on") (VStr "off") ac_store tt
               [("power", VStr "on")] [] eq_refl eq_refl eq_refl).
    reflexivity.
  - destruct (Hrelay (QDict ∅) (QDict ∅) ac_store ac_store tt (OtherError "timeout") tt
                (or_intror eq_refl) eq_refl eq_refl) as [Hrun _].
    rewrite Hrun. reflexivity.
Defined.

(** C8, where the code departs from the claim: on the washer, [set_attributes]
    with names that are not in the store writes the store, and with the relay
    attached it also calls the relay. *)
Lemma set_attributes_unknown_names_not_ignored :
  washer_new !! "db_position" = None /\
  washer_new !! "db_location_selection" = None /\
  set_attributes MiniPy.silent washer [("db_position", VInt 0)] washer_new tt =
    mkRun (inr tt)
      (<["db_location_selection" := VStr "right"]>
         (<["db_location" := VInt 2]> washer_new)) tt [] /\
  set_attributes MiniPy.silent washer_online
      [("db_location_selection", VStr "right")] washer_new tt =
    mkRun (inr tt) (<["db_location" := VInt 2]> washer_new) tt
      [CloudGetStatus MeijuCloud (QDict {["db_location" := VInt 2]})].
Proof. by vm_compute. Qed.

(** C9, at concrete stores of the washer behind the relay, whose one query is
    the empty [dict]: position 0 with location 1, and position 1 with
    location 2. *)
Lemma dual_chamber_query_witness :
  refresh_status MiniPy.silent washer_online washer_store tt =
    mkRun (inr tt) (<["db_location_selection" := VStr "right"]> washer_store) tt
      [CloudGetStatus MeijuCloud (QDict {["db_location" := VInt 2]})] /\
  refresh_status MiniPy.silent washer_online
      (<["db_position" := VInt 1]> (<["db_location" := VInt 2]> washer_new)) tt =
    mkRun (inr tt) (<["db_position" := VInt 1]> (<["db_location" := VInt 2]> washer_new))
      tt [CloudGetStatus MeijuCloud (QDict {["db_location" := VInt 2]})].
Proof.
  split.
  - destruct (dual_chamber_query MiniPy.silent washer_online [] [] ∅ washer_store
                washer_store tt tt [] eq_refl eq_refl eq_refl) as [Hflip _].
    destruct (Hflip eq_refl eq_refl) as [Hrun _].
    rewrite Hrun. reflexivity.
  - destruct (dual_chamber_query MiniPy.silent washer_online [] [] ∅
                (<["db_position" := VInt 1]> (<["db_location" := VInt 2]> washer_new))
                (<["db_position" := VInt 1]> (<["db_location" := VInt 2]> washer_new))
                tt tt [] eq_refl eq_refl eq_refl) as [_ Hkeep].
    destruct (Hkeep (VInt 2) eq_refl eq_refl) as [Hrun _].
    rewrite Hrun. reflexivity.
Defined.

(** * The rest of the session *)

(** ** What every run of a method keeps *)

(** A relation between the store a run starts from, the store it ends with
    and the calls it made that holds of no step at all and of two runs in a
    row holds of every method built from steps that keep it. *)
Section Kept.

Context {W : Type} (E : Env W) (cfg : Config).

Variable I : Attrs -> Attrs -> list Event -> Prop.

Hypothesis I_none : forall a, I a a [].
Hypothesis I_then : forall a b c evs1 evs2,
  I a b evs1 -> I b c evs2 -> I a c (evs1 ++ evs2).

Definition keeps {A} (m : M W A) : Prop :=
  forall a w, I a (final (m a w)) (emitted (m a w)).

Lemma keeps_ret {A} (x : A) : keeps (ret x).
Proof. intros a w. apply I_none. Qed.

Lemma keeps_raise {A} (e : Exn) : keeps (@raise W A e).
Proof. intros a w. apply I_none. Qed.

Lemma keeps_get : keeps get_attributes.
Proof. intros a w. apply I_none. Qed.

Lemma keeps_bind {A B} (m : M W A) (k : A -> M W B) :
  keeps m -> (forall x, keeps (k x)) -> keeps (bind m k).
Proof.
  intros Hm Hk a w. rewrite bind_run. specialize (Hm a w).
  destruct (outcome (m a w)) as [e|x]; simpl; [done |].
  eapply I_then; [done | apply Hk].
Qed.

Lemma keeps_try {A} (m : M W A) (h : Exn -> M W A) :
  keeps m -> (forall e, keeps (h e)) -> keeps (try_except m h).
Proof.
  intros Hm Hh a w. unfold try_except. specialize (Hm a w).
  destruct (outcome (m a w)) as [e|x]; simpl; [| done].
  eapply I_then; [done | apply Hh].
Qed.

Lemma keeps_for_each {A} (l : list A) (body : A -> M W unit) :
  (forall x, keeps (body x)) -> keeps (for_each l body).
Proof.
  intros Hb. induction l as [|x l IH]; [apply keeps_ret |].
  simpl. by apply keeps_bind.
Qed.

(** The calls to the relay and to the codec, and the debug line. *)
Definition is_outside_call (e : Event) : bool :=
  match e with
  | Merge _ _ | Notify _ _ => false
  | _ => true
  end.

(** The query of a call for the relay's status. *)
Definition status_query (e : Event) : option Query :=
  match e with CloudGetStatus _ q => Some q | _ => None end.

Hypothesis I_call : forall a e,
  is_outside_call e = true -> status_query e = None -> I a a [e].

Lemma keeps_call {A} (e : Event) (f : W -> (Exn + A) * W) :
  is_outside_call e = true -> status_query e = None -> keeps (call e f).
Proof. intros He Hq a w. unfold call. destruct (f w). by apply I_call. Qed.

Lemma keeps_emit (e : Event) :
  is_outside_call e = true -> status_query e = None -> keeps (emit e).
Proof. intros He Hq a w. by apply I_call. Qed.

Ltac keeps_step :=
  first
    [ apply keeps_ret
    | apply keeps_raise
    | apply keeps_get
    | apply keeps_call; reflexivity
    | apply keeps_emit; reflexivity
    | apply keeps_bind; [| intros ?]
    | apply keeps_try; [| intros ?]
    | match goal with
      | |- keeps (match ?x with _ => _ end) => destruct x
      end ].

Section Silent.

(** The merge of a command's reply keeps the relation. *)
Hypothesis I_reply : forall status, keeps (_parse_cloud_message E cfg status false).

Lemma keeps_build_send (cmd : string) : keeps (_build_send E cfg cmd).
Proof.
  assert (forall data, keeps (relay_command E cfg data)) as Hrelay.
  { intros data. unfold relay_command.
    repeat first [apply I_reply | keeps_step]. }
  unfold _build_send, _send_message.
  destruct (fromhex cmd); [| apply keeps_raise].
  destruct (cloud cfg); first [apply keeps_raise | apply Hrelay].
Qed.

Lemma keeps_send_control (nested : Nested) : keeps (send_control E cfg nested).
Proof.
  unfold send_control, codec_control, cloud_control.
  repeat first [apply keeps_build_send | keeps_step].
Qed.

Lemma keeps_convert (new_status : list (string * Value)) :
  keeps (@convert_to_nested W new_status).
Proof. unfold convert_to_nested. repeat keeps_step. Qed.

(** The merge of a status the relay reported keeps the relation. *)
Hypothesis I_status : forall status, keeps (_parse_cloud_message E cfg status true).

(** So does the call for the relay's status. *)
Hypothesis I_query : forall a q, I a a [CloudGetStatus (cloud cfg) q].

Lemma keeps_relay_status (q : Query) : keeps (relay_status E cfg q).
Proof.
  unfold relay_status. apply keeps_bind.
  - intros a w. unfold call. destruct (get_device_status _ _ _ _). apply I_query.
  - intros status.
    repeat first [apply I_status | apply keeps_build_send | keeps_step].
Qed.

Lemma keeps_query_status (q : Query) : keeps (query_status E cfg q).
Proof.
  unfold query_status. pose proof (keeps_relay_status q) as Hrelay.
  destruct (cloud cfg); first [apply keeps_ret | exact Hrelay].
Qed.

Section Plain.

Hypothesis Htype : device_type cfg <> 217.

Lemma keeps_set_attribute (attribute : string) (value : Value) :
  keeps (set_attribute E cfg attribute value).
Proof.
  unfold set_attribute, new_control_status.
  rewrite (other_type cfg Htype).
  repeat first [apply keeps_send_control | apply keeps_convert | keeps_step].
Qed.

Lemma keeps_set_attributes (requested : list (string * Value)) :
  keeps (set_attributes E cfg requested).
Proof.
  unfold set_attributes, new_controls_status.
  rewrite (other_type cfg Htype).
  repeat first [apply keeps_send_control | apply keeps_convert | keeps_step].
Qed.

Lemma keeps_refresh_query (q : Query) : keeps (refresh_query E cfg q).
Proof.
  unfold refresh_query, derive_query.
  rewrite (other_type cfg Htype).
  repeat first [apply keeps_query_status | keeps_step].
Qed.

Lemma keeps_refresh_status : keeps (refresh_status E cfg).
Proof. apply keeps_for_each, keeps_refresh_query. Qed.

End Plain.

Section Twin.

(** Writing the drum selection or the control status keeps the relation. *)
Hypothesis I_store : forall a k v,
  k = "db_location_selection" \/ k = "db_control_status" -> I a (<[k := v]> a) [].

Lemma keeps_store (k : string) (v : Value) :
  k = "db_location_selection" \/ k = "db_control_status" -> keeps (store_attr k v).
Proof. intros Hk a w. by apply I_store. Qed.

Lemma keeps_refresh_status_twin : keeps (refresh_status E cfg).
Proof.
  apply keeps_for_each. intros q. unfold refresh_query, derive_query.
  repeat first [apply keeps_query_status | apply keeps_store; by left | keeps_step].
Qed.

(** What [set_attribute] does on a device of type 0xD9 once the drum is
    selected and its location stored. *)
Definition after_selection (value : Value) (new_status : list (string * Value))
    : M W unit :=
  new_status <-
    (let new_status := dict_set "db_location_selection" value new_status in
     refresh_status E cfg ;;
     attrs <- get_attributes ;;
     let running_status := get attrs "db_running_status" in
     if is_none running_status then ret new_status
     else
       let control_status := _determine_control_status_based_on_running running_status in
       store_attr "db_control_status" control_status ;;
       ret (dict_set "db_control_status" control_status new_status)) ;;
  nested_status <- convert_to_nested new_status ;;
  send_control E cfg nested_status.

Lemma keeps_after_selection (value : Value) (new_status : list (string * Value)) :
  keeps (after_selection value new_status).
Proof.
  unfold after_selection. cbv zeta.
  repeat first [apply keeps_refresh_status_twin | apply keeps_send_control
               | apply keeps_convert | apply keeps_store; by right | keeps_step].
Qed.

End Twin.

End Silent.

End Kept.

(** ** What the setters and the refresh never do *)

Definition is_notify (e : Event) : bool :=
  match e with Notify _ _ => true | _ => false end.

Lemma dict_get_set {A} (k k' : string) (v : A) (d : list (string * A)) :
  dict_get k' (dict_set k v d) = if bool_decide (k = k') then Some v else dict_get k' d.
Proof.
  induction d as [|[k0 v0] d IH]; simpl.
  - repeat case_bool_decide; done.
  - repeat (case_bool_decide; simpl); try done; congruence.
Qed.

Section Setters.

Context {W : Type} (E : Env W) (cfg : Config).

(** X1.  On a device of a type other than 0xD9 no run of [set_attribute] or
    of [set_attributes] calls a subscriber: what the relay answers to a
    command is merged without notification. *)
Theorem setters_never_notify (attribute : string) (value : Value)
    (requested : list (string * Value)) (a : Attrs) (w : W) :
  device_type cfg <> 217 ->
  Forall (fun e => is_notify e = false)
    (emitted (set_attribute E cfg attribute value a w)) /\
  Forall (fun e => is_notify e = false)
    (emitted (set_attributes E cfg requested a w)).
Proof.
  intros Htype.
  set (I := fun (_ _ : Attrs) (evs : list Event) =>
              Forall (fun e => is_notify e = false) evs).
  assert (forall a, I a a []) as I_none by (intros; constructor).
  assert (forall a b c evs1 evs2, I a b evs1 -> I b c evs2 -> I a c (evs1 ++ evs2))
    as I_then by (intros; by apply Forall_app).
  assert (forall a e, is_outside_call e = true -> status_query e = None -> I a a [e])
    as I_call.
  { intros ? e He _. constructor; [by destruct e | constructor]. }
  assert (forall status, keeps I (_parse_cloud_message E cfg status false)) as I_reply.
  { intros status a0 w0. rewrite parse_cloud_message_run. by repeat constructor. }
  split.
  - by apply (keeps_set_attribute E cfg I I_none I_then I_call I_reply Htype).
  - by apply (keeps_set_attributes E cfg I I_none I_then I_call I_reply Htype).
Qed.

(** X2.  On a device of a type other than 0xD9 the three public operations
    leave every attribute that no calculate rule may assign as it was stored,
    whatever the relay and the codec answer; in particular [set_attribute]
    does not store the value it sends.  A rule that is not the assignment of
    an expression to one bracketed path counts as one that may assign every
    attribute. *)
Theorem operations_keep_unassigned (k attribute : string) (value : Value)
    (requested : list (string * Value)) (a : Attrs) (w : W) :
  device_type cfg <> 217 ->
  assigned (py_eval E) (calculate_get cfg) k = false ->
  final (set_attribute E cfg attribute value a w) !! k = a !! k /\
  final (set_attributes E cfg requested a w) !! k = a !! k /\
  final (refresh_status E cfg a w) !! k = a !! k.
Proof.
  intros Htype Hk.
  set (I := fun (a b : Attrs) (_ : list Event) => b !! k = a !! k).
  assert (forall a, I a a []) as I_none by done.
  assert (forall a b c evs1 evs2, I a b evs1 -> I b c evs2 -> I a c (evs1 ++ evs2))
    as I_then by (unfold I; intros; congruence).
  assert (forall a e, is_outside_call e = true -> status_query e = None -> I a a [e])
    as I_call by done.
  assert (forall status update, keeps I (_parse_cloud_message E cfg status update))
    as I_merge.
  { intros status update a0 w0. rewrite parse_cloud_message_run. simpl.
    by apply merge_unassigned. }
  split; [| split].
  - by apply (keeps_set_attribute E cfg I I_none I_then I_call
                (fun s => I_merge s false) Htype).
  - by apply (keeps_set_attributes E cfg I I_none I_then I_call
                (fun s => I_merge s false) Htype).
  - by apply (keeps_refresh_status E cfg I I_none I_then I_call
                (fun s => I_merge s false) (fun s => I_merge s true)
                (fun _ _ => eq_refl) Htype).
Qed.

Lemma refresh_query_no_relay (q : Query) (a : Attrs) (w : W) :
  cloud cfg = NoCloud \/ cloud cfg = OtherCloud ->
  exists a', refresh_query E cfg q a w = mkRun (inr tt) a' w [] /\
             (device_type cfg <> 217 -> a' = a).
Proof.
  intros Hcloud. unfold refresh_query.
  assert (forall q', query_status E cfg q' = ret tt) as Hquiet
    by (intros q'; unfold query_status; by destruct Hcloud as [-> | ->]).
  destruct (derive_query_quiet cfg q a w) as (q' & a' & Hq).
  exists a'. split.
  - rewrite (bind_after _ _ _ _ _ _ _ _ Hq), Hquiet. done.
  - intros Htype. unfold derive_query in Hq.
    rewrite (other_type cfg Htype) in Hq. destruct q; by injection Hq.
Qed.

(** X3.  Without the MSmartHome or the Meiju relay [refresh_status] calls
    nobody and returns, with a codec loaded or not: the codec's query is only
    ever tried after a relay had no status.  On a device of a type other than
    0xD9 the store is left as it was. *)
Theorem refresh_without_relay (a : Attrs) (w : W) :
  cloud cfg = NoCloud \/ cloud cfg = OtherCloud ->
  outcome (refresh_status E cfg a w) = inr tt /\
  emitted (refresh_status E cfg a w) = [] /\
  world (refresh_status E cfg a w) = w /\
  (device_type cfg <> 217 -> final (refresh_status E cfg a w) = a).
Proof.
  intros Hcloud. unfold refresh_status.
  assert (forall l a0, exists a',
            for_each l (refresh_query E cfg) a0 w = mkRun (inr tt) a' w [] /\
            (device_type cfg <> 217 -> a' = a0)) as Hloop.
  { induction l as [|q l IH]; intros a0; [by exists a0 |].
    destruct (refresh_query_no_relay q a0 w Hcloud) as (a1 & Hq & Ha1).
    destruct (IH a1) as (a2 & Hl & Ha2).
    exists a2. split.
    - simpl. rewrite (bind_after _ _ _ _ _ _ _ _ Hq), Hl. done.
    - intros Htype. rewrite Ha2, Ha1 by done. done. }
  destruct (Hloop (queries cfg) a) as (a' & -> & Ha'). simpl.
  repeat split; [done.. | by intros ?%Ha'].
Qed.

End Setters.

(** ** What the control payload carries *)

(** The three names device type 0xD9 writes into a payload. *)
Definition is_location_key (k : string) : bool :=
  bool_decide (k = "db_location") || bool_decide (k = "db_location_selection")
  || bool_decide (k = "db_control_status").

Lemma is_location_key_false (k : string) :
  is_location_key k = false ->
  k <> "db_location" /\ k <> "db_location_selection" /\ k <> "db_control_status".
Proof.
  unfold is_location_key. rewrite !orb_false_iff.
  intros [[H1 H2] H3]. repeat split; intros ->; done.
Qed.

Lemma dict_get_set_other {A} (k k' : string) (v : A) (d : list (string * A)) :
  k <> k' -> dict_get k' (dict_set k v d) = dict_get k' d.
Proof. intros H. rewrite dict_get_set. by rewrite bool_decide_eq_false_2. Qed.

Lemma dict_get_set_same {A} (k : string) (v : A) (d : list (string * A)) :
  dict_get k (dict_set k v d) = Some v.
Proof. rewrite dict_get_set. by rewrite bool_decide_eq_true_2. Qed.

Lemma centralized_status_get (cfg : Config) (a : Attrs) (c : string) :
  dict_get c (centralized_status cfg a) =
    if bool_decide (c ∈ centralized cfg) then Some (get a c) else None.
Proof.
  unfold centralized_status.
  assert (forall l acc,
            dict_get c (fold_left (fun ns attr => dict_set attr (get a attr) ns) l acc) =
              if bool_decide (c ∈ l) then Some (get a c) else dict_get c acc) as H.
  { induction l as [|x l IH]; intros acc; cbn [fold_left].
    - rewrite bool_decide_eq_false_2; [done | by intros ?%elem_of_nil].
    - rewrite IH. destruct (decide (c ∈ l)) as [Hin|Hin].
      + rewrite !bool_decide_eq_true_2; [done | by right | done].
      + rewrite (bool_decide_eq_false_2 (c ∈ l)) by done.
        destruct (decide (x = c)) as [->|Hne].
        * rewrite dict_get_set_same, bool_decide_eq_true_2; [done | by left].
        * rewrite dict_get_set_other by done.
          rewrite bool_decide_eq_false_2; [done |].
          intros [?|?]%elem_of_cons; congruence. }
  rewrite H. by case_bool_decide.
Qed.

Lemma stage_known_get (a : Attrs) (requested : list (string * Value))
    (acc : list (string * Value) * bool) (c : string) :
  dict_get c requested = None ->
  dict_get c (fst (stage_known a requested acc)) = dict_get c (fst acc).
Proof.
  revert acc. induction requested as [|[k v] rest IH]; intros acc Hc; [done |].
  simpl in *. case_bool_decide as Hk; [done |].
  case_bool_decide; rewrite IH by done; [| done].
  simpl. by apply dict_get_set_other.
Qed.

Section Payload.

Context {W : Type} (E : Env W) (cfg : Config).

(** A method returns only values with the property [P]. *)
Definition returns {A} (P : A -> Prop) (m : M W A) : Prop :=
  forall a w x, outcome (m a w) = inr x -> P x.

Lemma returns_ret {A} (P : A -> Prop) (x : A) : P x -> returns P (ret x).
Proof. intros H a w y [= <-]. done. Qed.

Lemma returns_bind {A B} (P : B -> Prop) (m : M W A) (k : A -> M W B) :
  (forall x, returns P (k x)) -> returns P (bind m k).
Proof.
  intros Hk a w y. rewrite bind_run.
  destruct (outcome (m a w)) as [e|x]; simpl; [done |]. apply Hk.
Qed.

(** What device type 0xD9 adds to a payload touches the location names only. *)
Definition same_elsewhere (ns0 ns : list (string * Value)) : Prop :=
  forall c, is_location_key c = false -> dict_get c ns = dict_get c ns0.

Ltac elsewhere :=
  intros c [? [? ?]]%is_location_key_false;
  rewrite ?dict_get_set_other by done; done.

Lemma location_from_position_elsewhere (ns0 : list (string * Value)) :
  returns (same_elsewhere ns0) (@location_from_position W ns0).
Proof.
  unfold location_from_position. apply returns_bind. intros attrs.
  repeat match goal with
         | |- returns _ (if ?b then _ else _) => destruct b
         end; apply returns_ret; elsewhere.
Qed.

Lemma flip_location_elsewhere (ns0 : list (string * Value)) :
  returns (same_elsewhere ns0) (@flip_location W ns0).
Proof.
  unfold flip_location. repeat (apply returns_bind; intros ?).
  apply returns_ret. elsewhere.
Qed.

Lemma select_location_elsewhere (value : Value) (ns0 : list (string * Value)) :
  returns (same_elsewhere ns0) (@select_location W value ns0).
Proof.
  unfold select_location.
  repeat match goal with
         | |- returns _ (if ?b then _ else _) => destruct b
         end; repeat (apply returns_bind; intros ?); apply returns_ret; elsewhere.
Qed.

Lemma same_elsewhere_trans (ns0 ns1 ns2 : list (string * Value)) :
  same_elsewhere ns0 ns1 -> same_elsewhere ns1 ns2 -> same_elsewhere ns0 ns2.
Proof. intros H1 H2 c Hc. by rewrite H2, H1. Qed.

Lemma d9_set_attribute_elsewhere (attribute : string) (value : Value)
    (ns0 : list (string * Value)) :
  returns (same_elsewhere ns0) (d9_set_attribute E cfg attribute value ns0).
Proof.
  unfold d9_set_attribute. case_bool_decide.
  - intros a w x. rewrite bind_run.
    destruct (outcome (select_location value ns0 a w)) as [e|ns1] eqn:Hsel;
      simpl; [done |].
    pose proof (select_location_elsewhere value ns0 a w ns1 Hsel) as H1.
    revert x. apply (returns_bind (same_elsewhere ns0)). intros _.
    apply returns_bind. intros attrs.
    destruct (is_none _).
    + apply returns_ret. intros c Hc. rewrite <- H1 by done.
      apply is_location_key_false in Hc as [? [? ?]].
      by rewrite dict_get_set_other.
    + apply returns_bind. intros _. apply returns_ret.
      intros c Hc. rewrite <- H1 by done.
      apply is_location_key_false in Hc as [? [? ?]].
      by rewrite !dict_get_set_other.
  - case_bool_decide.
    + repeat match goal with
             | |- returns _ (if ?b then _ else _) => destruct b
             end;
        first [apply flip_location_elsewhere | by apply returns_ret].
    + apply location_from_position_elsewhere.
Qed.

Lemma d9_set_attributes_elsewhere (requested ns0 : list (string * Value)) :
  returns (same_elsewhere ns0) (d9_set_attributes E cfg requested ns0).
Proof.
  unfold d9_set_attributes.
  destruct (dict_get "db_location_selection" requested) as [sel|].
  - intros a w x. rewrite bind_run.
    destruct (outcome (select_location sel ns0 a w)) as [e|ns1] eqn:Hsel;
      simpl; [done |].
    pose proof (select_location_elsewhere sel ns0 a w ns1 Hsel) as H1.
    revert x. apply (returns_bind (same_elsewhere ns0)). intros _.
    apply returns_bind. intros attrs. apply returns_bind. intros _.
    apply returns_ret. intros c Hc. rewrite <- H1 by done.
    apply is_location_key_false in Hc as [? [? ?]].
    by rewrite dict_get_set_other.
  - destruct (dict_get "db_position" requested) as [pos|].
    + repeat match goal with
             | |- returns _ (if ?b then _ else _) => destruct b
             end;
        first [apply flip_location_elsewhere | by apply returns_ret | idtac].
      apply returns_bind. intros attrs. apply returns_ret. elsewhere.
    + apply location_from_position_elsewhere.
Qed.

Lemma d9_set_attribute_own (attribute : string) (value : Value)
    (ns0 : list (string * Value)) :
  attribute <> "db_location" ->
  dict_get attribute ns0 = Some value ->
  returns (fun ns => dict_get attribute ns = Some value)
          (d9_set_attribute E cfg attribute value ns0).
Proof.
  intros Hne Hown. unfold d9_set_attribute.
  case_bool_decide as Hsel; [| case_bool_decide as Hpos].
  - subst attribute. repeat (apply returns_bind; intros ?).
    destruct (is_none _); [| apply returns_bind; intros ?]; apply returns_ret.
    + apply dict_get_set_same.
    + rewrite dict_get_set_other by done. apply dict_get_set_same.
  - subst attribute.
    repeat match goal with
           | |- returns _ (if ?b then _ else _) => destruct b
           end; try by apply returns_ret.
    unfold flip_location. repeat (apply returns_bind; intros ?).
    apply returns_ret. by rewrite !dict_get_set_other.
  - unfold location_from_position. apply returns_bind. intros attrs.
    repeat match goal with
           | |- returns _ (if ?b then _ else _) => destruct b
           end; apply returns_ret; by rewrite ?dict_get_set_other.
Qed.

(** X4.  The payload of a setter carries every centralized attribute that is
    not itself being set, with the value the store held when the setter was
    called ([None] when the store has none), and [set_attribute] carries the
    value it was given; the names excepted are the three location names, which
    device type 0xD9 may overwrite. *)
Theorem payload_carries_centralized :
  (forall attribute value a w ns,
     outcome (new_control_status E cfg attribute value a w) = inr ns ->
     (attribute <> "db_location" -> dict_get attribute ns = Some value) /\
     (forall c, c ∈ centralized cfg -> c <> attribute -> is_location_key c = false ->
        dict_get c ns = Some (get a c))) /\
  (forall requested a w ns has_new,
     outcome (new_controls_status E cfg requested a w) = inr (ns, has_new) ->
     forall c, c ∈ centralized cfg -> dict_get c requested = None ->
       is_location_key c = false ->
       dict_get c ns = Some (get a c)).
Proof.
  split.
  - intros attribute value a w ns Hout.
    unfold new_control_status in Hout. rewrite bind_get in Hout.
    set (ns0 := dict_set attribute value (centralized_status cfg a)) in *.
    assert (same_elsewhere ns0 ns /\
            (attribute <> "db_location" -> dict_get attribute ns = Some value))
      as [Hsame Hattr].
    { destruct (device_type cfg =? 217).
      - split; [by apply (d9_set_attribute_elsewhere attribute value ns0 a w) |].
        intros Hne.
        apply (d9_set_attribute_own attribute value ns0 Hne
                 (dict_get_set_same _ _ _) a w ns Hout).
      - injection Hout as <-. split; [done |]. intros _. apply dict_get_set_same. }
    split; [done |]. intros c Hc Hne Hloc.
    rewrite Hsame by done. unfold ns0.
    rewrite dict_get_set_other by done.
    by rewrite centralized_status_get, bool_decide_eq_true_2.
  - intros requested a w ns has_new Hout c Hc Hreq Hloc.
    unfold new_controls_status in Hout. rewrite bind_get in Hout.
    set (st := stage_known a requested (centralized_status cfg a, false)) in *.
    assert (same_elsewhere (fst st) ns) as Hsame.
    { destruct (device_type cfg =? 217).
      - rewrite bind_run in Hout.
        destruct (outcome (d9_set_attributes E cfg requested (fst st) a w))
          as [e|ns1] eqn:Hd9; simpl in Hout; [done |].
        injection Hout as <- _.
        by apply (d9_set_attributes_elsewhere requested (fst st) a w).
      - by injection Hout as <- _. }
    rewrite Hsame by done. unfold st.
    rewrite stage_known_get by done. simpl.
    by rewrite centralized_status_get, bool_decide_eq_true_2.
Qed.

End Payload.

(** ** The queries of a refresh *)

Section Queries.

Context {W : Type} (E : Env W) (cfg : Config).

Lemma omap_notify (delta : Attrs) (l : list nat) :
  omap status_query (map (fun update => Notify update delta) l) = [].
Proof. by induction l. Qed.

Lemma build_send_no_status_call (cmd : string) (a : Attrs) (w : W) :
  omap status_query (emitted (_build_send E cfg cmd a w)) = [].
Proof.
  set (I := fun (_ _ : Attrs) (evs : list Event) => omap status_query evs = []).
  apply (keeps_build_send E cfg I).
  - done.
  - unfold I. intros _ _ _ evs1 evs2 H1 H2. by rewrite omap_app, H1, H2.
  - unfold I. intros _ e _ He. simpl. by rewrite He.
  - intros status a0 w0. by rewrite parse_cloud_message_run.
Qed.

Lemma refresh_query_one_status_call (q : Query) (a : Attrs) (w : W) :
  device_type cfg <> 217 ->
  relay_attached cfg ->
  omap status_query (emitted (refresh_query E cfg q a w)) = [q].
Proof.
  intros Htype Hrelay. unfold refresh_query.
  assert (derive_query cfg q = ret q) as ->.
  { unfold derive_query. rewrite (other_type cfg Htype). by destruct q. }
  rewrite bind_ret, (query_status_relay E cfg q Hrelay).
  unfold relay_status. rewrite bind_call.
  destruct (get_device_status E (cloud cfg) q w) as [[ex|status] w1]; [done |].
  simpl. f_equal.
  destruct (truthy_status status) as [st|].
  - rewrite bind_run, parse_cloud_message_run. simpl.
    rewrite app_nil_r. unfold notifications.
    case_bool_decide; [done | apply omap_notify].
  - destruct (has_lua_runtime cfg); [| done].
    rewrite bind_call.
    destruct (build_query E q w1) as [[ex|cmd] w2]; [done |]. simpl.
    destruct (truthy_text cmd) as [text|]; [| done].
    apply build_send_no_status_call.
Qed.

(** X5.  With a relay attached, on a device of a type other than 0xD9,
    [refresh_status] asks the relay for the status once per configured query,
    with the query as configured and in the configured order; a run that
    returns has asked for all of them, and a run an exception ended has asked
    for the first ones only. *)
Theorem refresh_asks_each_query_once (a : Attrs) (w : W) :
  device_type cfg <> 217 ->
  relay_attached cfg ->
  omap status_query (emitted (refresh_status E cfg a w)) `prefix_of` queries cfg /\
  (outcome (refresh_status E cfg a w) = inr tt ->
   omap status_query (emitted (refresh_status E cfg a w)) = queries cfg).
Proof.
  intros Htype Hrelay. unfold refresh_status.
  generalize (queries cfg). intros l. revert a w.
  induction l as [|q l IH]; intros a w; [done |].
  cbn [for_each]. rewrite bind_run.
  pose proof (refresh_query_one_status_call q a w Htype Hrelay) as Hq.
  destruct (outcome (refresh_query E cfg q a w)) as [ex|[]]; simpl.
  - rewrite Hq. split; [| done]. by apply (prefix_app_r [q] [q] l).
  - rewrite omap_app, Hq. simpl.
    destruct (IH (final (refresh_query E cfg q a w))
                 (world (refresh_query E cfg q a w))) as [Hpre Hall].
    split; [by apply prefix_cons |]. intros Hout. f_equal. by apply Hall.
Qed.

End Queries.

(** ** The drum of a twin washer *)

Section Drum.

Context {W : Type} (E : Env W) (cfg : Config).

Lemma value_eq_zero_one (v : Value) :
  value_eq v (VInt 0) = true -> value_eq v (VInt 1) = false.
Proof.
  destruct v as [|b|z|s]; simpl; try done.
  - by destruct b.
  - intros ->%Z.eqb_eq. done.
Qed.

(** X6.  On a device of type 0xD9 whose stored [db_position] is 0 or 1 (1
    when it is not stored), a refresh and a command sent from the same store
    name the same drum: the [db_location] that [refresh_status] adds to a
    query is the [db_location] in the payload of [set_attribute], for every
    attribute other than [db_position] and [db_location_selection], also when
    it is [db_location] itself that is being set. *)
Theorem twin_washer_same_drum (d : Attrs) (attribute : string) (value : Value)
    (a : Attrs) (w : W) :
  device_type cfg = 217 ->
  attribute <> "db_position" ->
  attribute <> "db_location_selection" ->
  value_eq (get_default a "db_position" (VInt 1)) (VInt 0) = true \/
  value_eq (get_default a "db_position" (VInt 1)) (VInt 1) = true ->
  exists loc ns,
    outcome (derive_query cfg (QDict d) a w) = inr (QDict (<["db_location" := loc]> d)) /\
    new_control_status E cfg attribute value a w = mkRun (inr ns) a w [] /\
    dict_get "db_location" ns = Some loc.
Proof.
  intros Htype Hpos Hsel Hposition.
  unfold derive_query, new_control_status, d9_set_attribute, location_from_position.
  rewrite Htype. simpl. rewrite !bind_get.
  rewrite !bool_decide_eq_false_2 by done. rewrite bind_get.
  destruct Hposition as [H0|H1].
  - rewrite H0, (value_eq_zero_one _ H0). rewrite bind_store.
    eexists _, _. split; [done |]. split; [done |]. apply dict_get_set_same.
  - rewrite H1.
    destruct (value_eq (get_default a "db_position" (VInt 1)) (VInt 0)) eqn:H0.
    + apply value_eq_zero_one in H0. congruence.
    + eexists _, _. split; [done |]. split; [done |]. apply dict_get_set_same.
Qed.

End Drum.

(** * The local protocol *)

From Stdlib Require Import Strings.Byte.

(** ** Framing, [_fetch_v2_message] *)

(** An element of a [bytes] object is an [int] below 256. *)
Definition byte_value (b : byte) : Z := Z.of_N (Byte.to_N b).

(** [msg[i]], read where [len(msg)] is known to be above [i]. *)
Definition byte_at (msg : list byte) (i : nat) : Z :=
  byte_value (nth i msg Byte.x00).

(** [msg[4] + (msg[5] << 8)] *)
Definition alleged_msg_len (msg : list byte) : Z :=
  byte_at msg 4 + Z.shiftl (byte_at msg 5) 8.

(** The [while] loop of [_fetch_v2_message], run for at most [fuel] tests of
    its condition: [None] when the loop is still running after that many. *)
Fixpoint fetch_v2_loop (fuel : nat) (result : list (list byte)) (msg : list byte)
    : option (list (list byte) * list byte) :=
  match fuel with
  | O => None
  | S fuel =>
      if bool_decide (0 < Z.of_nat (List.length msg)) then
        let factual_msg_len := Z.of_nat (List.length msg) in
        if bool_decide (factual_msg_len < 6) then Some (result, msg)
        else
          let alleged_msg_len := alleged_msg_len msg in
          if bool_decide (factual_msg_len >= alleged_msg_len) then
            fetch_v2_loop fuel
              (result ++ [take (Z.to_nat alleged_msg_len) msg])
              (drop (Z.to_nat alleged_msg_len) msg)
          else Some (result, msg)
      else Some (result, msg)
  end.

(** [_fetch_v2_message]: a loop that ends at all has ended after one test
    more than [msg] has bytes (lemma [fetch_v2_loop_enough]). *)
Definition _fetch_v2_message (msg : list byte)
    : option (list (list byte) * list byte) :=
  fetch_v2_loop (S (List.length msg)) [] msg.

(** A message that is all there: six bytes at least, as long as its length
    field says. *)
Definition whole (f : list byte) : Prop :=
  (6 <= List.length f)%nat /\ alleged_msg_len f = Z.of_nat (List.length f).

(** What the loop stops at: nothing, less than a header, or a header whose
    message has not all arrived. *)
Definition partial (t : list byte) : Prop :=
  (List.length t < 6)%nat \/ Z.of_nat (List.length t) < alleged_msg_len t.

Lemma byte_value_range (b : byte) : 0 <= byte_value b < 256.
Proof.
  unfold byte_value. pose proof (Byte.to_N_bounded b). lia.
Qed.

Lemma alleged_msg_len_range (msg : list byte) : 0 <= alleged_msg_len msg < 65536.
Proof.
  unfold alleged_msg_len, byte_at. rewrite Z.shiftl_mul_pow2 by lia.
  pose proof (byte_value_range (nth 4 msg Byte.x00)).
  pose proof (byte_value_range (nth 5 msg Byte.x00)). lia.
Qed.

Lemma alleged_msg_len_app (f rest : list byte) :
  (6 <= List.length f)%nat -> alleged_msg_len (f ++ rest) = alleged_msg_len f.
Proof.
  intros Hlen. unfold alleged_msg_len, byte_at.
  by rewrite !app_nth1 by lia.
Qed.

(** A header that says zero: the loop takes nothing off and goes round. *)
Lemma fetch_v2_loop_stuck (fuel : nat) (result : list (list byte)) (msg : list byte) :
  (6 <= List.length msg)%nat -> alleged_msg_len msg = 0 ->
  fetch_v2_loop fuel result msg = None.
Proof.
  intros Hlen Hzero. revert result.
  induction fuel as [|fuel IH]; intros result; [done |].
  cbn [fetch_v2_loop].
  rewrite bool_decide_eq_true_2 by lia.
  rewrite bool_decide_eq_false_2 by lia.
  rewrite bool_decide_eq_true_2 by lia.
  rewrite Hzero. simpl. rewrite drop_0. apply IH.
Qed.

Lemma fetch_v2_loop_more (fuel fuel' : nat) (result : list (list byte))
    (msg : list byte) (x : list (list byte) * list byte) :
  (fuel <= fuel')%nat ->
  fetch_v2_loop fuel result msg = Some x -> fetch_v2_loop fuel' result msg = Some x.
Proof.
  revert fuel' result msg.
  induction fuel as [|fuel IH]; intros fuel' result msg Hle; [done |].
  destruct fuel' as [|fuel']; [lia |].
  cbn [fetch_v2_loop].
  repeat case_bool_decide; try done.
  apply IH. lia.
Qed.

Lemma fetch_v2_loop_enough (fuel : nat) (result : list (list byte))
    (msg : list byte) (x : list (list byte) * list byte) :
  fetch_v2_loop fuel result msg = Some x ->
  fetch_v2_loop (S (List.length msg)) result msg = Some x.
Proof.
  revert result msg.
  induction fuel as [|fuel IH]; intros result msg; [done |].
  cbn [fetch_v2_loop].
  case_bool_decide as Hpos; [| done].
  case_bool_decide as Hshort; [done |].
  case_bool_decide as Hall; [| done].
  intros Hrun.
  destruct (decide (alleged_msg_len msg = 0)) as [Hzero|Hsome].
  - rewrite Hzero in Hrun. simpl in Hrun. rewrite drop_0 in Hrun.
    rewrite fetch_v2_loop_stuck in Hrun; [done | lia | done].
  - apply IH in Hrun.
    apply (fetch_v2_loop_more (S (List.length (drop (Z.to_nat (alleged_msg_len msg)) msg))));
      [| done].
    rewrite length_drop. pose proof (alleged_msg_len_range msg). lia.
Qed.

(** The messages already taken off stay in front of the ones still to come. *)
Lemma fetch_v2_loop_result (fuel : nat) (result : list (list byte)) (msg : list byte) :
  fetch_v2_loop fuel result msg =
    (fun x => (result ++ fst x, snd x)) <$> fetch_v2_loop fuel [] msg.
Proof.
  revert result msg.
  induction fuel as [|fuel IH]; intros result msg; [done |].
  cbn [fetch_v2_loop].
  repeat case_bool_decide; simpl; rewrite ?app_nil_r; try done.
  rewrite (IH (result ++ _)), (IH [_]).
  destruct (fetch_v2_loop fuel [] _) as [[res rest]|]; simpl; [| done].
  by rewrite <- app_assoc.
Qed.

Lemma fetch_v2_loop_partial (fuel : nat) (result : list (list byte)) (t : list byte) :
  partial t -> fetch_v2_loop (S fuel) result t = Some (result, t).
Proof.
  intros Ht. cbn [fetch_v2_loop].
  case_bool_decide; [| done].
  case_bool_decide; [done |].
  case_bool_decide; [| done].
  destruct Ht; lia.
Qed.

(** One whole message in front comes off in one round. *)
Lemma fetch_v2_loop_whole (fuel : nat) (result : list (list byte))
    (f rest : list byte) :
  whole f ->
  fetch_v2_loop (S fuel) result (f ++ rest) = fetch_v2_loop fuel (result ++ [f]) rest.
Proof.
  intros [Hlen Hfield]. cbn [fetch_v2_loop].
  rewrite length_app, (alleged_msg_len_app f rest Hlen), Hfield.
  rewrite bool_decide_eq_true_2 by lia.
  rewrite bool_decide_eq_false_2 by lia.
  rewrite bool_decide_eq_true_2 by lia.
  rewrite Nat2Z.id, take_app_length, drop_app_length. done.
Qed.

(** X7.  Whole messages sent one after the other, followed by the beginning
    of the next one, come apart again: [_fetch_v2_message] returns the messages
    in order and hands the unfinished rest back. *)
Theorem fetch_v2_message_splits (fs : list (list byte)) (t : list byte) :
  Forall whole fs -> partial t ->
  _fetch_v2_message (List.concat fs ++ t) = Some (fs, t).
Proof.
  intros Hfs Ht.
  apply (fetch_v2_loop_enough (S (List.length fs))).
  change fs with ([] ++ fs) at 3. generalize (@nil (list byte)) as result.
  induction Hfs as [|f fs Hf Hfs IH]; intros result.
  - rewrite app_nil_r. by apply fetch_v2_loop_partial.
  - cbn [List.concat]. rewrite <- app_assoc.
    rewrite (fetch_v2_loop_whole _ _ _ _ Hf). cbn [List.length].
    rewrite IH. by rewrite <- app_assoc.
Qed.

(** X8.  A header whose length field is zero stops [_fetch_v2_message] for
    good: once the messages before it are taken off, the loop appends an
    empty message, keeps [msg] as it is and tests again, however often it is
    let. *)
Theorem fetch_v2_message_zero_length_never_returns (fs : list (list byte))
    (z : list byte) (fuel : nat) (result : list (list byte)) :
  Forall whole fs -> (6 <= List.length z)%nat -> alleged_msg_len z = 0 ->
  fetch_v2_loop fuel result (List.concat fs ++ z) = None.
Proof.
  intros Hfs Hlen Hzero. revert fuel result.
  induction Hfs as [|f fs Hf Hfs IH]; intros fuel result.
  - by apply fetch_v2_loop_stuck.
  - destruct fuel as [|fuel]; [done |].
    cbn [List.concat]. rewrite <- app_assoc.
    rewrite (fetch_v2_loop_whole _ _ _ _ Hf). apply IH.
Qed.

(** X9.  It does not matter where the stream is cut: fetching from the first
    piece and then from the rest that was kept followed by the second piece,
    which is what [_parse_message] passes as [self._buffer + msg], gives the
    messages of the two pieces fetched as one. *)
Theorem fetch_v2_message_resumes (a b : list byte)
    (r1 r2 : list (list byte)) (rest1 rest2 : list byte) :
  _fetch_v2_message a = Some (r1, rest1) ->
  _fetch_v2_message (rest1 ++ b) = Some (r2, rest2) ->
  _fetch_v2_message (a ++ b) = Some (r1 ++ r2, rest2).
Proof.
  unfold _fetch_v2_message. intros Ha Hb.
  assert (forall fuel msg res,
            fetch_v2_loop fuel res msg = Some (r1, rest1) ->
            exists fuel', fetch_v2_loop fuel' res (msg ++ b) = Some (r1 ++ r2, rest2))
    as Hresume.
  { induction fuel as [|fuel IH]; intros msg res; [done |].
    cbn [fetch_v2_loop].
    assert (res = r1 -> msg = rest1 ->
            exists fuel', fetch_v2_loop fuel' res (msg ++ b) = Some (r1 ++ r2, rest2))
      as Hstop.
    { intros -> ->. exists (S (List.length (rest1 ++ b))).
      rewrite fetch_v2_loop_result, Hb. done. }
    case_bool_decide as Hpos; [| intros [= ? ?]; by apply Hstop].
    case_bool_decide as Hshort; [intros [= ? ?]; by apply Hstop |].
    case_bool_decide as Hall; [| intros [= ? ?]; by apply Hstop].
    intros Hrun. apply IH in Hrun as [fuel' Hrun].
    exists (S fuel'). cbn [fetch_v2_loop].
    pose proof (alleged_msg_len_range msg) as Hrange.
    rewrite length_app, (alleged_msg_len_app msg b) by lia.
    rewrite bool_decide_eq_true_2 by lia.
    rewrite bool_decide_eq_false_2 by lia.
    rewrite bool_decide_eq_true_2 by lia.
    rewrite take_app_le, drop_app_le by lia. done. }
  destruct (Hresume _ _ _ Ha) as [fuel' Hrun].
  by apply fetch_v2_loop_enough in Hrun.
Qed.

(** * Dotted names in a control payload *)

(** The place of a name in the nested payload: [key.split('.')] for a dotted
    name, the name itself otherwise. *)
Definition keys_of (key : string) : list string :=
  if has_dot key then split_dot key else [key].

(** What the nested payload holds at a place. *)
Fixpoint nested_get (p : list string) (n : Nested) : option Nested :=
  match p with
  | [] => Some n
  | k :: ks =>
      match n with
      | NDict d =>
          match dict_get k d with
          | Some n' => nested_get ks n'
          | None => None
          end
      | NVal _ => None
      end
  end.

(** A value, not a [dict], sits at the place [q] of [d]. *)
Definition leaf (q : list string) (d : list (string * Nested)) : Prop :=
  exists v, nested_get q (NDict d) = Some (NVal v).

Lemma split_dot_aux_nonempty (cur s : string) : split_dot_aux cur s <> [].
Proof.
  revert cur. induction s as [|c s IH]; intros cur; simpl; [done |].
  destruct (Ascii.eqb c "."); [done | apply IH].
Qed.

Lemma keys_of_nonempty (key : string) : keys_of key <> [].
Proof.
  unfold keys_of. destruct (has_dot key); [apply split_dot_aux_nonempty | done].
Qed.

Lemma nested_insert_keys (d : list (string * Nested)) (key : string) (value : Value) :
  nested_insert d (key, value) =
    nested_set (removelast (keys_of key)) (List.last (keys_of key) EmptyString) value d.
Proof. unfold nested_insert, keys_of. by destruct (has_dot key). Qed.

Lemma keys_of_last (key : string) :
  keys_of key = removelast (keys_of key) ++ [List.last (keys_of key) EmptyString].
Proof. apply app_removelast_last, keys_of_nonempty. Qed.

Lemma nested_get_val (ks : list string) (v : Value) (x : Nested) :
  nested_get ks (NVal v) = Some x -> ks = [] /\ x = NVal v.
Proof. destruct ks; [by intros [= <-] | done]. Qed.

Lemma leaf_cons (k : string) (ks : list string) (d : list (string * Nested)) :
  leaf (k :: ks) d <->
  (ks = [] /\ exists v, dict_get k d = Some (NVal v)) \/
  (exists sub, dict_get k d = Some (NDict sub) /\ leaf ks sub).
Proof.
  unfold leaf. simpl. split.
  - intros [v Hv]. destruct (dict_get k d) as [[x|sub]|]; [| | done].
    + apply nested_get_val in Hv as [-> _]. left. eauto.
    + right. eauto.
  - intros [[-> [v ->]] | [sub [-> Hsub]]]; [by exists v | done].
Qed.

Lemma leaf_nil (d : list (string * Nested)) : ~ leaf [] d.
Proof. by intros [v [=]]. Qed.

Lemma leaf_empty (q : list string) : ~ leaf q [].
Proof. destruct q; [apply leaf_nil | by intros [v [=]]]. Qed.

(** The place just stored holds the value. *)
Lemma nested_set_same (ps : list string) (l : string) (v : Value)
    (d d' : list (string * Nested)) :
  nested_set ps l v d = Some d' ->
  nested_get (ps ++ [l]) (NDict d') = Some (NVal v).
Proof.
  revert d d'. induction ps as [|a ps IH]; intros d d'; simpl.
  - intros [= <-]. by rewrite dict_get_set_same.
  - destruct (dict_get a d) as [[x|sub0]|]; [done | |].
    + destruct (nested_set ps l v sub0) as [sub|] eqn:Hsub; [| done].
      simpl. intros [= <-]. rewrite dict_get_set_same. by apply IH with sub0.
    + destruct (nested_set ps l v []) as [sub|] eqn:Hsub; [| done].
      simpl. intros [= <-]. rewrite dict_get_set_same. by apply IH with [].
Qed.

(** A value stays where it is unless the place stored at is on the way to
    it. *)
Lemma nested_set_keeps (ps : list string) (l : string) (v : Value)
    (d d' : list (string * Nested)) (p : list string) (x : Value) :
  nested_set ps l v d = Some d' ->
  nested_get p (NDict d) = Some (NVal x) ->
  ~ (ps ++ [l]) `prefix_of` p ->
  nested_get p (NDict d') = Some (NVal x).
Proof.
  revert d d' p. induction ps as [|a ps IH]; intros d d' p; simpl.
  - intros [= <-] Hp Hpre. destruct p as [|k ks]; [done |]. simpl in *.
    destruct (decide (l = k)) as [->|Hne].
    + destruct Hpre. by apply (prefix_app_r [k] [k] ks).
    + by rewrite dict_get_set_other.
  - intros Hset Hp Hpre. destruct p as [|k ks]; [done |]. simpl in *.
    destruct (decide (a = k)) as [->|Hne].
    + destruct (dict_get k d) as [[y|sub0]|]; [done | | done].
      destruct (nested_set ps l v sub0) as [sub|] eqn:Hsub; [| done].
      simpl in Hset. injection Hset as <-. rewrite dict_get_set_same.
      destruct ks as [|k' ks']; [done |].
      apply (IH sub0 sub (k' :: ks')); [done.. |].
      intros Hin. apply Hpre. by apply prefix_cons.
    + assert (exists sub, d' = dict_set a (NDict sub) d) as [sub ->].
      { destruct (dict_get a d) as [[y|sub0]|]; [done | |];
          destruct (nested_set ps l v _) as [sub|]; try done;
          injection Hset as <-; by eexists. }
      by rewrite dict_get_set_other.
Qed.

(** A value found after a store was there before, or is the one stored. *)
Lemma nested_set_leaf (ps : list string) (l : string) (v : Value)
    (d d' : list (string * Nested)) (q : list string) :
  nested_set ps l v d = Some d' ->
  leaf q d' -> q = ps ++ [l] \/ leaf q d.
Proof.
  revert d d' q. induction ps as [|a ps IH]; intros d d' q; simpl.
  - intros [= <-] Hq. destruct q as [|k ks]; [by apply leaf_nil in Hq |].
    destruct (decide (l = k)) as [->|Hne].
    + apply leaf_cons in Hq. rewrite dict_get_set_same in Hq.
      destruct Hq as [[-> _] | [sub [[=] _]]]. by left.
    + right. apply leaf_cons in Hq. apply leaf_cons.
      by rewrite dict_get_set_other in Hq.
  - intros Hset Hq. destruct q as [|k ks]; [by apply leaf_nil in Hq |].
    destruct (decide (a = k)) as [->|Hne].
    + apply leaf_cons in Hq.
      destruct (dict_get k d) as [[y|sub0]|] eqn:Hk; [done | |].
      * destruct (nested_set ps l v sub0) as [sub|] eqn:Hsub; [| done].
        simpl in Hset. injection Hset as <-. rewrite dict_get_set_same in Hq.
        destruct Hq as [[_ [x [=]]] | [sub' [[= <-] Hleaf]]].
        destruct (IH _ _ _ Hsub Hleaf) as [-> | Hold]; [by left |].
        right. apply leaf_cons. right. eauto.
      * destruct (nested_set ps l v []) as [sub|] eqn:Hsub; [| done].
        simpl in Hset. injection Hset as <-. rewrite dict_get_set_same in Hq.
        destruct Hq as [[_ [x [=]]] | [sub' [[= <-] Hleaf]]].
        destruct (IH _ _ _ Hsub Hleaf) as [-> | Hold]; [by left |].
        by apply leaf_empty in Hold.
    + assert (exists sub, d' = dict_set a (NDict sub) d) as [sub ->].
      { destruct (dict_get a d) as [[y|sub0]|]; [done | |];
          destruct (nested_set ps l v _) as [sub|]; try done;
          injection Hset as <-; by eexists. }
      right. apply leaf_cons in Hq. apply leaf_cons.
      by rewrite dict_get_set_other in Hq.
Qed.

(** The walk along [ps] raises exactly when it comes to a value. *)
Lemma nested_set_fails (ps : list string) (l : string) (v : Value)
    (d : list (string * Nested)) :
  nested_set ps l v d = None <->
  exists q, q `prefix_of` ps /\ leaf q d.
Proof.
  revert d. induction ps as [|a ps IH]; intros d; simpl.
  - split; [done |]. intros (q & ->%prefix_nil_inv & Hq). by apply leaf_nil in Hq.
  - destruct (dict_get a d) as [[y|sub0]|] eqn:Ha.
    + split; [| done]. intros _. exists [a]. split.
      * by apply (prefix_app_r [a] [a] ps).
      * apply leaf_cons. left. eauto.
    + destruct (nested_set ps l v sub0) as [sub|] eqn:Hsub; simpl.
      * split; [done |]. intros (q & Hpre & Hq).
        destruct q as [|k ks]; [by apply leaf_nil in Hq |].
        pose proof (prefix_cons_inv_1 _ _ _ _ Hpre) as ->.
        apply prefix_cons_inv_2 in Hpre.
        apply leaf_cons in Hq. rewrite Ha in Hq.
        destruct Hq as [[_ [x [=]]] | [sub' [[= <-] Hleaf]]].
        assert (nested_set ps l v sub0 = None) as Hnone by (apply IH; eauto).
        congruence.
      * split; [| done]. intros _.
        apply IH in Hsub as (q & Hpre & Hq).
        exists (a :: q). split; [by apply prefix_cons |].
        apply leaf_cons. right. eauto.
    + assert (nested_set ps l v [] <> None) as Hsome.
      { intros (q & _ & Hq)%IH. by apply leaf_empty in Hq. }
      destruct (nested_set ps l v []) as [sub|]; [| done]. simpl.
      split; [done |]. intros (q & Hpre & Hq).
      destruct q as [|k ks]; [by apply leaf_nil in Hq |].
      pose proof (prefix_cons_inv_1 _ _ _ _ Hpre) as ->.
      apply leaf_cons in Hq. rewrite Ha in Hq.
      by destruct Hq as [[_ [x [=]]] | [sub' [[=] _]]].
Qed.

(** Nothing is found beyond a value. *)
Lemma leaf_beyond (q p : list string) (d : list (string * Nested)) :
  leaf q d -> q `prefix_of` p -> q <> p -> nested_get p (NDict d) = None.
Proof.
  revert p d. induction q as [|k ks IH]; intros p d Hq Hpre Hne.
  - by apply leaf_nil in Hq.
  - destruct p as [|k' p']; [by apply prefix_nil_not in Hpre |].
    pose proof (prefix_cons_inv_1 _ _ _ _ Hpre) as ->.
    apply prefix_cons_inv_2 in Hpre.
    apply leaf_cons in Hq. simpl.
    destruct Hq as [[-> [v ->]] | [sub [-> Hleaf]]].
    + destruct p'; [done | done].
    + destruct ks as [|k2 ks2]; [by apply leaf_nil in Hleaf |].
      apply (IH p' sub Hleaf Hpre). congruence.
Qed.

Lemma prefix_both (p q : list string) : p `prefix_of` q -> q `prefix_of` p -> q = p.
Proof. intros Hpq Hqp. apply prefix_length_eq; [done | by apply prefix_length]. Qed.

(** One name's path lies on the way to another's. *)
Definition on_the_way (p q : list string) : Prop := p `prefix_of` q /\ p <> q.

(** What holds of the tree once the names with the paths [done_] are in:
    every value sits at the path of one of them, and on the way to or at the
    path of each of them sits a value. *)
Definition built (done_ : list (list string)) (d : list (string * Nested)) : Prop :=
  (forall q, leaf q d -> q ∈ done_) /\
  (forall p, p ∈ done_ -> exists q, q `prefix_of` p /\ leaf q d).

Lemma built_empty : built [] [].
Proof.
  split; [by intros q ?%leaf_empty | by intros p ?%elem_of_nil].
Qed.

Lemma built_insert (done_ : list (list string)) (d d' : list (string * Nested))
    (key : string) (value : Value) :
  built done_ d -> nested_insert d (key, value) = Some d' ->
  built (keys_of key :: done_) d'.
Proof.
  intros [Hleaves Hdone]. rewrite nested_insert_keys. intros Hset.
  pose proof (nested_set_same _ _ _ _ _ Hset) as Hsame.
  rewrite <- keys_of_last in Hsame.
  split.
  - intros q Hq.
    destruct (nested_set_leaf _ _ _ _ _ _ Hset Hq) as [-> | Hold].
    + rewrite <- keys_of_last. by left.
    + right. by apply Hleaves.
  - intros p [-> | Hp]%elem_of_cons.
    + exists (keys_of key). split; [done |]. by exists value.
    + destruct (Hdone p Hp) as (q & Hpre & [x Hq]).
      destruct (decide (keys_of key `prefix_of` q)) as [Hin | Hout].
      * exists (keys_of key). split; [by trans q |]. by exists value.
      * exists q. split; [done |]. exists x.
        apply (nested_set_keeps _ _ _ _ _ _ _ Hset Hq).
        by rewrite <- keys_of_last.
Qed.

Lemma built_fails (done_ : list (list string)) (d : list (string * Nested))
    (key : string) (value : Value) :
  built done_ d ->
  nested_insert d (key, value) = None <->
  exists p, p ∈ done_ /\ on_the_way p (keys_of key).
Proof.
  intros [Hleaves Hdone]. rewrite nested_insert_keys, nested_set_fails.
  assert (forall q, q `prefix_of` removelast (keys_of key) <-> on_the_way q (keys_of key))
    as Hway.
  { intros q. unfold on_the_way. pose proof (keys_of_last key) as Hk.
    set (ps := removelast (keys_of key)) in *.
    set (l := List.last (keys_of key) EmptyString) in *.
    rewrite Hk. clearbody ps l. split.
    - intros [r ->]. split; [by exists (r ++ [l]); rewrite app_assoc |].
      rewrite <- app_assoc. intros Heq.
      apply (f_equal List.length) in Heq. rewrite !length_app in Heq.
      simpl in Heq. lia.
    - intros [[r Hr] Hne].
      destruct (decide (r = [])) as [-> | Hr'].
      + rewrite app_nil_r in Hr. congruence.
      + rewrite (app_removelast_last EmptyString Hr') in Hr.
        rewrite app_assoc in Hr. apply app_inj_tail in Hr as [-> _].
        by eexists. }
  split.
  - intros (q & Hpre & Hq). exists q. split; [by apply Hleaves | by apply Hway].
  - intros (p & Hp & Hpre & Hne).
    destruct (Hdone p Hp) as (q & Hqp & Hq).
    exists q. split; [| done]. apply Hway. split; [by trans p |].
    intros ->. apply Hne. by apply prefix_both.
Qed.

Lemma nested_fold_fails (items : list (string * Value)) (done_ : list (list string))
    (d : list (string * Nested)) :
  built done_ d ->
  nested_fold items d = None <->
  (exists p kv, p ∈ done_ /\ kv ∈ items /\ on_the_way p (keys_of kv.1)) \/
  (exists i j kv1 kv2, (i < j)%nat /\ items !! i = Some kv1 /\ items !! j = Some kv2 /\
     on_the_way (keys_of kv1.1) (keys_of kv2.1)).
Proof.
  revert done_ d. induction items as [|[key value] rest IH]; intros done_ d Hbuilt.
  - simpl. split; [done |].
    intros [(p & kv & _ & ?%elem_of_nil & _) | (i & j & kv1 & kv2 & _ & Hi & _)]; done.
  - cbn [nested_fold].
    destruct (nested_insert d (key, value)) as [d'|] eqn:Hins; simpl.
    + pose proof (built_insert _ _ _ _ _ Hbuilt Hins) as Hbuilt'.
      assert (~ exists p, p ∈ done_ /\ on_the_way p (keys_of key)) as Hfree.
      { intros Hex. apply (built_fails _ _ key value Hbuilt) in Hex. congruence. }
      rewrite (IH _ _ Hbuilt'). split.
      * intros [(p & kv & [-> | Hp]%elem_of_cons & Hkv & Hway)
               | (i & j & kv1 & kv2 & Hij & Hi & Hj & Hway)].
        -- right. apply list_elem_of_lookup in Hkv as [j Hj].
           exists 0%nat, (S j), (key, value), kv. split_and!; first [lia | done].
        -- left. exists p, kv. split_and!; first [done | by right].
        -- right. exists (S i), (S j), kv1, kv2. split_and!; first [lia | done].
      * intros [(p & kv & Hp & [-> | Hkv]%elem_of_cons & Hway)
               | (i & j & kv1 & kv2 & Hij & Hi & Hj & Hway)].
        -- destruct Hfree. eauto.
        -- left. exists p, kv. split_and!; first [done | by right].
        -- destruct i as [|i].
           ++ injection Hi as <-. destruct j as [|j]; [lia |].
              left. exists (keys_of key), kv2.
              split_and!; first [done | by left | by apply (list_elem_of_lookup_2 rest j)].
           ++ destruct j as [|j]; [lia |].
              right. exists i, j, kv1, kv2. split_and!; first [lia | done].
    + split; [| done]. intros _. left.
      apply (built_fails _ _ key value Hbuilt) in Hins as (p & Hp & Hway).
      exists p, (key, value). split_and!; first [done | by left].
Qed.

(** X10.  [_convert_to_nested_structure] raises [TypeError] exactly when the
    path of one name lies on the way to the path of a name that comes later
    in the payload, as [a] does for [a.b]; in every other order, and for
    every other pair of names, it returns. *)
Theorem convert_raises_iff_earlier_on_the_way (attributes : list (string * Value)) :
  _convert_to_nested_structure attributes = None <->
  exists i j kv1 kv2,
    (i < j)%nat /\ attributes !! i = Some kv1 /\ attributes !! j = Some kv2 /\
    on_the_way (keys_of kv1.1) (keys_of kv2.1).
Proof.
  unfold _convert_to_nested_structure.
  rewrite fmap_None, (nested_fold_fails attributes [] [] built_empty).
  split; [| by right].
  intros [(p & kv & ?%elem_of_nil & _) | H]; done.
Qed.

Lemma nested_fold_keeps (items : list (string * Value)) (d d' : list (string * Nested))
    (p : list string) (x : Value) :
  nested_fold items d = Some d' ->
  nested_get p (NDict d) = Some (NVal x) ->
  Forall (fun kv => ~ keys_of kv.1 `prefix_of` p) items ->
  nested_get p (NDict d') = Some (NVal x).
Proof.
  revert d. induction items as [|[key value] rest IH]; intros d; cbn [nested_fold].
  - by intros [= <-].
  - destruct (nested_insert d (key, value)) as [d1|] eqn:Hins; [| done]. simpl.
    intros Hrest Hp [Hkey Hfree]%Forall_cons. simpl in Hkey.
    apply (IH d1); [done | | done].
    rewrite nested_insert_keys in Hins.
    apply (nested_set_keeps _ _ _ _ _ _ _ Hins Hp).
    by rewrite <- keys_of_last.
Qed.

Lemma nested_fold_beyond (items : list (string * Value)) (d d' : list (string * Nested))
    (p : list string) :
  nested_fold items d = Some d' ->
  (exists q, on_the_way q p /\ leaf q d) ->
  exists q, on_the_way q p /\ leaf q d'.
Proof.
  revert d. induction items as [|[key value] rest IH]; intros d; cbn [nested_fold].
  - by intros [= <-].
  - destruct (nested_insert d (key, value)) as [d1|] eqn:Hins; [| done]. simpl.
    intros Hrest (q & [Hpre Hne] & [x Hq]). apply (IH d1); [done |].
    rewrite nested_insert_keys in Hins.
    destruct (decide (keys_of key `prefix_of` q)) as [Hin | Hout].
    + exists (keys_of key). split.
      * split; [by trans q |]. intros Heq. rewrite Heq in Hin.
        apply Hne. symmetry. by apply prefix_both.
      * exists value. rewrite (keys_of_last key). by apply nested_set_same with d.
    + exists q. split; [done |]. exists x.
      apply (nested_set_keeps _ _ _ _ _ _ _ Hins Hq).
      by rewrite <- keys_of_last.
Qed.

(** X11.  In the payload [_convert_to_nested_structure] returns, a name is
    found at its path with its value when no later name has a path on the way
    to it or equal to it; when a later name's path lies on the way to it, as
    [a] after [a.b], nothing is found at its path: the later name took the
    place of the [dict] the earlier one was stored in, and no exception tells
    of it. *)
Theorem convert_keeps_or_drops (before later : list (string * Value))
    (key : string) (value : Value) (nested : Nested) :
  _convert_to_nested_structure (before ++ (key, value) :: later) = Some nested ->
  (Forall (fun kv => ~ keys_of kv.1 `prefix_of` keys_of key) later ->
   nested_get (keys_of key) nested = Some (NVal value)) /\
  (Exists (fun kv => on_the_way (keys_of kv.1) (keys_of key)) later ->
   nested_get (keys_of key) nested = None).
Proof.
  unfold _convert_to_nested_structure. intros Hconv.
  apply fmap_Some in Hconv as (d' & Hfold & ->).
  assert (forall items1 items2 d0 d2,
            nested_fold (items1 ++ items2) d0 = Some d2 ->
            exists d1, nested_fold items1 d0 = Some d1 /\ nested_fold items2 d1 = Some d2)
    as Hsplit.
  { induction items1 as [|kv items1 IH]; intros items2 d0 d2; [by eexists |].
    cbn [app nested_fold].
    destruct (nested_insert d0 kv) as [d1|]; [| done]. simpl. apply IH. }
  apply Hsplit in Hfold as (d0 & _ & Hfold).
  cbn [nested_fold] in Hfold.
  destruct (nested_insert d0 (key, value)) as [d1|] eqn:Hins; [| done].
  simpl in Hfold. rewrite nested_insert_keys in Hins.
  pose proof (nested_set_same _ _ _ _ _ Hins) as Hsame.
  rewrite <- keys_of_last in Hsame.
  split.
  - intros Hfree. by apply (nested_fold_keeps later d1).
  - intros Hshadow.
    assert (forall items d2 d3,
              nested_fold items d2 = Some d3 ->
              Exists (fun kv => on_the_way (keys_of kv.1) (keys_of key)) items ->
              exists q, on_the_way q (keys_of key) /\ leaf q d3) as Hdrop.
    { intros items d2 d3 Hrun Hex. revert d2 Hrun.
      induction Hex as [[k v] rest Hway | [k v] rest Hex IH]; intros d2;
        cbn [nested_fold];
        (destruct (nested_insert d2 (k, v)) as [d4|] eqn:Hd4; [| done]); simpl.
      - intros Hrun. apply (nested_fold_beyond rest d4); [done |].
        exists (keys_of k). split; [done |]. exists v.
        rewrite nested_insert_keys in Hd4. rewrite (keys_of_last k).
        by apply nested_set_same with d2.
      - apply IH. }
    destruct (Hdrop _ _ _ Hfold Hshadow) as (q & [Hpre Hne] & Hq).
    by apply (leaf_beyond q).
Qed.

(** ** The status merge of the local protocol, [_parse_message] *)

Section LocalMerge.

Variable py_eval : Python.

(** One round of the loop over [status.keys()]: a value that differs from
    the stored one goes into the store and into [new_status]. *)
Definition store_report (st : Attrs * Attrs) (single : string) (value : Value)
    : Attrs * Attrs :=
  if differs (fst st) single value
  then (<[single := value]> (fst st), <[single := value]> (snd st))
  else st.

Definition local_overlay (attrs status : Attrs) : Attrs * Attrs :=
  map_fold (fun single value st => store_report st single value) (attrs, ∅) status.

(** The statement handed to [exec]: every opening bracket of the lvalue gets
    [target] in front and every opening bracket of the rvalue [source]; then,
    in the whole statement, every opening bracket gets a quote behind and
    every closing bracket a quote in front.  [calculate_str1] has
    [self._attributes] for both; [calculate_str2] has [new_status] for
    [target] and [self._attributes] for [source]. *)
Definition local_calculate_str (target source lv rv : string) : string :=
  replace_char "]" (quote +:+ "]")
    (replace_char "[" ("[" +:+ quote)
       (replace_char "[" (target +:+ "[") lv +:+ " = " +:+
        replace_char "[" (source +:+ "[") rv)).

(** One iteration of [for c in self._calculate_get]: both statements run in
    one [try].  For an lvalue [[p]] and an rvalue that is an expression they
    are two assignments of the rvalue read over the store, the first to the
    key [p] of the store and the second to the key [p] of [new_status]: the
    second is not reached when the first raises, and it reads the store the
    first has written.  Every other pair of statements is executed all the
    same: the two mappings are then what [statements] makes of them. *)
Definition apply_local_rule (st : Attrs * Attrs) (c : Rule) : Attrs * Attrs :=
  if fires c (snd st) then
    match lvalue_target (lvalue c), expression py_eval (rvalue c) with
    | Some p, Some value =>
        match value (fst st) with
        | Some v =>
            let attrs := <[p := v]> (fst st) in
            match value attrs with
            | Some v' => (attrs, <[p := v']> (snd st))
            | None => (attrs, snd st)
            end
        | None => st
        end
    | _, _ => statements py_eval (lvalue c) (rvalue c) st
    end
  else st.

(** The store and the delta the merge of one decoded status ends with. *)
Definition local_merge (rules : list Rule) (attrs status : Attrs) : Attrs * Attrs :=
  let st := local_overlay attrs status in
  if bool_decide (snd st = ∅) then st else fold_left apply_local_rule rules st.

End LocalMerge.

(** What the local protocol asks of the security layer and of the codec. *)
Record LocalEnv (W : Type) : Type := {
  (** [self._security.decode_8370(data)]: the messages and the rest *)
  decode_8370 : list byte -> W -> (Exn + (list (list byte) * list byte)) * W;
  (** [self._security.aes_decrypt(data)] *)
  aes_decrypt : list byte -> W -> (Exn + list byte) * W;
  (** [self._lua_runtime.decode_status(data.hex())] *)
  decode_status : list byte -> W -> (Exn + option Attrs) * W;
}.

Arguments decode_8370 {W}.
Arguments aes_decrypt {W}.
Arguments decode_status {W}.

(** A call that leaves no entry in the trace. *)
Definition ask {W A} (f : W -> (Exn + A) * W) : M W A :=
  fun s w => let '(r, w') := f w in mkRun r s w' [].

#[global] Instance byte_eq_dec : EqDecision byte := Byte.byte_eq_dec.

(** The bytes of the literal ERROR. *)
Definition error_message : list byte := [Byte.x45; Byte.x52; Byte.x52; Byte.x4f; Byte.x52].

Section LocalDevice.

Context {W : Type} (E : Env W) (L : LocalEnv W) (cfg : Config).

(** The first statement of [_parse_message]: the messages in
    [self._buffer + msg] and the new [self._buffer].  [self.fetch_v2_message]
    is no attribute of the class, whose method is [_fetch_v2_message]. *)
Definition split_stream (protocol : Z) (buffer msg : list byte)
    : M W (list (list byte) * list byte) :=
  if protocol =? 3 then ask (decode_8370 L (buffer ++ msg))
  else raise AttributeError.

(** The body of [if status := ...]: the loop over the report, then, when
    [new_status] is not empty, the rules and the callbacks. *)
Definition merge_decoded (status : Attrs) (update : bool) : M W unit :=
  attrs <- get_attributes ;;
  let st := local_overlay attrs status in
  put_attributes (fst st) ;;
  if bool_decide (snd st = ∅) then ret tt
  else
    let st := fold_left (apply_local_rule (py_eval E)) (calculate_get cfg) st in
    put_attributes (fst st) ;;
    if update then _update_all cfg (snd st) else ret tt.

(** The branch of one message that is neither the literal ERROR nor a
    heartbeat. *)
Definition handle_payload (message : list byte) (update : bool) : M W unit :=
  let payload_len := alleged_msg_len message - 56 in
  if bool_decide (Z.of_nat (List.length message) > 56) then
    let cryptographic := take (List.length message - 56) (drop 40 message) in
    if bool_decide (payload_len `mod` 16 = 0) then
      decrypted <- ask (aes_decrypt L cryptographic) ;;
      status <- (if has_lua_runtime cfg then ask (decode_status L decrypted)
                 else raise AttributeError) ;;
      match truthy_status status with
      | Some status => merge_decoded status update
      | None => ret tt
      end
    else ret tt
  else ret tt.

(** [for message in messages: ...] and the [return] after it. *)
Fixpoint handle_messages (messages : list (list byte)) (update : bool)
    : M W ParseMessageResult :=
  match messages with
  | [] => ret SUCCESS
  | message :: rest =>
      if bool_decide (message = error_message) then ret ERROR
      else if bool_decide (List.length message < 6)%nat
      then raise (OtherError "IndexError")
      else
        let payload_type := byte_at message 2 + Z.shiftl (byte_at message 3) 8 in
        (if bool_decide (payload_type = 4097 \/ payload_type = 1) then ret tt
         else handle_payload message update) ;;
        handle_messages rest update
  end.

(** [_parse_message]: the result, and [self._buffer] as the first statement
    left it. *)
Definition _parse_message (protocol : Z) (buffer msg : list byte) (update : bool)
    : M W (ParseMessageResult * list byte) :=
  split <- split_stream protocol buffer msg ;;
  if bool_decide (List.length (fst split) = 0%nat) then ret (PADDING, snd split)
  else
    result <- handle_messages (fst split) update ;;
    ret (result, snd split).

End LocalDevice.

Lemma local_calculate_str_assignment (target source l p rv : string) :
  lvalue_target l = Some p ->
  lacks "[" target = true -> lacks "]" target = true ->
  local_calculate_str target source l rv =
    target +:+ "[" +:+ quote +:+ p +:+ quote +:+ "]" +:+
    replace_char "]" (quote +:+ "]")
      (replace_char "[" ("[" +:+ quote)
         (" = " +:+ replace_char "[" (source +:+ "[") rv)).
Proof.
  intros (-> & Hp1 & Hp2 & Hp3)%lvalue_target_spec Hm1 Hm2.
  unfold local_calculate_str, quote.
  repeat progress
    (rewrite ?append_assoc, ?append_cons, ?append_nil_l, ?replace_char_app; simpl;
     rewrite ?(replace_char_lacks _ _ p), ?(replace_char_lacks _ _ target) by done).
  done.
Qed.

Lemma value_eq_refl (v : Value) : value_eq v v = true.
Proof.
  destruct v as [|b|z|s]; simpl; [done | apply Z.eqb_refl | apply Z.eqb_refl |].
  by apply bool_decide_eq_true_2.
Qed.

(** What the loop over the report leaves for one attribute. *)
Lemma local_overlay_lookup (attrs status : Attrs) (k : string) :
  fst (local_overlay attrs status) !! k =
    match status !! k with
    | Some v => if differs attrs k v then Some v else attrs !! k
    | None => attrs !! k
    end /\
  snd (local_overlay attrs status) !! k =
    match status !! k with
    | Some v => if differs attrs k v then Some v else None
    | None => None
    end.
Proof.
  unfold local_overlay. revert k.
  apply (map_fold_weak_ind (fun (r : Attrs * Attrs) (m : Attrs) => forall k,
    fst r !! k = match m !! k with
                 | Some v => if differs attrs k v then Some v else attrs !! k
                 | None => attrs !! k
                 end /\
    snd r !! k = match m !! k with
                 | Some v => if differs attrs k v then Some v else None
                 | None => None
                 end)).
  - intros k. by rewrite !lookup_empty.
  - intros i x m r Hi IH k. unfold store_report.
    assert (differs (fst r) i x = differs attrs i x) as ->.
    { unfold differs. destruct (IH i) as [-> _]. by rewrite Hi. }
    destruct (IH k) as [IH1 IH2].
    destruct (decide (i = k)) as [->|Hne].
    + rewrite (lookup_insert_eq m). rewrite Hi in IH1, IH2.
      destruct (differs attrs k x); simpl; [by rewrite !lookup_insert_eq | done].
    + rewrite (lookup_insert_ne m) by done.
      destruct (differs attrs i x); simpl; [by rewrite !lookup_insert_ne | done].
Qed.

Lemma apply_local_rule_other (py_eval : Python) (st : Attrs * Attrs) (c : Rule)
    (k : string) :
  (truthy_str (lvalue c) && truthy_str (rvalue c) = true ->
   exists p value,
     lvalue_target (lvalue c) = Some p /\
     expression py_eval (rvalue c) = Some value /\ p <> k) ->
  fst (apply_local_rule py_eval st c) !! k = fst st !! k /\
  snd (apply_local_rule py_eval st c) !! k = snd st !! k.
Proof.
  intros Hshape. unfold apply_local_rule.
  destruct (fires c (snd st)) eqn:Hfires; [| done].
  destruct (Hshape (fires_live c (snd st) Hfires)) as (p & value & -> & -> & Hk).
  destruct (value (fst st)); [| done].
  destruct (value _); simpl; by rewrite !lookup_insert_ne.
Qed.

Lemma local_derive_other (py_eval : Python) (rules : list Rule) (st : Attrs * Attrs)
    (k : string) :
  assigned py_eval rules k = false ->
  fst (fold_left (apply_local_rule py_eval) rules st) !! k = fst st !! k /\
  snd (fold_left (apply_local_rule py_eval) rules st) !! k = snd st !! k.
Proof.
  intros Hk. pose proof (assigned_false py_eval _ _ Hk) as Hrules. clear Hk.
  revert st. induction rules as [|c rules IH]; intros st; [done |]. simpl.
  assert (forall c', c' ∈ rules ->
            truthy_str (lvalue c') && truthy_str (rvalue c') = true ->
            exists p value,
              lvalue_target (lvalue c') = Some p /\
              expression py_eval (rvalue c') = Some value /\ p <> k) as Hrest
    by (intros c' Hin; apply Hrules; by right).
  destruct (IH Hrest (apply_local_rule py_eval st c)) as [-> ->].
  apply apply_local_rule_other, Hrules. by left.
Qed.

Lemma local_merge_unassigned (py_eval : Python) (rules : list Rule)
    (attrs status : Attrs) (k : string) :
  assigned py_eval rules k = false ->
  fst (local_merge py_eval rules attrs status) !! k =
    fst (local_overlay attrs status) !! k /\
  snd (local_merge py_eval rules attrs status) !! k =
    snd (local_overlay attrs status) !! k.
Proof.
  intros Hk. unfold local_merge. case_bool_decide; [done |].
  by apply local_derive_other.
Qed.

Section LocalClaims.

Context {W : Type} (E : Env W) (cfg : Config).

(** The whole run of the merge of one decoded status, in closed form. *)
Lemma merge_decoded_run (status : Attrs) (update : bool) (a : Attrs) (w : W) :
  merge_decoded E cfg status update a w =
    mkRun (inr tt) (fst (local_merge (py_eval E) (calculate_get cfg) a status)) w
      (if update
       then notifications cfg (snd (local_overlay a status))
              (snd (local_merge (py_eval E) (calculate_get cfg) a status))
       else []).
Proof.
  unfold merge_decoded, local_merge, notifications, _update_all.
  rewrite bind_get. cbv zeta. rewrite bind_put.
  case_bool_decide as He.
  - simpl. by destruct update.
  - rewrite bind_put. destruct update; [| done].
    by rewrite (for_each_emit (fun u => Notify u _)).
Qed.

Lemma local_merge_reported (rules : list Rule) (attrs status : Attrs)
    (k : string) (v : Value) :
  assigned (py_eval E) rules k = false ->
  status !! k = Some v ->
  exists x, fst (local_merge (py_eval E) rules attrs status) !! k = Some x /\
            value_eq x v = true.
Proof.
  intros Hk Hv.
  destruct (local_merge_unassigned (py_eval E) rules attrs status k Hk) as [-> _].
  destruct (local_overlay_lookup attrs status k) as [-> _]. rewrite Hv.
  destruct (differs attrs k v) eqn:Hd.
  - exists v. split; [done | apply value_eq_refl].
  - by apply differs_false in Hd.
Qed.

(** The loop over a report the store already agrees with stages nothing. *)
Lemma local_overlay_again (rules : list Rule) (attrs status : Attrs) :
  (forall k, is_Some (status !! k) -> assigned (py_eval E) rules k = false) ->
  local_overlay (fst (local_merge (py_eval E) rules attrs status)) status =
    (fst (local_merge (py_eval E) rules attrs status), ∅).
Proof.
  intros Hfree.
  set (a1 := fst (local_merge (py_eval E) rules attrs status)).
  assert (forall k v, status !! k = Some v -> differs a1 k v = false) as Hsame.
  { intros k v Hv. apply differs_false.
    apply local_merge_reported; [apply Hfree; by exists v | done]. }
  destruct (local_overlay a1 status) as [s1 s2] eqn:Hst. f_equal.
  - apply map_eq. intros k.
    pose proof (local_overlay_lookup a1 status k) as [H1 _].
    rewrite Hst in H1. simpl in H1. rewrite H1.
    destruct (status !! k) as [v|] eqn:Hv; [| done]. by rewrite (Hsame k v).
  - apply map_eq. intros k.
    pose proof (local_overlay_lookup a1 status k) as [_ H2].
    rewrite Hst in H2. simpl in H2. rewrite H2, lookup_empty.
    destruct (status !! k) as [v|] eqn:Hv; [| done]. by rewrite (Hsame k v).
Qed.

(** X12.  The merge of the local protocol stores what it is told: after the
    merge of a decoded status, an attribute that was reported and that no
    calculate rule may assign is in the store with a value equal to the
    reported one; the delta the subscribers are called with holds it exactly
    when the store did not hold an equal value before, and nobody is called
    when [update] is false.  A rule that is not the assignment of an
    expression to one bracketed path counts as one that may assign every
    attribute. *)
Theorem local_merge_stores_report (status : Attrs) (update : bool) (a : Attrs) (w : W)
    (k : string) (v : Value) :
  assigned (py_eval E) (calculate_get cfg) k = false ->
  status !! k = Some v ->
  (exists x, final (merge_decoded E cfg status update a w) !! k = Some x /\
             value_eq x v = true) /\
  exists delta,
    emitted (merge_decoded E cfg status update a w) =
      (if update then notifications cfg (snd (local_overlay a status)) delta else []) /\
    delta !! k = (if differs a k v then Some v else None).
Proof.
  intros Hk Hv. rewrite merge_decoded_run. simpl.
  split; [by apply local_merge_reported |].
  eexists. split; [done |].
  destruct (local_merge_unassigned (py_eval E) (calculate_get cfg) a status k Hk)
    as [_ ->].
  destruct (local_overlay_lookup a status k) as [_ ->]. by rewrite Hv.
Qed.

(** X13.  A report merged a second time is silent: when no calculate rule
    may assign a reported attribute, the merge of the same decoded status
    into the store the first merge left changes nothing and calls no
    subscriber. *)
Theorem local_merge_twice (status : Attrs) (update : bool) (a : Attrs) (w : W) :
  (forall k, is_Some (status !! k) ->
     assigned (py_eval E) (calculate_get cfg) k = false) ->
  merge_decoded E cfg status update
      (final (merge_decoded E cfg status update a w))
      (world (merge_decoded E cfg status update a w)) =
    mkRun (inr tt) (final (merge_decoded E cfg status update a w))
      (world (merge_decoded E cfg status update a w)) [].
Proof.
  intros Hfree. rewrite (merge_decoded_run status update a w). simpl.
  rewrite merge_decoded_run.
  pose proof (local_overlay_again _ a status Hfree) as Hover.
  set (a1 := fst (local_merge (py_eval E) (calculate_get cfg) a status)) in *.
  assert (local_merge (py_eval E) (calculate_get cfg) a1 status = (a1, ∅)) as ->.
  { unfold local_merge. rewrite Hover. simpl. by rewrite bool_decide_eq_true_2. }
  rewrite Hover. simpl. unfold notifications.
  rewrite bool_decide_eq_true_2 by done. by destruct update.
Qed.

End LocalClaims.

Section LocalRuns.

Context {W : Type} (E : Env W) (L : LocalEnv W) (cfg : Config).

Lemma handle_messages_result (messages : list (list byte)) (update : bool)
    (a : Attrs) (w : W) (r : ParseMessageResult) :
  outcome (handle_messages E L cfg messages update a w) = inr r ->
  r <> PADDING /\ (r = ERROR <-> error_message ∈ messages).
Proof.
  revert a w. induction messages as [|m rest IH]; intros a w; cbn [handle_messages].
  - intros [= <-]. split; [done |]. split; [done | by intros ?%elem_of_nil].
  - case_bool_decide as Herr.
    + intros [= <-]. split; [done |]. split; [| done]. intros _. subst m. by left.
    + case_bool_decide; [done |].
      match goal with
      | |- context [bind ?m _ a w] =>
          rewrite (bind_run m); destruct (outcome (m a w)) as [e|[]]
      end; simpl; [done |].
      intros Hrest. apply IH in Hrest as [Hpad Hiff]. split; [done |].
      rewrite Hiff. split; [by right |].
      intros [?|?]%elem_of_cons; [congruence | done].
Qed.

Lemma handle_messages_stops (before after_ : list (list byte)) (update : bool)
    (a : Attrs) (w : W) :
  handle_messages E L cfg (before ++ error_message :: after_) update a w =
  handle_messages E L cfg (before ++ [error_message]) update a w.
Proof.
  revert a w. induction before as [|m rest IH]; intros a w;
    cbn [app handle_messages].
  - by rewrite bool_decide_eq_true_2.
  - case_bool_decide; [done |]. case_bool_decide; [done |].
    match goal with
    | |- context [bind ?m _ a w] =>
        rewrite !(bind_run m); destruct (outcome (m a w)) as [e|[]]
    end; simpl; [done |].
    by rewrite IH.
Qed.

(** X14.  What [_parse_message] answers.  With a protocol other than 3 it
    raises [AttributeError] before it has touched anything, since the method
    it asks for does not exist under that name.  With protocol 3, a call that
    returns has kept the rest the security layer handed back as the buffer,
    answers [PADDING] exactly when there was no message and [ERROR] exactly
    when one of the messages was the literal ERROR; and what follows that
    message in the same batch is never looked at, while what came before it
    has been merged. *)
Theorem parse_message_answers (protocol : Z) (buffer msg : list byte)
    (update : bool) (a : Attrs) (w : W) :
  (protocol <> 3 ->
   _parse_message E L cfg protocol buffer msg update a w =
     mkRun (inl AttributeError) a w []) /\
  (protocol = 3 ->
   forall messages rest w1 r buffer',
     decode_8370 L (buffer ++ msg) w = (inr (messages, rest), w1) ->
     outcome (_parse_message E L cfg protocol buffer msg update a w) =
       inr (r, buffer') ->
     buffer' = rest /\
     (r = PADDING <-> messages = []) /\
     (r = ERROR <-> error_message ∈ messages)) /\
  (forall before after_ a0 w0,
     handle_messages E L cfg (before ++ error_message :: after_) update a0 w0 =
     handle_messages E L cfg (before ++ [error_message]) update a0 w0).
Proof.
  split; [| split].
  - intros Hp. unfold _parse_message, split_stream.
    apply Z.eqb_neq in Hp. by rewrite Hp.
  - intros -> messages rest w1 r buffer' Hdec.
    assert (ask (decode_8370 L (buffer ++ msg)) a w =
            mkRun (inr (messages, rest)) a w1 []) as Hask
      by (unfold ask; by rewrite Hdec).
    unfold _parse_message, split_stream. simpl.
    rewrite (bind_after _ _ _ _ _ _ _ _ Hask), after_nil. simpl.
    case_bool_decide as Hnone.
    + intros [= <- <-]. split; [done |].
      destruct messages; [| done].
      split; [done |]. split; [done | by intros ?%elem_of_nil].
    + rewrite bind_run.
      destruct (outcome (handle_messages E L cfg messages update a w1))
        as [e|r0] eqn:Hout; simpl; [done |].
      intros [= <- <-]. split; [done |].
      apply handle_messages_result in Hout as [Hpad Hiff].
      split; [| done]. split; [done |]. intros ->. done.
  - intros. apply handle_messages_stops.
Qed.

End LocalRuns.

(** * The presets of [async_setup_entry] *)

(** What a device mapping holds: Python values, a [dict] with its items in
    order. *)
Inductive Obj : Type :=
  | ONone
  | OBool (b : bool)
  | OInt (z : Z)
  | OStr (s : string)
  | OList (l : list Obj)
  | ODict (d : list (string * Obj)).

(** Truth value of an object. *)
Definition truthy (v : Obj) : bool :=
  match v with
  | ONone => false
  | OBool b => b
  | OInt z => negb (z =? 0)
  | OStr s => truthy_str s
  | OList l => match l with [] => false | _ => true end
  | ODict d => match d with [] => false | _ => true end
  end.

(** [d.get(k) or {}] *)
Definition or_empty (o : option Obj) : Obj :=
  match o with
  | Some v => if truthy v then v else ODict []
  | None => ODict []
  end.

Definition attribute_names : list string :=
  ["power"; "aux_heat"; "current_temperature"; "target_temperature"; "oscillate";
   "min_temp"; "max_temp"].

Definition map_names : list string :=
  ["hvac_modes"; "preset_modes"; "swing_modes"; "fan_modes"; "operation_list";
   "options"].

(** The platforms whose entity keys are attribute names. *)
Definition keyed_platforms : list string :=
  ["sensor"; "binary_sensor"; "switch"; "fan"; "select"; "vacuum"].

(** [v = ecfg.get(k)]: a [str] names one attribute, a [list] the ones of its
    elements that are a [str]. *)
Definition named_by (v : option Obj) : list string :=
  match v with
  | Some (OStr s) => [s]
  | Some (OList l) =>
      flat_map (fun vv => match vv with OStr s => [s] | _ => [] end) l
  | _ => []
  end.

(** The keys of the conditions of one map of modes. *)
Definition condition_keys (maps : Obj) : list string :=
  match maps with
  | ODict d =>
      flat_map (fun kv => match snd kv with
                          | ODict cond => map fst cond
                          | _ => []
                          end) d
  | _ => []
  end.

(** What the two inner loops add for one entity. *)
Definition entity_preset_keys (ecfg : list (string * Obj)) : list string :=
  flat_map (fun k => named_by (dict_get k ecfg)) attribute_names ++
  flat_map (fun map_key => condition_keys (or_empty (dict_get map_key ecfg)))
           map_names.

(** The first loop over [entities_cfg.values()]. *)
Definition platform_preset_keys (platform_cfg : Obj) : list string :=
  match platform_cfg with
  | ODict d =>
      flat_map (fun kv => match snd kv with
                          | ODict ecfg => entity_preset_keys ecfg
                          | _ => []
                          end) d
  | _ => []
  end.

(** The second loop, over [entities_cfg.items()]. *)
Definition platform_entity_keys (platform_name : string) (platform_cfg : Obj)
    : list string :=
  match platform_cfg with
  | ODict d =>
      if bool_decide (platform_name ∈ keyed_platforms) then map fst d else []
  | _ => []
  end.

(** [preset_keys], or [None] when [entities_cfg] has no [values()] and the
    [try] is left. *)
Definition preset_keys (centralized : list string) (entities : option Obj)
    : option (list string) :=
  match or_empty entities with
  | ODict entities_cfg =>
      Some (centralized ++
            flat_map (fun kv => platform_preset_keys (snd kv)) entities_cfg ++
            flat_map (fun kv => platform_entity_keys (fst kv) (snd kv)) entities_cfg)
  | _ => None
  end.

(** [if k not in device.attributes: device.attributes[k] = None] *)
Definition preset (attrs : Attrs) (k : string) : Attrs :=
  if bool_decide (is_Some (attrs !! k)) then attrs else <[k := VNone]> attrs.

(** The whole [try] block: the store of the device after it. *)
Definition preset_attributes (device_type : Z) (centralized : list string)
    (entities : option Obj) (attrs : Attrs) : Attrs :=
  match preset_keys centralized entities with
  | Some keys =>
      let attrs := fold_left preset keys attrs in
      if device_type =? 217 then <["db_location_selection" := VStr "left"]> attrs
      else attrs
  | None => attrs
  end.

Lemma preset_fold_known (keys : list string) (attrs : Attrs) (k : string) :
  k ∈ keys -> is_Some (fold_left preset keys attrs !! k).
Proof.
  assert (forall keys attrs, is_Some (attrs !! k) ->
                             is_Some (fold_left preset keys attrs !! k)) as Hkeep.
  { clear. induction keys as [|x keys IH]; intros attrs Hk; [done |].
    simpl. apply IH. unfold preset. case_bool_decide; [done |].
    destruct (decide (x = k)) as [->|Hne].
    - by rewrite lookup_insert_eq.
    - by rewrite lookup_insert_ne. }
  revert attrs. induction keys as [|x keys IH]; intros attrs Hin.
  - by apply elem_of_nil in Hin.
  - simpl. apply elem_of_cons in Hin as [<- | Hin]; [| by apply IH].
    apply Hkeep. unfold preset. case_bool_decide; [done |].
    by rewrite lookup_insert_eq.
Qed.

Lemma preset_fold_keeps (keys : list string) (attrs : Attrs) (k : string) (v : Value) :
  attrs !! k = Some v -> fold_left preset keys attrs !! k = Some v.
Proof.
  revert attrs. induction keys as [|x keys IH]; intros attrs Hk; [done |].
  simpl. apply IH. unfold preset. case_bool_decide as Hx; [done |].
  rewrite lookup_insert_ne; [done |]. intros ->. apply Hx. eauto.
Qed.

Lemma preset_fold_new (keys : list string) (attrs : Attrs) (k : string) :
  attrs !! k = None ->
  fold_left preset keys attrs !! k = if bool_decide (k ∈ keys) then Some VNone else None.
Proof.
  revert attrs. induction keys as [|x keys IH]; intros attrs Hk.
  - cbn [fold_left]. rewrite bool_decide_eq_false_2; [done | by intros ?%elem_of_nil].
  - cbn [fold_left]. destruct (decide (x = k)) as [->|Hne].
    + rewrite bool_decide_eq_true_2 by (by left).
      apply preset_fold_keeps. unfold preset.
      rewrite bool_decide_eq_false_2 by (rewrite Hk; by intros [? ?]).
      by rewrite lookup_insert_eq.
    + rewrite IH.
      * destruct (decide (k ∈ keys)) as [Hin|Hout].
        -- rewrite !bool_decide_eq_true_2; [done | by right | done].
        -- rewrite !bool_decide_eq_false_2; [done | | done].
           intros [?|?]%elem_of_cons; congruence.
      * unfold preset. destruct (bool_decide (is_Some (attrs !! x))); [done |].
        by rewrite lookup_insert_ne.
Qed.

(** X15.  What the setup leaves in the store of a device whose mapping has a
    [dict] of entities, or none: every centralized attribute and every entity
    key of a sensor, binary sensor, switch, fan, select or vacuum platform is
    known to the store; an attribute that was there keeps its value and a new
    one is [None]; nothing else is added; and on a device of type 0xD9 the
    drum selection is set to left whatever it was. *)
Theorem presets_make_known (device_type : Z) (centralized : list string)
    (entities : option Obj) (entities_cfg : list (string * Obj)) (attrs : Attrs) :
  or_empty entities = ODict entities_cfg ->
  (forall c, c ∈ centralized ->
     is_Some (preset_attributes device_type centralized entities attrs !! c)) /\
  (forall platform platform_cfg entity_key ecfg,
     (platform, ODict platform_cfg) ∈ entities_cfg ->
     platform ∈ keyed_platforms ->
     (entity_key, ecfg) ∈ platform_cfg ->
     is_Some (preset_attributes device_type centralized entities attrs !! entity_key)) /\
  (forall k, (device_type = 217 -> k <> "db_location_selection") ->
     preset_attributes device_type centralized entities attrs !! k =
       match attrs !! k with
       | Some v => Some v
       | None =>
           if bool_decide (k ∈ default [] (preset_keys centralized entities))
           then Some VNone else None
       end) /\
  (device_type = 217 ->
   preset_attributes device_type centralized entities attrs !! "db_location_selection" =
     Some (VStr "left")).
Proof.
  intros Hcfg. unfold preset_attributes, preset_keys. rewrite Hcfg.
  set (keys := centralized ++ _ ++ _). simpl.
  assert (forall k, is_Some (fold_left preset keys attrs !! k) ->
            is_Some ((if device_type =? 217
                      then <["db_location_selection" := VStr "left"]>
                             (fold_left preset keys attrs)
                      else fold_left preset keys attrs) !! k)) as Hlabel.
  { intros k Hk. destruct (device_type =? 217); [| done].
    destruct (decide ("db_location_selection" = k)) as [<-|Hne].
    - by rewrite lookup_insert_eq.
    - by rewrite lookup_insert_ne. }
  split; [| split; [| split]].
  - intros c Hc. apply Hlabel, preset_fold_known.
    apply elem_of_app. by left.
  - intros platform platform_cfg entity_key ecfg Hplatform Hkeyed Hentity.
    apply Hlabel, preset_fold_known.
    apply elem_of_app. right. apply elem_of_app. right.
    apply list_elem_of_In, in_flat_map.
    exists (platform, ODict platform_cfg). split; [by apply list_elem_of_In |].
    simpl. rewrite bool_decide_eq_true_2 by done.
    apply list_elem_of_In, list_elem_of_fmap. by exists (entity_key, ecfg).
  - intros k Hk.
    assert ((if device_type =? 217
             then <["db_location_selection" := VStr "left"]>
                    (fold_left preset keys attrs)
             else fold_left preset keys attrs) !! k =
            fold_left preset keys attrs !! k) as ->.
    { destruct (device_type =? 217) eqn:Ht; [| done].
      apply Z.eqb_eq in Ht. rewrite lookup_insert_ne; [done |].
      intros <-. by apply Hk. }
    destruct (attrs !! k) as [v|] eqn:Ha.
    + by apply preset_fold_keeps.
    + by apply preset_fold_new.
  - intros ->. simpl. by rewrite lookup_insert_eq.
Qed.

Section AfterSetup.

Context {W : Type} (E : Env W) (cfg : Config).



End AfterSetup.

(** ** Selecting a drum *)

Section Selection.

Context {W : Type} (E : Env W) (cfg : Config).

Lemma set_attribute_selection (value : Value) (a : Attrs) (w : W) :
  device_type cfg = 217 ->
  is_Some (a !! "db_location_selection") ->
  set_attribute E cfg "db_location_selection" value a w =
    bind (select_location value
            (dict_set "db_location_selection" value (centralized_status cfg a)))
         (after_selection E cfg value) a w.
Proof.
  intros Htype Hknown. unfold set_attribute, new_control_status.
  rewrite bind_get, bool_decide_eq_true_2 by done.
  rewrite bind_bind, bind_get, Htype. simpl.
  unfold d9_set_attribute. rewrite bool_decide_eq_true_2 by done.
  by rewrite !bind_bind.
Qed.

Lemma select_location_left (ns : list (string * Value)) (a : Attrs) (w : W) :
  select_location (VStr "left") ns a w =
    mkRun (inr (dict_set "db_location" (VInt 1) ns)) (<["db_location" := VInt 1]> a) w [].
Proof.
  unfold select_location, value_eq.
  rewrite bool_decide_eq_true_2 by done. by rewrite bind_store.
Qed.

Lemma select_location_right (ns : list (string * Value)) (a : Attrs) (w : W) :
  select_location (VStr "right") ns a w =
    mkRun (inr (dict_set "db_location" (VInt 2) ns)) (<["db_location" := VInt 2]> a) w [].
Proof.
  unfold select_location, value_eq.
  rewrite bool_decide_eq_false_2 by done.
  rewrite bool_decide_eq_true_2 by done. by rewrite bind_store.
Qed.

(** X17.  On a device of type 0xD9, choosing the left or the right drum with
    [set_attribute] puts its location, 1 or 2, into the store, and there it
    stays to the end of the call, whatever the relay and the codec answer to
    the refresh and to the command that follow and whether the call returns
    or raises, as long as no calculate rule may assign [db_location] (a rule
    that is not the assignment of an expression to one bracketed path counts
    as one that may). *)
Theorem drum_selection_is_stored (value : Value) (a : Attrs) (w : W) :
  device_type cfg = 217 ->
  assigned (py_eval E) (calculate_get cfg) "db_location" = false ->
  is_Some (a !! "db_location_selection") ->
  (value = VStr "left" ->
   final (set_attribute E cfg "db_location_selection" value a w) !! "db_location"
     = Some (VInt 1)) /\
  (value = VStr "right" ->
   final (set_attribute E cfg "db_location_selection" value a w) !! "db_location"
     = Some (VInt 2)).
Proof.
  intros Htype Hfree Hknown.
  rewrite (set_attribute_selection value a w Htype Hknown).
  set (I := fun (a b : Attrs) (_ : list Event) => b !! "db_location" = a !! "db_location").
  assert (forall ns a1 w1,
            final (after_selection E cfg value ns a1 w1) !! "db_location" =
              a1 !! "db_location") as Htail.
  { intros ns a1 w1.
    apply (keeps_after_selection E cfg I); unfold I; try done.
    - intros; congruence.
    - intros status a0 w0. rewrite parse_cloud_message_run. simpl.
      by apply merge_unassigned.
    - intros status a0 w0. rewrite parse_cloud_message_run. simpl.
      by apply merge_unassigned.
    - intros a0 k v [-> | ->]; by rewrite lookup_insert_ne. }
  split; intros ->.
  - rewrite (bind_after _ _ _ _ _ _ _ _ (select_location_left _ a w)). simpl.
    by rewrite Htail, lookup_insert_eq.
  - rewrite (bind_after _ _ _ _ _ _ _ _ (select_location_right _ a w)). simpl.
    by rewrite Htail, lookup_insert_eq.
Qed.

End Selection.

(** ** One attribute through either setter *)

Section EitherSetter.

Context {W : Type} (E : Env W) (cfg : Config).

Lemma bind_ext {A B} (m : M W A) (k k' : A -> M W B) (a : Attrs) (w : W) :
  (forall x a' w', k x a' w' = k' x a' w') -> bind m k a w = bind m k' a w.
Proof. intros Hk. rewrite !bind_run. destruct (outcome (m a w)); [done |]. by rewrite Hk. Qed.

(** X18.  [set_attributes] with one attribute the store knows is
    [set_attribute]: the same payload goes the same way and the run is the
    same, on every device of a type other than 0xD9, and on a device of type
    0xD9 for every attribute other than [db_position] and
    [db_location_selection]. *)
Theorem set_attributes_of_one (attribute : string) (value : Value)
    (a : Attrs) (w : W) :
  is_Some (a !! attribute) ->
  (device_type cfg = 217 ->
   attribute <> "db_position" /\ attribute <> "db_location_selection") ->
  set_attributes E cfg [(attribute, value)] a w =
    set_attribute E cfg attribute value a w.
Proof.
  intros Hknown Htwin.
  set (ns0 := dict_set attribute value (centralized_status cfg a)).
  assert (set_attributes E cfg [(attribute, value)] a w =
            bind (if device_type cfg =? 217
                  then d9_set_attributes E cfg [(attribute, value)] ns0
                  else ret ns0)
                 (fun ns => nested <- convert_to_nested ns ;; send_control E cfg nested)
                 a w) as ->.
  { unfold set_attributes, new_controls_status.
    rewrite bind_bind, bind_get. cbn [stage_known].
    rewrite (bool_decide_eq_true_2 _ Hknown). cbn [fst snd].
    rewrite bind_bind. apply bind_ext. intros ns a' w'. by rewrite bind_ret. }
  assert (set_attribute E cfg attribute value a w =
            bind (if device_type cfg =? 217
                  then d9_set_attribute E cfg attribute value ns0
                  else ret ns0)
                 (fun ns => nested <- convert_to_nested ns ;; send_control E cfg nested)
                 a w) as ->.
  { unfold set_attribute, new_control_status.
    rewrite bind_get, (bool_decide_eq_true_2 _ Hknown).
    by rewrite bind_bind, bind_get. }
  destruct (device_type cfg =? 217) eqn:Htype; [| done].
  apply Z.eqb_eq in Htype. destruct (Htwin Htype) as [Hpos Hsel].
  unfold d9_set_attributes, d9_set_attribute. cbn [dict_get].
  by rewrite !bool_decide_eq_false_2 by done.
Qed.

End EitherSetter.

(** ** Rules that read what other rules assign *)

Section Chain.

Variable py_eval : Python.

(** X19.  The calculate rules chain in the order of the list, through the
    delta: a rule whose rvalue reads the attribute an earlier rule has just
    assigned fires after it although nothing it reads was reported; placed
    before that rule it does not fire. *)
Theorem rules_chain_in_order (c1 c2 : Rule) (p q : string) (v : Value)
    (a new_status : Attrs) :
  lvalue_target (lvalue c1) = Some p ->
  lvalue_target (lvalue c2) = Some q ->
  fires c1 new_status = true ->
  py_eval (rvalue c1) new_status = Some v ->
  occurs (bracketed p) (rvalue c2) ->
  references (rvalue c2) new_status = false ->
  snd (derive py_eval [c1; c2] a new_status) =
    exec_assign py_eval c2 (<[p := v]> new_status) /\
  snd (derive py_eval [c2; c1] a new_status) = <[p := v]> new_status.
Proof.
  intros Hp Hq Hfires Hv Hreads Hquiet.
  assert (snd (apply_rule py_eval (a, new_status) c1) = <[p := v]> new_status) as H1.
  { unfold apply_rule. simpl. rewrite Hfires. simpl.
    unfold exec_assign. rewrite Hp. unfold value_of in Hv.
    destruct (expression py_eval (rvalue c1)) as [value|]; [| done].
    by rewrite Hv. }
  assert (fires c2 (<[p := v]> new_status) = true) as H2.
  { unfold fires. rewrite !andb_true_iff. split; [split |].
    - apply lvalue_target_spec in Hq as [-> _]. done.
    - by apply occurs_bracketed_nonempty with p.
    - apply references_spec. exists p. split; [| done].
      rewrite lookup_insert_eq. by eexists. }
  assert (fires c2 new_status = false) as H3.
  { unfold fires. rewrite Hquiet. by rewrite andb_false_r. }
  split.
  - unfold derive. cbn [fold_left].
    unfold apply_rule at 1. rewrite H1, H2. done.
  - unfold derive. cbn [fold_left].
    unfold apply_rule at 2. cbn [snd]. rewrite H3. exact H1.
Qed.

End Chain.

(** ** The two merges side by side *)

(** X20.  Without default values and without calculate rules the merge of the
    cloud path and the merge of the local protocol tell the subscribers the
    same delta, the reported values that differ from the stored ones; the
    cloud path leaves the store as it was and the local path holds the delta
    afterwards. *)
Theorem merges_same_delta py_eval (cfg : Config) (a status : Attrs) :
  default_values cfg = ∅ ->
  calculate_get cfg = [] ->
  snd (merge py_eval cfg a status) = snd (local_merge py_eval [] a status) /\
  fst (merge py_eval cfg a status) = a /\
  fst (local_merge py_eval [] a status) = snd (local_merge py_eval [] a status) ∪ a.
Proof.
  intros Hdefaults Hrules.
  assert (merge py_eval cfg a status = (a, staged a ∅ status)) as ->.
  { unfold merge. rewrite Hdefaults, Hrules. by case_bool_decide. }
  assert (local_merge py_eval [] a status = local_overlay a status) as ->.
  { unfold local_merge. by case_bool_decide. }
  split; [| split; [done |]]; apply map_eq; intros k;
    destruct (local_overlay_lookup a status k) as [Hstore Hdelta].
  - simpl. rewrite Hdelta, staged_lookup, lookup_empty.
    destruct (status !! k) as [v|]; [| done]. by destruct (differs a k v).
  - rewrite lookup_union, Hstore, Hdelta.
    destruct (status !! k) as [v|]; [destruct (differs a k v) |];
      by destruct (a !! k).
Qed.

(** * The theorems of this part at concrete sessions *)

Module MoreExamples.

(** A message of six bytes whose length field says six. *)
Definition short_message : list byte :=
  [Byte.x5a; Byte.x5a; Byte.x01; Byte.x10; Byte.x06; Byte.x00].

(** A message of eight bytes, and its first three. *)
Definition long_message : list byte :=
  [Byte.x5a; Byte.x5a; Byte.x01; Byte.x00; Byte.x08; Byte.x00; Byte.xaa; Byte.xbb].

Definition begun_message : list byte := [Byte.x5a; Byte.x5a; Byte.x01].

(** Six bytes whose length field says zero. *)
Definition zero_header : list byte :=
  [Byte.x5a; Byte.x5a; Byte.x01; Byte.x00; Byte.x00; Byte.x00].

(** The washer's store once the setup has run. *)
Definition washer_ready : Attrs :=
  <["db_location_selection" := VStr "left"]> washer_store.

(** The entities of a mapping: one switch and one climate entity. *)
Definition entities : Obj :=
  ODict [("switch", ODict [("child_lock", ODict [])]);
         ("climate", ODict [("thermostat", ODict [("power", OStr "power")])])].

End MoreExamples.

Import MoreExamples.

(** X1, on the air conditioner. *)
Lemma setters_never_notify_witness :
  Forall (fun e => is_notify e = false)
    (emitted (set_attribute query_only ac "power" (VStr "on") ac_store tt)) /\
  Forall (fun e => is_notify e = false)
    (emitted (set_attributes query_only ac [("power", VStr "on")] ac_store tt)).
Proof.
  apply (setters_never_notify query_only ac "power" (VStr "on") [("power", VStr "on")]
           ac_store tt).
  discriminate.
Defined.

(** X2, on the air conditioner, whose one rule assigns [a]. *)
Lemma operations_keep_unassigned_witness :
  final (set_attribute query_only ac "power" (VStr "on") ac_store tt) !! "power"
    = Some (VStr "off") /\
  final (set_attributes query_only ac [("power", VStr "on")] ac_store tt) !! "power"
    = Some (VStr "off") /\
  final (refresh_status query_only ac ac_store tt) !! "power" = Some (VStr "off").
Proof.
  apply (operations_keep_unassigned query_only ac "power" "power" (VStr "on")
           [("power", VStr "on")] ac_store tt).
  - discriminate.
  - reflexivity.
Defined.

(** X3, on the washer that has no relay. *)
Lemma refresh_without_relay_witness :
  outcome (refresh_status failing washer washer_store tt) = inr tt /\
  emitted (refresh_status failing washer washer_store tt) = [] /\
  world (refresh_status failing washer washer_store tt) = tt /\
  (device_type washer <> 217 ->
   final (refresh_status failing washer washer_store tt) = washer_store).
Proof.
  apply (refresh_without_relay failing washer washer_store tt).
  left. reflexivity.
Defined.

(** X5, on the air conditioner and its one query. *)
Lemma refresh_asks_each_query_once_witness :
  omap status_query (emitted (refresh_status query_only ac ac_store tt))
    `prefix_of` queries ac /\
  (outcome (refresh_status query_only ac ac_store tt) = inr tt ->
   omap status_query (emitted (refresh_status query_only ac ac_store tt)) = queries ac).
Proof.
  apply (refresh_asks_each_query_once query_only ac ac_store tt).
  - discriminate.
  - right. reflexivity.
Defined.

(** X6, on the washer at position 0 with location 1. *)
Lemma twin_washer_same_drum_witness :
  exists loc ns,
    outcome (derive_query washer_online (QDict ∅) washer_store tt) =
      inr (QDict (<["db_location" := loc]> ∅)) /\
    new_control_status MiniPy.silent washer_online "db_running_status" (VStr "start")
      washer_store tt = mkRun (inr ns) washer_store tt [] /\
    dict_get "db_location" ns = Some loc.
Proof.
  apply (twin_washer_same_drum MiniPy.silent washer_online ∅ "db_running_status"
           (VStr "start") washer_store tt).
  - reflexivity.
  - discriminate.
  - discriminate.
  - left. reflexivity.
Defined.

(** X7, two messages and the beginning of a third. *)
Lemma fetch_v2_message_splits_witness :
  _fetch_v2_message (List.concat [short_message; long_message] ++ begun_message) =
    Some ([short_message; long_message], begun_message).
Proof.
  apply (fetch_v2_message_splits [short_message; long_message] begun_message).
  - repeat constructor.
  - left. repeat constructor.
Defined.

(** X8, a message and then a header that says zero. *)
Lemma fetch_v2_message_zero_length_witness :
  fetch_v2_loop 1000 [] (List.concat [short_message] ++ zero_header) = None.
Proof.
  apply (fetch_v2_message_zero_length_never_returns [short_message] zero_header 1000 []).
  - repeat constructor.
  - repeat constructor.
  - reflexivity.
Defined.

(** X9, a stream cut inside its second message. *)
Lemma fetch_v2_message_resumes_witness :
  _fetch_v2_message ((short_message ++ begun_message) ++ drop 3 long_message) =
    Some ([short_message] ++ [long_message], []).
Proof.
  apply (fetch_v2_message_resumes (short_message ++ begun_message) (drop 3 long_message)
           [short_message] [long_message] begun_message []).
  - reflexivity.
  - reflexivity.
Defined.

(** X11, a dotted name and then the name of its parent. *)
Lemma convert_keeps_or_drops_witness :
  nested_get (keys_of "a.b") (NDict [("a", NVal (VInt 2))]) = None /\
  nested_get (keys_of "c") (NDict [("a", NVal (VInt 2)); ("c", NVal (VInt 3))])
    = Some (NVal (VInt 3)).
Proof.
  split.
  - apply (convert_keeps_or_drops [] [("a", VInt 2)] "a.b" (VInt 1)
             (NDict [("a", NVal (VInt 2))]) eq_refl).
    constructor. split; [by exists ["b"] | discriminate].
  - apply (convert_keeps_or_drops [("a.b", VInt 1); ("a", VInt 2)] [] "c" (VInt 3)
             (NDict [("a", NVal (VInt 2)); ("c", NVal (VInt 3))]) eq_refl).
    constructor.
Defined.

(** X12, a report of [power] merged into the air conditioner's store. *)
Lemma local_merge_stores_report_witness :
  (exists x,
     final (merge_decoded MiniPy.silent ac {["power" := VStr "on"]} true ac_store tt)
       !! "power" = Some x /\ value_eq x (VStr "on") = true) /\
  exists delta,
    emitted (merge_decoded MiniPy.silent ac {["power" := VStr "on"]} true ac_store tt) =
      notifications ac (snd (local_overlay ac_store {["power" := VStr "on"]})) delta /\
    delta !! "power" = Some (VStr "on").
Proof.
  apply (local_merge_stores_report MiniPy.silent ac {["power" := VStr "on"]} true
           ac_store tt "power" (VStr "on")).
  - reflexivity.
  - reflexivity.
Defined.

(** X13, the same report merged twice. *)
Lemma local_merge_twice_witness :
  merge_decoded MiniPy.silent ac {["power" := VStr "on"]} true
      (final (merge_decoded MiniPy.silent ac {["power" := VStr "on"]} true ac_store tt))
      (world (merge_decoded MiniPy.silent ac {["power" := VStr "on"]} true ac_store tt)) =
    mkRun (inr tt)
      (final (merge_decoded MiniPy.silent ac {["power" := VStr "on"]} true ac_store tt))
      (world (merge_decoded MiniPy.silent ac {["power" := VStr "on"]} true ac_store tt)) [].
Proof.
  apply (local_merge_twice MiniPy.silent ac {["power" := VStr "on"]} true ac_store tt).
  intros k [v Hv].
  destruct (decide (k = "power")) as [-> | Hne]; [reflexivity |].
  rewrite lookup_singleton_ne in Hv by done. discriminate Hv.
Defined.

(** X15, the washer's setup with one switch. *)
Lemma presets_make_known_witness :
  is_Some (preset_attributes 217 ["power"] (Some entities) washer_new !! "power") /\
  is_Some (preset_attributes 217 ["power"] (Some entities) washer_new !! "child_lock") /\
  preset_attributes 217 ["power"] (Some entities) washer_new !! "thermostat" = None /\
  preset_attributes 217 ["power"] (Some entities) washer_new !! "db_location_selection"
    = Some (VStr "left").
Proof.
  destruct (presets_make_known 217 ["power"] (Some entities)
              [("switch", ODict [("child_lock", ODict [])]);
               ("climate", ODict [("thermostat", ODict [("power", OStr "power")])])]
              washer_new eq_refl) as (Hcentral & Hkeys & Hrest & Hlabel).
  split; [| split; [| split]].
  - apply Hcentral. by left.
  - apply (Hkeys "switch" [("child_lock", ODict [])] "child_lock" (ODict [])).
    + by left.
    + by right; right; left.
    + by left.
  - rewrite Hrest by discriminate. reflexivity.
  - apply Hlabel. reflexivity.
Defined.


(** X17, the right drum chosen on the washer behind the relay. *)
Lemma drum_selection_is_stored_witness :
  final (set_attribute failing washer_online "db_location_selection" (VStr "right")
           washer_ready tt) !! "db_location" = Some (VInt 2).
Proof.
  destruct (drum_selection_is_stored failing washer_online (VStr "right")
              washer_ready tt eq_refl eq_refl) as [_ Hright].
  - by eexists.
  - apply Hright. reflexivity.
Defined.

(** X18, [power] on the air conditioner. *)
Lemma set_attributes_of_one_witness :
  set_attributes query_only ac [("power", VStr "on")] ac_store tt =
    set_attribute query_only ac "power" (VStr "on") ac_store tt.
Proof.
  apply (set_attributes_of_one query_only ac "power" (VStr "on") ac_store tt).
  - by eexists.
  - discriminate.
Defined.

(** X19, doubling and then adding to the doubled value. *)
Lemma rules_chain_in_order_witness :
  snd (derive MiniPy.eval [mkRule "[a]" "[b]*2"; mkRule "[c]" "[a]+[a]"] ac_store
         {["b" := VInt 3]}) =
    exec_assign MiniPy.eval (mkRule "[c]" "[a]+[a]")
      (<["a" := VInt 6]> {["b" := VInt 3]}) /\
  snd (derive MiniPy.eval [mkRule "[c]" "[a]+[a]"; mkRule "[a]" "[b]*2"] ac_store
         {["b" := VInt 3]}) = <["a" := VInt 6]> {["b" := VInt 3]}.
Proof.
  apply (rules_chain_in_order MiniPy.eval (mkRule "[a]" "[b]*2") (mkRule "[c]" "[a]+[a]")
           "a" "c" (VInt 6) ac_store {["b" := VInt 3]}).
  - reflexivity.
  - reflexivity.
  - reflexivity.
  - reflexivity.
  - by exists EmptyString, "+[a]".
  - reflexivity.
Defined.

(** X20, a report of the position on the washer. *)
Lemma merges_same_delta_witness :
  snd (merge MiniPy.eval washer washer_store {["db_position" := VInt 1]}) =
    snd (local_merge MiniPy.eval [] washer_store {["db_position" := VInt 1]}) /\
  fst (merge MiniPy.eval washer washer_store {["db_position" := VInt 1]}) = washer_store /\
  fst (local_merge MiniPy.eval [] washer_store {["db_position" := VInt 1]}) =
    snd (local_merge MiniPy.eval [] washer_store {["db_position" := VInt 1]}) ∪ washer_store.
Proof.
  apply (merges_same_delta MiniPy.eval washer washer_store {["db_position" := VInt 1]}).
  - reflexivity.
  - reflexivity.
Defined.

(** ** The relay's merge beside the merge of the local protocol

    [_parse_message] writes every reported value that differs into the store
    (l.557) and evaluates the rules over the store so updated.  In
    [_parse_cloud_message] the same two writes are commented out (l.482 and
    l.490).  The runs below are those of both merges on the same store and
    report. *)

(** C1.  The relay's merge does not apply its delta to the store.  The store
    holds [power = off] and no [mode]; [power = on] is reported.  The
    subscriber is called once with the delta [mode = auto, power = on], and
    the store is afterwards what it was: neither key of the delta is in it
    with its delta value.  With [update] false, as for the reply to a
    command, the merge changes nothing and calls nobody.  The merge of the
    local protocol stores the same report. *)
Theorem cloud_merge_does_not_store {W : Type} (E : Env W) (w : W) :
  _parse_cloud_message E ac {["power" := VStr "on"]} true ac_store w =
    mkRun (inr SUCCESS) ac_store w
      [Merge {["power" := VStr "on"]} true;
       Notify 0 (<["power" := VStr "on"]> {["mode" := VStr "auto"]})] /\
  ac_store !! "power" = Some (VStr "off") /\
  ac_store !! "mode" = None /\
  _parse_cloud_message E ac {["power" := VStr "on"]} false ac_store w =
    mkRun (inr SUCCESS) ac_store w [Merge {["power" := VStr "on"]} false] /\
  merge_decoded E ac {["power" := VStr "on"]} true ac_store w =
    mkRun (inr tt) (<["power" := VStr "on"]> ac_store) w
      [Notify 0 {["power" := VStr "on"]}].
Proof.
  rewrite !parse_cloud_message_run, merge_decoded_run.
  split_and!; by vm_compute.
Qed.

(** C2.  The relay's merge of the same report a second time stages the same
    delta and calls the subscriber with it again, since the first merge
    stored nothing; the merge of the local protocol is silent the second
    time. *)
Theorem cloud_merge_repeats_delta {W : Type} (E : Env W) (w : W) :
  emitted
    (_parse_cloud_message E ac {["power" := VStr "on"]} true
       (final (_parse_cloud_message E ac {["power" := VStr "on"]} true ac_store w))
       (world (_parse_cloud_message E ac {["power" := VStr "on"]} true ac_store w))) =
    [Merge {["power" := VStr "on"]} true;
     Notify 0 (<["power" := VStr "on"]> {["mode" := VStr "auto"]})] /\
  emitted
    (merge_decoded E ac {["power" := VStr "on"]} true
       (final (merge_decoded E ac {["power" := VStr "on"]} true ac_store w))
       (world (merge_decoded E ac {["power" := VStr "on"]} true ac_store w))) = [].
Proof.
  rewrite !parse_cloud_message_run, !merge_decoded_run.
  split; by vm_compute.
Qed.

(** C6.  A reported value does not end the default.  [mode] has the default
    [auto] and is not in the store.  A first merge reports [mode = cool]:
    the subscriber is told [cool].  The next merge reports [power] only: the
    store still has no [mode], so the default is staged again and the
    subscriber is told [mode = auto]. *)
Theorem default_returns_after_report {W : Type} (E : Env W) (w : W) :
  emitted (_parse_cloud_message E ac {["mode" := VStr "cool"]} true ac_store w) =
    [Merge {["mode" := VStr "cool"]} true; Notify 0 {["mode" := VStr "cool"]}] /\
  _parse_cloud_message E ac {["power" := VStr "on"]} true
      (final (_parse_cloud_message E ac {["mode" := VStr "cool"]} true ac_store w))
      (world (_parse_cloud_message E ac {["mode" := VStr "cool"]} true ac_store w)) =
    mkRun (inr SUCCESS) ac_store w
      [Merge {["power" := VStr "on"]} true;
       Notify 0 (<["power" := VStr "on"]> {["mode" := VStr "auto"]})].
Proof.
  rewrite !parse_cloud_message_run.
  split; by vm_compute.
Qed.

(** C7.  A rule that fires in the relay's merge is not computed over the store
    with the delta laid over it: [calculate_str1] reads the store, which the
    merge has not updated, and [calculate_str2] reads the delta alone.
    - Rule [[a] = [b]+[c]], [c = 1] stored, [b = 2] reported.  The rule
      fires, both statements raise, and [a] is neither staged nor stored.
      The merge of the local protocol stores and stages [a = 3].
    - Rule [[a] = [b]*2], [b = 5] stored, [b = 3] reported.  The store gets
      [a = 10], from the value of [b] that the report replaces, while the
      delta says [a = 6].  The merge of the local protocol gives [a = 6] in
      both. *)
Theorem cloud_rule_reads_stale_store :
  fires (mkRule "[a]" "[b]+[c]") {["b" := VInt 2]} = true /\
  _parse_cloud_message MiniPy.silent adder {["b" := VInt 2]} true
      (<["c" := VInt 1]> ac_store) tt =
    mkRun (inr SUCCESS) (<["c" := VInt 1]> ac_store) tt
      [Merge {["b" := VInt 2]} true; Notify 0 {["b" := VInt 2]}] /\
  merge_decoded MiniPy.silent adder {["b" := VInt 2]} true
      (<["c" := VInt 1]> ac_store) tt =
    mkRun (inr tt)
      (<["a" := VInt 3]> (<["b" := VInt 2]> (<["c" := VInt 1]> ac_store))) tt
      [Notify 0 (<["a" := VInt 3]> {["b" := VInt 2]})] /\
  _parse_cloud_message MiniPy.silent ac {["b" := VInt 3]} true
      (<["b" := VInt 5]> ac_store) tt =
    mkRun (inr SUCCESS) (<["a" := VInt 10]> (<["b" := VInt 5]> ac_store)) tt
      [Merge {["b" := VInt 3]} true;
       Notify 0 (<["a" := VInt 6]> (<["b" := VInt 3]> {["mode" := VStr "auto"]}))] /\
  merge_decoded MiniPy.silent ac {["b" := VInt 3]} true
      (<["b" := VInt 5]> ac_store) tt =
    mkRun (inr tt) (<["a" := VInt 6]> (<["b" := VInt 3]> ac_store)) tt
      [Notify 0 (<["a" := VInt 6]> {["b" := VInt 3]})].
Proof.
  rewrite !parse_cloud_message_run, !merge_decoded_run.
  split_and!; by vm_compute.
Qed.
